(** * PvPoke ranking engine: the CLI rankers, embedded and checked

    Sources embedded here:
    - [src/cli/lib/RankerNode.js]: [checkFilters], [rank], [setEnergyAdvantage],
      [weightMatchups], [finalizeRankings];
    - [src/cli/lib/RankerOverallNode.js]: [rankOverall].

    Numbers.  JavaScript numbers are IEEE-754 doubles, and the arithmetic of
    the program is embedded twice.

    - In binary64 (modules [Binary64], [Orchestrator64], [Solver64],
      [Scoring64]): a double is a primitive float, whose operations are the
      binary64 operations rounded to nearest, ties to even.  What is stated
      about a number that the program computes with fractions (the raw
      ratings of a pairing, the score that a solver pass pushes) is stated
      there.
    - In exact arithmetic (modules [Orchestrator], [Solver], [Finalizer],
      [Overall], [Consistency]): integers are [Z], fractions are rationals
      [Q], and no operation rounds.  This is an idealisation, which has the
      numbers of the program only where no operation rounds.  It is kept for
      what does not depend on the rounding: which pairings are simulated and
      which are reused, the number of resolver calls, the shape of the
      results, the gating of the shield bonus, the order and the range of
      the scaled scores.

    [Math.pow] with an exponent that is not an integer (1.65, 0.5, 1/6, 1/n)
    has no rational value, and the language leaves its rounding to the
    implementation: it is a section variable [pow], and nothing is assumed
    about it. *)

From Stdlib Require Import ZArith QArith Qround Qminmax Qabs Qpower List String Ascii Bool Lia Lqa.
From Stdlib Require Import Floats.
From Stdlib Require Import Permutation Sorted.
Import ListNotations.
Open Scope Z_scope.
Set Warnings "-inexact-float".

(** ** JavaScript helpers *)

(** [x || d] on numbers: [0] is falsy. *)
Definition jsOrZ (x d : Z) : Z := if x =? 0 then d else x.

Definition jsOrQ (x d : Q) : Q := if Qeq_bool x 0%Q then d else x.

(** [x || d] where [x] may be [undefined]. *)
Definition jsOrOptQ (x : option Q) (d : Q) : Q :=
  match x with
  | Some q => jsOrQ q d
  | None => d
  end.

(** [Math.round]: the nearest integer, halves towards plus infinity. *)
Definition jsRound (x : Q) : Z := Qfloor (x + (1 # 2))%Q.

(** [Array.prototype.includes] on strings and on numbers. *)
Definition includes (l : list string) (s : string) : bool :=
  existsb (String.eqb s) l.

Definition includesZ (l : list Z) (z : Z) : bool :=
  existsb (Z.eqb z) l.

(** [s.replace(pat, '')]: the first occurrence of [pat] is removed. *)
Fixpoint dropPrefix (pat s : string) : option string :=
  match pat with
  | EmptyString => Some s
  | String a pat' =>
      match s with
      | EmptyString => None
      | String b s' => if Ascii.eqb a b then dropPrefix pat' s' else None
      end
  end.

Fixpoint removeFirst (pat s : string) : string :=
  match dropPrefix pat s with
  | Some rest => rest
  | None =>
      match s with
      | EmptyString => EmptyString
      | String c s' => String c (removeFirst pat s')
      end
  end.

(** Option as the error monad: [None] is a JavaScript [TypeError] (a property
    of [undefined]) or a result that is not a finite number. *)
Definition obind {A B : Type} (x : option A) (f : A -> option B) : option B :=
  match x with
  | Some a => f a
  | None => None
  end.

Notation "x <- e ;; k" := (obind e (fun x => k))
  (at level 61, e at next level, right associativity).
Notation "' p <- e ;; k" := (obind e (fun p => k))
  (at level 61, p pattern, e at next level, right associativity).

(** ** Data model *)

(** A move; [moveEnergy] is its [energy] (the cost of a charged move). *)
Record Move : Type := {
  moveId : string;
  power : Q;
  moveEnergy : Z;
  energyGain : Z;
  cooldown : Z;
  stab : option Q
}.

(** A contestant, with the fields and methods the rankers read.  [hasTag]
    and [knowsMove] are methods of the object.  Every contestant that reaches
    the rankers has a fast move: [initPokemonList] selects one ([selectMove]
    or [autoSelectMoves]) before it pushes the contestant. *)
Record Pokemon : Type := {
  speciesId : string;
  speciesName : string;
  dex : Z;
  types : string * string;
  hasTag : string -> bool;
  knowsMove : string -> bool;
  statsHp : Z;
  statsAtk : Q;
  shadowAtkMult : option Q;
  fastMove : Move;
  chargedMoves : list Move;
  weightModifier : option Q
}.

(** An eligibility rule: [filterType] with its [values], and the optional
    [leagues] it is scoped to.  A [filterType] the [switch] does not list
    falls through it. *)
Inductive FilterKind : Type :=
| FType (values : list string)
| FDex (lo hi : Z)
| FTag (values : list string)
| FId (values : list string) (includeShadows : bool)
| FMove (values : list string)
| FOther.

Record Filter : Type := {
  kind : FilterKind;
  leagues : option (list Z)
}.

(** ** Roster builder: [checkFilters] *)

Module Filters.

Record Counters : Type := {
  filtersMatched : Z;
  requiredFilters : Z;
  includeIdFilter : bool
}.

(** The body of [for (const filter of filters)]; [len] is [filters.length]. *)
Definition filterStep (pokemon : Pokemon) (cp : Z) (isInclude : bool) (len : Z)
    (st : Counters) (filter : Filter) : Counters :=
  let skip :=
    match leagues filter with
    | Some ls => negb (includesZ ls cp)
    | None => false
    end in
  if skip then
    {| filtersMatched := filtersMatched st;
       requiredFilters := requiredFilters st - 1;
       includeIdFilter := includeIdFilter st |}
  else
    match kind filter with
    | FType values =>
        if includes values (fst (types pokemon)) || includes values (snd (types pokemon))
        then {| filtersMatched := filtersMatched st + 1;
                requiredFilters := requiredFilters st;
                includeIdFilter := includeIdFilter st |}
        else st
    | FDex lo hi =>
        if (lo <=? dex pokemon) && (dex pokemon <=? hi)
        then {| filtersMatched := filtersMatched st + 1;
                requiredFilters := requiredFilters st;
                includeIdFilter := includeIdFilter st |}
        else st
    | FTag values =>
        if existsb (hasTag pokemon) values
        then {| filtersMatched := filtersMatched st + 1;
                requiredFilters := requiredFilters st;
                includeIdFilter := includeIdFilter st |}
        else st
    | FId values includeShadows =>
        let required :=
          if isInclude && (1 <? len) then requiredFilters st - 1
          else requiredFilters st in
        let testId :=
          if negb isInclude || includeShadows
          then removeFirst "_xs" (removeFirst "_shadow" (speciesId pokemon))
          else speciesId pokemon in
        if includes values testId || includes values (speciesId pokemon)
        then {| filtersMatched := filtersMatched st + len;
                requiredFilters := required;
                includeIdFilter := if isInclude then true else includeIdFilter st |}
        else {| filtersMatched := filtersMatched st;
                requiredFilters := required;
                includeIdFilter := includeIdFilter st |}
    | FMove values =>
        if existsb (knowsMove pokemon) values
        then {| filtersMatched := filtersMatched st + 1;
                requiredFilters := requiredFilters st;
                includeIdFilter := includeIdFilter st |}
        else st
    | FOther => st
    end.

(** One turn of [for (let n = 0; n < filterLists.length; n++)]: the state
    carried from one list to the next is [(allowed, includeIdFilter)]. *)
Definition listStep (pokemon : Pokemon) (cp : Z) (st : bool * bool)
    (entry : bool * list Filter) : bool * bool :=
  let '(allowed, idFlag) := st in
  let '(isInclude, filters) := entry in
  let len := Z.of_nat (List.length filters) in
  let c := fold_left (filterStep pokemon cp isInclude len) filters
             {| filtersMatched := 0; requiredFilters := len; includeIdFilter := idFlag |} in
  let allowed1 :=
    if isInclude && (requiredFilters c <=? filtersMatched c) then true else allowed in
  let allowed2 :=
    if negb isInclude && (0 <? filtersMatched c) && negb (includeIdFilter c)
    then false else allowed1 in
  (allowed2, includeIdFilter c).

Definition checkFilters (pokemon : Pokemon) (include exclude : list Filter) (cp : Z) : bool :=
  fst (fold_left (listStep pokemon cp) [(true, include); (false, exclude)] (false, false)).

(** A rule applies to the league when it has no [leagues] or lists [cp]. *)
Definition appliesTo (filter : Filter) (cp : Z) : bool :=
  match leagues filter with
  | Some ls => includesZ ls cp
  | None => true
  end.

(** An [id] rule of an include list that applies to the league and names the
    contestant (its identity, or its identity without the shadow suffixes
    when the rule says [includeShadows]). *)
Definition idMatch (pokemon : Pokemon) (cp : Z) (filter : Filter) : bool :=
  appliesTo filter cp &&
  match kind filter with
  | FId values includeShadows =>
      includes values
        (if includeShadows
         then removeFirst "_xs" (removeFirst "_shadow" (speciesId pokemon))
         else speciesId pokemon)
      || includes values (speciesId pokemon)
  | _ => false
  end.

End Filters.

(** ** Battle orchestrator: the simulation loop of [rank] *)

Record Scenario : Type := {
  slug : string;
  shields : Z * Z;
  energy : Z * Z
}.

(** What [generateMoveUsage] returns: uses per fast and per charged move. *)
Record MoveUsage : Type := {
  usageFastMoves : list (string * Q);
  usageChargedMoves : list (string * Q)
}.

(** What the orchestrator reads after [battle.simulate()]: both sides' hit
    points and remaining shields, and the move usage of each side.  Side 0 is
    the candidate, side 1 the target. *)
Record Outcome : Type := {
  hp0 : Z;
  hp1 : Z;
  shields0 : Z;
  shields1 : Z;
  usage0 : MoveUsage;
  usage1 : MoveUsage
}.

(** The combat resolver as the orchestrator drives it: the two contestants,
    their starting shields and their starting energy.  In a self-pairing the
    two sides are one object in the program, so a resolver met there returns
    the same hit points and shields for both sides; no theorem below assumes
    it, and no counterexample uses a self-pairing against it. *)
Definition Resolver : Type := Pokemon -> Pokemon -> Z -> Z -> Z -> Z -> Outcome.

Record Match : Type := {
  opponent : string;
  rating : Z;
  adjRating : Q;
  opRating : Z;
  adjOpRating : Q;
  moveUsage : MoveUsage;
  oppMoveUsage : MoveUsage;
  score : option Q;
  opScore : option Q
}.

(** [rankObj]; [moves] (the aggregated usage table), [matchups] and
    [counters] are left out: no property below reads them. *)
Record RankObj : Type := {
  rankSpeciesId : string;
  rankSpeciesName : string;
  rankRating : Z;
  matches : list Match;
  scores : list Z
}.

(** A loop over an array with its index. *)
Fixpoint foldi {A S : Type} (f : S -> nat -> A -> S) (l : list A) (k : nat) (s : S) : S :=
  match l with
  | [] => s
  | x :: l' => foldi f l' (Datatypes.S k) (f s k x)
  end.

Module Orchestrator.

(** [setEnergyAdvantage]: the starting energy for [turns] energy-turns. *)
Definition setEnergyAdvantage (pokemon : Pokemon) (turns : Z) : Z :=
  if turns =? 0 then 0
  else
    let fastMoveCount := Z.max 1 ((turns * 500) / cooldown (fastMove pokemon)) in
    Z.min (energyGain (fastMove pokemon) * fastMoveCount) 100.

(** [Math.floor((healthRating + damageRating) * 500)] for the side with
    [hp] of [maxHp] left, against a side with [opHp] of [opMaxHp] left, in
    exact arithmetic.  The program rounds the two quotients and their sum,
    and its rating can be one less: see [Binary64.rawRating] and
    [Orchestrator64.simulateMatch]. *)
Definition rawRating (hp maxHp opHp opMaxHp : Z) : Z :=
  let healthRating := (inject_Z hp / inject_Z maxHp)%Q in
  let damageRating := (inject_Z (opMaxHp - opHp) / inject_Z opMaxHp)%Q in
  Qfloor ((healthRating + damageRating) * 500)%Q.

(** [(winMultiplier, opWinMultiplier)]. *)
Definition winMultipliers (rating opRating : Z) : Z * Z :=
  let winMultiplier := if opRating <? rating then 1 else 0 in
  let opWinMultiplier := if opRating <? rating then 0 else 1 in
  if rating =? 500 then (0, 0) else (winMultiplier, opWinMultiplier).

(** Lines 373-427: one simulated encounter.  [setShields] records the
    scenario's count as the side's [startingShields]. *)
Definition simulateMatch (simulate : Resolver) (scenario : Scenario)
    (pokemon opponent : Pokemon) : Match :=
  let out := simulate pokemon opponent
               (fst (shields scenario)) (snd (shields scenario))
               (setEnergyAdvantage pokemon (fst (energy scenario)))
               (setEnergyAdvantage opponent (snd (energy scenario))) in
  let rating := rawRating (hp0 out) (statsHp pokemon) (hp1 out) (statsHp opponent) in
  let opRating := rawRating (hp1 out) (statsHp opponent) (hp0 out) (statsHp pokemon) in
  let '(winMultiplier, opWinMultiplier) := winMultipliers rating opRating in
  let adjRating := rating
                   + 100 * (snd (shields scenario) - shields1 out) * winMultiplier
                   + 100 * shields0 out * winMultiplier in
  let adjOpRating := opRating
                     + 100 * (fst (shields scenario) - shields0 out) * opWinMultiplier
                     + 100 * shields1 out * opWinMultiplier in
  {| opponent := speciesId opponent;
     rating := rating;
     adjRating := inject_Z adjRating;
     opRating := opRating;
     adjOpRating := inject_Z adjOpRating;
     moveUsage := usage0 out;
     oppMoveUsage := usage1 out;
     score := None;
     opScore := None |}.

(** Lines 356-364: the record pushed when the mirrored pairing is reused. *)
Definition swapMatch (opponent : Pokemon) (m : Match) : Match :=
  {| opponent := speciesId opponent;
     rating := opRating m;
     adjRating := adjOpRating m;
     opRating := rating m;
     adjOpRating := adjRating m;
     moveUsage := oppMoveUsage m;
     oppMoveUsage := moveUsage m;
     score := None;
     opScore := None |}.

(** The guard of the reuse: equal pool sizes, equal shields, equal
    energy-turns. *)
Definition symmetric (scenario : Scenario) (pokemonList targets : list Pokemon) : bool :=
  (List.length pokemonList =? List.length targets)%nat
  && (fst (shields scenario) =? snd (shields scenario))
  && (fst (energy scenario) =? snd (energy scenario)).

(** [rankings[n] && rankings[n].matches[i]]. *)
Definition mirrored (rankings : list RankObj) (n i : nat) : option Match :=
  match nth_error rankings n with
  | Some r => nth_error (matches r) i
  | None => None
  end.

(** The state of the loop over the targets: the matches pushed so far, the
    running [avg], and [totalBattles]. *)
Record Inner : Type := {
  accMatches : list Match;
  accAvg : Q;
  accBattles : nat
}.

(** The body of [for (let n = 0; n < this.targets.length; n++)]. *)
Definition pairStep (simulate : Resolver) (scenario : Scenario)
    (pokemonList targets : list Pokemon) (rankings : list RankObj)
    (i : nat) (pokemon : Pokemon) (st : Inner) (n : nat) (opponent : Pokemon) : Inner :=
  let isMirror := String.eqb (speciesId opponent) (speciesId pokemon) in
  match (if symmetric scenario pokemonList targets then mirrored rankings n i else None) with
  | Some m =>
      {| accMatches := accMatches st ++ [swapMatch opponent m];
         accAvg := if isMirror then accAvg st else (accAvg st + adjOpRating m)%Q;
         accBattles := accBattles st |}
  | None =>
      let m := simulateMatch simulate scenario pokemon opponent in
      {| accMatches := accMatches st ++ [m];
         accAvg := if isMirror then accAvg st else (accAvg st + adjRating m)%Q;
         accBattles := Datatypes.S (accBattles st) |}
  end.

(** The body of [for (let i = 0; i < rankCount; i++)]; the state is
    [(rankings, totalBattles)]. *)
Definition candidateStep (simulate : Resolver) (scenario : Scenario)
    (pokemonList targets : list Pokemon) (st : list RankObj * nat)
    (i : nat) (pokemon : Pokemon) : list RankObj * nat :=
  let '(rankings, totalBattles) := st in
  let inner := foldi (pairStep simulate scenario pokemonList targets rankings i pokemon)
                 targets 0%nat
                 {| accMatches := []; accAvg := 0%Q; accBattles := totalBattles |} in
  let nonMirrorCount := Z.of_nat (List.length targets) - 1 in
  let avg := Qfloor (accAvg inner / inject_Z (jsOrZ nonMirrorCount 1))%Q in
  (rankings ++ [{| rankSpeciesId := speciesId pokemon;
                   rankSpeciesName := speciesName pokemon;
                   rankRating := avg;
                   matches := accMatches inner;
                   scores := [avg] |}],
   accBattles inner).

(** Lines 318-447 of [rank]: every pairing simulated or reused; the result is
    [rankings] with [totalBattles]. *)
Definition simulateAll (simulate : Resolver) (scenario : Scenario)
    (pokemonList targets : list Pokemon) : list RankObj * nat :=
  foldi (candidateStep simulate scenario pokemonList targets) pokemonList 0%nat ([], 0%nat).

End Orchestrator.

(** ** Iterative weight solver: [weightMatchups] *)

Definition Qltb (a b : Q) : bool := negb (Qle_bool b a).

(** [l[i] = x] for an index in range. *)
Fixpoint replaceAt {A : Type} (i : nat) (x : A) (l : list A) : list A :=
  match l, i with
  | [], _ => []
  | _ :: l', O => x :: l'
  | y :: l', Datatypes.S i' => y :: replaceAt i' x l'
  end.

(** A list of values all of which are defined. *)
Fixpoint collect {A : Type} (l : list (option A)) : option (list A) :=
  match l with
  | [] => Some []
  | x :: l' => a <- x ;; r <- collect l' ;; Some (a :: r)
  end.

Module Solver.

Definition rankCutoffIncrease : Q := 6 # 100.
Definition rankWeightExponent : Q := 165 # 100.

(** [0.1 + rankCutoffIncrease * n], in exact arithmetic; the program's
    cutoff is [Solver64.cutoff]. *)
Definition cutoff (n : nat) : Q := ((1 # 10) + rankCutoffIncrease * inject_Z (Z.of_nat n))%Q.

(** [cup.name === 'custom' ? 7 : 1]. *)
Definition iterations (cupName : string) : nat :=
  if String.eqb cupName "custom" then 7%nat else 1%nat.

(** [rankings[j].scores[n]]: [None] when [rankings[j]] is [undefined] (a
    [TypeError]) or the score is (it would turn into [NaN]). *)
Definition scoreAt (rankings : list RankObj) (j n : nat) : option Z :=
  r <- nth_error rankings j ;; nth_error (scores r) n.

(** [Math.max(...)] of a non-empty list. *)
Definition maxScores (l : list Z) : option Z :=
  match l with
  | [] => None
  | x :: l' => Some (fold_left Z.max l' x)
  end.

(** [Math.max(...rankings.map(r => r.scores[n]))]. *)
Definition bestScore (n : nat) (rankings : list RankObj) : option Z :=
  col <- collect (map (fun r => nth_error (scores r) n) rankings) ;; maxScores col.

Section Passes.

(** [Math.pow] for exponents that are not integers. *)
Variable pow : Q -> Q -> Q.
(** [this.pokemonList], [this.targets], the scenario, [cup.name] and
    [this.battle.getCP()]. *)
Variables pokemonList targets : list Pokemon.
Variable scenario : Scenario.
Variable cupName : string.
Variable battleCP : Z.

(** Lines 506-513: the weight before any override.  With [bestScore = 0] the
    quotient is not finite: [NaN] for [0/0] (the weight is [NaN], here
    [None]) and minus infinity for a negative score (the maximum with 0 is
    0). *)
Definition baseWeight (n : nat) (bestScore sj : Z) : option Q :=
  if (List.length pokemonList =? List.length targets)%nat then
    if bestScore =? 0 then
      if sj <? 0 then Some (pow 0 rankWeightExponent) else None
    else
      Some (pow (Qmax (inject_Z sj / inject_Z bestScore - cutoff n) 0) rankWeightExponent)
  else Some 1%Q.

(** [rankings[j].scores[n] / bestScore < 0.1 + rankCutoffIncrease * n]; a
    comparison with [NaN] is false. *)
Definition belowCutoff (n : nat) (bestScore sj : Z) : bool :=
  if bestScore =? 0 then sj <? 0
  else Qltb (inject_Z sj / inject_Z bestScore) (cutoff n).

(** Lines 530-542: the soft cap over 700, then the harsh curve under 300. *)
Definition curve (adj : Q) : Q :=
  let adj1 := if Qltb 700 adj then (700 + pow (adj - 700) (1 # 2))%Q else adj in
  if Qltb adj1 300 then pow 300 ((300 + adj1) / (300 + 300))%Q else adj1.

(** Lines 506-547: the weight of pairing [j] of candidate [pokemon] as it
    multiplies the rating; [None] is [NaN]. *)
Definition pairingWeight (n : nat) (bestScore : Z) (pokemon target : Pokemon)
    (sj : Z) (adj : Q) : option Q :=
  let weight0 := baseWeight n bestScore sj in
  let weight1 :=
    if String.eqb (speciesId target) (speciesId pokemon) then Some 0%Q else weight0 in
  let weight2 :=
    match weightModifier target with
    | Some wm => option_map (fun w => (w * wm)%Q) weight1
    | None =>
        if String.eqb cupName "all" && (battleCP =? 1500) then Some 0%Q else weight1
    end in
  if String.eqb (slug scenario) "switches" && Qltb adj 500
  then option_map (fun w => (w * (1 + (500 - adj) * (500 - adj) / 20000))%Q) weight2
  else weight2.

(** The body of [for (let j = 0; j < matches.length; j++)]: the match as it
    is left, [sc], and the weight added to [weights]. *)
Definition weighPairing (n : nat) (bestScore : Z) (pokemon target : Pokemon)
    (sj : Z) (m : Match) : option (Match * Q * Q) :=
  let adj := curve (adjRating m) in
  weight <- pairingWeight n bestScore pokemon target sj adj ;;
  let sc := (adj * weight)%Q in
  let m' :=
    {| opponent := opponent m;
       rating := rating m;
       adjRating := adj;
       opRating := opRating m;
       adjOpRating := adjOpRating m;
       moveUsage := moveUsage m;
       oppMoveUsage := oppMoveUsage m;
       score := Some sc;
       opScore := Some (adjOpRating m * pow 4 weight)%Q |} in
  Some (m', sc, if belowCutoff n bestScore sj then 0%Q else weight).

(** The loop over the matches of candidate [i], from index [j] on, with the
    running [score] and [weights]. *)
Fixpoint weighMatches (n : nat) (bestScore : Z) (rankings : list RankObj) (i : nat)
    (ms : list Match) (j : nat) (score weights : Q) : option (list Match * Q * Q) :=
  match ms with
  | [] => Some ([], score, weights)
  | m :: rest =>
      sj <- scoreAt rankings j n ;;
      target <- nth_error targets j ;;
      pokemon <- nth_error pokemonList i ;;
      '(m', sc, weight) <- weighPairing n bestScore pokemon target sj m ;;
      '(rest', score', weights') <-
         weighMatches n bestScore rankings i rest (Datatypes.S j) (score + sc)%Q (weights + weight)%Q ;;
      Some (m' :: rest', score', weights')
  end.

(** The body of [for (let i = 0; i < rankCount; i++)]: the matches of
    [rankings[i]] are rewritten in place and the new score is pushed.  The
    sums and the quotient are exact here; the score that the program pushes
    is that of [Solver64.candidatePass]. *)
Definition candidatePass (n : nat) (bestScore : Z) (rankings : list RankObj) (i : nat)
    : option (list RankObj) :=
  r <- nth_error rankings i ;;
  '(ms, score, weights) <- weighMatches n bestScore rankings i (matches r) 0%nat 0%Q 0%Q ;;
  let avgScore := Qfloor (score / jsOrQ weights 1)%Q in
  Some (replaceAt i
          {| rankSpeciesId := rankSpeciesId r;
             rankSpeciesName := rankSpeciesName r;
             rankRating := rankRating r;
             matches := ms;
             scores := scores r ++ [avgScore] |}
          rankings).

Fixpoint passLoop (n : nat) (bestScore : Z) (indices : list nat) (rankings : list RankObj)
    : option (list RankObj) :=
  match indices with
  | [] => Some rankings
  | i :: rest => rs <- candidatePass n bestScore rankings i ;; passLoop n bestScore rest rs
  end.

(** One turn of [for (let n = 0; n < iterations; n++)].  With no rankings
    [bestScore] is minus infinity and is never read. *)
Definition weightPass (n : nat) (rankings : list RankObj) : option (list RankObj) :=
  match rankings with
  | [] => Some []
  | _ =>
      best <- bestScore n rankings ;;
      passLoop n best (seq 0 (List.length rankings)) rankings
  end.

Fixpoint passes (ns : list nat) (rankings : list RankObj) : option (list RankObj) :=
  match ns with
  | [] => Some rankings
  | n :: rest => rs <- weightPass n rankings ;; passes rest rs
  end.

Definition weightMatchups (rankings : list RankObj) : option (list RankObj) :=
  passes (seq 0 (iterations cupName)) rankings.

End Passes.

End Solver.

(** ** Scenario finalizer: [finalizeRankings] *)

(** A ranking entry as it is saved: a scenario's, or the overall one
    ([entryScores] is filled by the aggregator only).  The usage table, the
    matchups and the counters are left out. *)
Record Entry : Type := {
  entrySpeciesId : string;
  entrySpeciesName : string;
  entryRating : Z;
  entryScore : Q;
  entryMoveset : list string;
  entryScores : list Q
}.

Definition withScore (e : Entry) (s : Q) : Entry :=
  {| entrySpeciesId := entrySpeciesId e;
     entrySpeciesName := entrySpeciesName e;
     entryRating := entryRating e;
     entryScore := s;
     entryMoveset := entryMoveset e;
     entryScores := entryScores e |}.

(** [rankings.sort((a, b) => b.score - a.score)]: descending, and stable as
    [Array.prototype.sort] is. *)
Fixpoint insertDesc (x : Entry) (l : list Entry) : list Entry :=
  match l with
  | [] => [x]
  | y :: l' =>
      if Qle_bool (entryScore y) (entryScore x) then x :: l
      else y :: insertDesc x l'
  end.

Definition sortDesc (l : list Entry) : list Entry := fold_right insertDesc [] l.

(** [rankings[0]?.score || 1]. *)
Definition highestScore (l : list Entry) : Q :=
  match l with
  | [] => 1%Q
  | e :: _ => jsOrQ (entryScore e) 1
  end.

Module Finalizer.

(** [Math.floor((score / highest) * 1000) / 10]. *)
Definition scaleFloor (highest score : Q) : Q :=
  (inject_Z (Qfloor ((score / highest) * 1000)) / 10)%Q.

(** [Math.min(...)] of a non-empty list. *)
Definition minList (l : list Q) : option Q :=
  match l with
  | [] => None
  | x :: l' => Some (fold_left Qmin l' x)
  end.

Section Finalize.

Variable pow : Q -> Q -> Q.

(** Lines 587-596: the factor of the [chargers] scenario.  [None]: no
    charged move (the minimum is infinite) or a zero cooldown (a division by
    zero). *)
Definition chargerFactor (pokemon : Pokemon) : option Q :=
  let fm := fastMove pokemon in
  if cooldown fm =? 0 then None
  else
    let fastMoveDpt :=
      ((power fm * jsOrOptQ (stab fm) 1 * jsOrOptQ (shadowAtkMult pokemon) 1
        * (statsAtk pokemon / 100)) / (inject_Z (cooldown fm) / 500))%Q in
    least <- minList (map (fun m => inject_Z (jsOrZ (moveEnergy m) 100)) (chargedMoves pokemon)) ;;
    let maxEnergyRemaining := (100 - least)%Q in
    Some (pow (pow (maxEnergyRemaining / 100) (1 # 2) * pow (fastMoveDpt / 5) (1 # 6)) (1 # 6))%Q.

(** [[fastMove.moveId, chargedMoves[0].moveId].filter(Boolean)], then the
    second charged move when there is one. *)
Definition movesetOf (pokemon : Pokemon) : list string :=
  filter (fun s => negb (String.eqb s ""%string))
    (moveId (fastMove pokemon)
     :: match chargedMoves pokemon with
        | [] => []
        | m :: _ => [moveId m]
        end)
  ++ match chargedMoves pokemon with
     | _ :: m :: _ => [moveId m]
     | _ => []
     end.

(** The body of the first loop of [finalizeRankings] for [rankings[i]] and
    [pokemonList[i]]: the entry with its score before the scaling. *)
Definition finalEntry (scenario : Scenario) (r : RankObj) (pokemon : Pokemon) : option Entry :=
  last <- nth_error (scores r) (List.length (scores r) - 1) ;;
  s <- (if String.eqb (slug scenario) "chargers"
        then f <- chargerFactor pokemon ;; Some (inject_Z last * f)%Q
        else Some (inject_Z last)) ;;
  Some {| entrySpeciesId := rankSpeciesId r;
          entrySpeciesName := rankSpeciesName r;
          entryRating := rankRating r;
          entryScore := s;
          entryMoveset := movesetOf pokemon;
          entryScores := [] |}.

Fixpoint finalEntries (scenario : Scenario) (rankings : list RankObj)
    (pokemonList : list Pokemon) : option (list Entry) :=
  match rankings with
  | [] => Some []
  | r :: rs =>
      match pokemonList with
      | [] => None
      | p :: ps =>
          e <- finalEntry scenario r p ;;
          es <- finalEntries scenario rs ps ;;
          Some (e :: es)
      end
  end.

(** Lines 605-612: sort by score, then scale to 0-100. *)
Definition scaleRankings (entries : list Entry) : list Entry :=
  let sorted := sortDesc entries in
  let highest := highestScore sorted in
  map (fun e => withScore e (scaleFloor highest (entryScore e))) sorted.

Definition finalizeRankings (rankings : list RankObj) (pokemonList : list Pokemon)
    (scenario : Scenario) : option (list Entry) :=
  es <- finalEntries scenario rankings pokemonList ;;
  Some (scaleRankings es).

(** [rank]: every pairing, the solver, the finalizer. *)
Definition rank (simulate : Resolver) (pokemonList targets : list Pokemon)
    (cupName : string) (battleCP : Z) (scenario : Scenario) : option (list Entry) :=
  let rankings := fst (Orchestrator.simulateAll simulate scenario pokemonList targets) in
  rs <- Solver.weightMatchups pow pokemonList targets scenario cupName battleCP rankings ;;
  finalizeRankings rs pokemonList scenario.

End Finalize.

End Finalizer.

(** ** Cross-scenario aggregator: [rankOverall] *)

Module Overall.

Definition categories : list string :=
  ["leads"; "closers"; "switches"; "chargers"; "attackers"]%string.

(** [Math.round((score / highest) * 1000) / 10]. *)
Definition scaleRound (highest score : Q) : Q :=
  (inject_Z (jsRound ((score / highest) * 1000)) / 10)%Q.

(** [data.find(p => p.speciesId === id)]. *)
Definition findEntry (id : string) (data : list Entry) : option Entry :=
  find (fun p => String.eqb (entrySpeciesId p) id) data.

Section Aggregate.

Variable pow : Q -> Q -> Q.
(** [gm.loadRankingData(category, league, cupName)] for the run's league and
    cup: [None] when there is no data. *)
Variable loadRankingData : string -> option (list Entry).

(** [categoryData]: the categories that have data, in the order of
    [categories]. *)
Definition categoryData : list (string * list Entry) :=
  flat_map (fun c => match loadRankingData c with
                     | Some data => [(c, data)]
                     | None => []
                     end) categories.

(** [categoryData.leads || Object.values(categoryData)[0]]; [categoryData]
    is not empty where this is read. *)
Definition baseCategory : list Entry :=
  match loadRankingData "leads" with
  | Some data => data
  | None =>
      match categoryData with
      | (_, data) :: _ => data
      | [] => []
      end
  end.

(** The scores gathered for one identity, a category after the other. *)
Definition gatherScores (id : string) : list Q :=
  flat_map (fun cd => match findEntry id (snd cd) with
                      | Some entry => [entryScore entry]
                      | None => []
                      end) categoryData.

(** Lines 79-82. *)
Definition geometricMean (scores : list Q) : Q :=
  pow (fold_left (fun acc s => (acc * Qmax s (1 # 10))%Q) scores 1%Q)
      (1 / inject_Z (Z.of_nat (List.length scores)))%Q.

(** The body of [for (const pokemonData of baseCategory)]: the entry pushed,
    if any, with its score before the scaling. *)
Definition overallEntry (pokemonData : Entry) : list Entry :=
  let scores := gatherScores (entrySpeciesId pokemonData) in
  match scores with
  | [] => []
  | _ =>
      let g := geometricMean scores in
      [{| entrySpeciesId := entrySpeciesId pokemonData;
          entrySpeciesName := entrySpeciesName pokemonData;
          entryRating := jsRound (g * 10);
          entryScore := g;
          entryMoveset := entryMoveset pokemonData;
          entryScores := scores |}]
  end.

(** The overall rankings before the sort and the scaling. *)
Definition overallEntries : list Entry := flat_map overallEntry baseCategory.

(** Lines 99-106. *)
Definition scaleOverall (entries : list Entry) : list Entry :=
  let sorted := sortDesc entries in
  let highest := highestScore sorted in
  map (fun e => withScore e (scaleRound highest (entryScore e))) sorted.

(** [rankOverall]; [official] is the official overall data, if any, and
    [isCustomCup] what [gm.isCustomCup(cupName)] answers.  [None] is the
    [null] returned when no category has data. *)
Definition rankOverall (official : option (list Entry)) (isCustomCup : bool)
    : option (list Entry) :=
  match official, isCustomCup with
  | Some data, false => Some data
  | _, _ =>
      match categoryData with
      | [] => None
      | _ => Some (scaleOverall overallEntries)
      end
  end.

End Aggregate.

End Overall.

(** ** Binary64: the numbers of the program

    The doubles are Rocq's primitive floats, whose operations are the
    IEEE-754 binary64 operations rounded to nearest, ties to even, as
    JavaScript's are. *)

Module Binary64.

(** An integer as a double (exact below [2^53]). *)
Definition ofZ (z : Z) : float :=
  if z <? 0 then PrimFloat.opp (PrimFloat.of_uint63 (Uint63.of_Z (- z)))
  else PrimFloat.of_uint63 (Uint63.of_Z z).

(** [Math.floor] of a finite double; [None] for [NaN] and the infinities. *)
Definition floor (x : float) : option Z :=
  match Prim2SF x with
  | S754_zero _ => Some 0
  | S754_finite s m e =>
      let mag := Z.pos m * 2 ^ Z.max e 0 in
      Some ((if s then - mag else mag) / 2 ^ Z.max (- e) 0)
  | _ => None
  end.

(** [Math.floor] as a double.  A double with a fraction part is below [2^52]
    in magnitude and its floor is an integer that a double holds; every other
    double ([NaN], the infinities, the zeros, the integers) is returned as it
    is. *)
Definition mathFloor (x : float) : float :=
  match Prim2SF x with
  | S754_finite s m e =>
      if e <? 0 then ofZ ((if s then Z.neg m else Z.pos m) / 2 ^ (- e)) else x
  | _ => x
  end.

(** A fraction as the double nearest to it, for a numerator and a
    denominator below [2^53]: the double that the program has for a number
    written as a decimal ([452 # 1000] for [0.452]). *)
Definition ofQ (q : Q) : float := (ofZ (Qnum q) / ofZ (Z.pos (Qden q)))%float.

(** [x || d] on doubles: [0], [-0] and [NaN] are falsy. *)
Definition jsOrF (x d : float) : float :=
  if (x =? 0)%float || PrimFloat.is_nan x then d else x.

(** [Number.isFinite]: neither [NaN] nor an infinity. *)
Definition isFinite (x : float) : bool :=
  match Prim2SF x with
  | S754_zero _ | S754_finite _ _ _ => true
  | _ => false
  end.

(** [0] or [-0]. *)
Definition isZero (x : float) : bool :=
  match Prim2SF x with
  | S754_zero _ => true
  | _ => false
  end.

(** Neither below zero nor [-0]: a positive number, [+0], plus infinity or
    [NaN]. *)
Definition notBelowZero (x : float) : bool :=
  match Prim2SF x with
  | S754_zero s | S754_finite s _ _ | S754_infinity s => negb s
  | S754_nan => true
  end.

(** [Math.max] of two numbers: [NaN] when one of them is; [+0] is above
    [-0]. *)
Definition mathMax (a b : float) : float :=
  if PrimFloat.is_nan a || PrimFloat.is_nan b then nan
  else if (a <? b)%float then b
  else if (b <? a)%float then a
  else match Prim2SF a with
       | S754_zero true => b
       | _ => a
       end.

(** [Math.max(...l)]: minus infinity for no argument. *)
Definition mathMaxList (l : list float) : float := fold_left mathMax l neg_infinity.

(** The expression of [Orchestrator.rawRating], each operation a binary64
    operation rounded to nearest-even as JavaScript's are.  The difference
    is taken on the integers: for hit points below [2^53] it is the
    difference of the doubles (lemma [sub_ofZ]). *)
Definition rawRating (hp maxHp opHp opMaxHp : Z) : option Z :=
  let healthRating := (ofZ hp / ofZ maxHp)%float in
  let damageRating := (ofZ (opMaxHp - opHp) / ofZ opMaxHp)%float in
  floor ((healthRating + damageRating) * 500)%float.

End Binary64.

(** ** The simulation loop in binary64

    Lines 318-447 of [rank] once more, with the numbers the program has:
    ratings, adjusted ratings and the running average are doubles, and every
    operation on them rounds.  Hit points and shields are integers; an
    integer enters the arithmetic as the double that holds it. *)

Module Orchestrator64.

Import Binary64.

Record Match : Type := {
  opponent : string;
  rating : float;
  adjRating : float;
  opRating : float;
  adjOpRating : float;
  moveUsage : MoveUsage;
  oppMoveUsage : MoveUsage;
  score : option float;
  opScore : option float
}.

Record RankObj : Type := {
  rankSpeciesId : string;
  rankSpeciesName : string;
  rankRating : float;
  matches : list Match;
  scores : list float
}.

(** [(winMultiplier, opWinMultiplier)]: [rating > opRating] and
    [rating === 500] on doubles. *)
Definition winMultipliers (rating opRating : float) : float * float :=
  let winMultiplier := if (opRating <? rating)%float then 1%float else 0%float in
  let opWinMultiplier := if (opRating <? rating)%float then 0%float else 1%float in
  if (rating =? 500)%float then (0%float, 0%float) else (winMultiplier, opWinMultiplier).

(** Lines 373-427: one simulated encounter. *)
Definition simulateMatch (simulate : Resolver) (scenario : Scenario)
    (pokemon opponent : Pokemon) : Match :=
  let out := simulate pokemon opponent
               (fst (shields scenario)) (snd (shields scenario))
               (Orchestrator.setEnergyAdvantage pokemon (fst (energy scenario)))
               (Orchestrator.setEnergyAdvantage opponent (snd (energy scenario))) in
  let healthRating := (ofZ (hp0 out) / ofZ (statsHp pokemon))%float in
  let damageRating :=
    ((ofZ (statsHp opponent) - ofZ (hp1 out)) / ofZ (statsHp opponent))%float in
  let opHealthRating := (ofZ (hp1 out) / ofZ (statsHp opponent))%float in
  let opDamageRating :=
    ((ofZ (statsHp pokemon) - ofZ (hp0 out)) / ofZ (statsHp pokemon))%float in
  let rating := mathFloor ((healthRating + damageRating) * 500)%float in
  let opRating := mathFloor ((opHealthRating + opDamageRating) * 500)%float in
  let '(winMultiplier, opWinMultiplier) := winMultipliers rating opRating in
  let adjRating :=
    (rating
     + 100 * (ofZ (snd (shields scenario)) - ofZ (shields1 out)) * winMultiplier
     + 100 * ofZ (shields0 out) * winMultiplier)%float in
  let adjOpRating :=
    (opRating
     + 100 * (ofZ (fst (shields scenario)) - ofZ (shields0 out)) * opWinMultiplier
     + 100 * ofZ (shields1 out) * opWinMultiplier)%float in
  {| opponent := speciesId opponent;
     rating := rating;
     adjRating := adjRating;
     opRating := opRating;
     adjOpRating := adjOpRating;
     moveUsage := usage0 out;
     oppMoveUsage := usage1 out;
     score := None;
     opScore := None |}.

(** Lines 356-364: the record pushed when the mirrored pairing is reused. *)
Definition swapMatch (opponent : Pokemon) (m : Match) : Match :=
  {| opponent := speciesId opponent;
     rating := opRating m;
     adjRating := adjOpRating m;
     opRating := rating m;
     adjOpRating := adjRating m;
     moveUsage := oppMoveUsage m;
     oppMoveUsage := moveUsage m;
     score := None;
     opScore := None |}.

(** [rankings[n] && rankings[n].matches[i]]. *)
Definition mirrored (rankings : list RankObj) (n i : nat) : option Match :=
  match nth_error rankings n with
  | Some r => nth_error (matches r) i
  | None => None
  end.

Record Inner : Type := {
  accMatches : list Match;
  accAvg : float;
  accBattles : nat
}.

(** The body of [for (let n = 0; n < this.targets.length; n++)]. *)
Definition pairStep (simulate : Resolver) (scenario : Scenario)
    (pokemonList targets : list Pokemon) (rankings : list RankObj)
    (i : nat) (pokemon : Pokemon) (st : Inner) (n : nat) (opponent : Pokemon) : Inner :=
  let isMirror := String.eqb (speciesId opponent) (speciesId pokemon) in
  match (if Orchestrator.symmetric scenario pokemonList targets
         then mirrored rankings n i else None) with
  | Some m =>
      {| accMatches := accMatches st ++ [swapMatch opponent m];
         accAvg := if isMirror then accAvg st else (accAvg st + adjOpRating m)%float;
         accBattles := accBattles st |}
  | None =>
      let m := simulateMatch simulate scenario pokemon opponent in
      {| accMatches := accMatches st ++ [m];
         accAvg := if isMirror then accAvg st else (accAvg st + adjRating m)%float;
         accBattles := Datatypes.S (accBattles st) |}
  end.

(** The body of [for (let i = 0; i < rankCount; i++)]; the state is
    [(rankings, totalBattles)]. *)
Definition candidateStep (simulate : Resolver) (scenario : Scenario)
    (pokemonList targets : list Pokemon) (st : list RankObj * nat)
    (i : nat) (pokemon : Pokemon) : list RankObj * nat :=
  let '(rankings, totalBattles) := st in
  let inner := foldi (pairStep simulate scenario pokemonList targets rankings i pokemon)
                 targets 0%nat
                 {| accMatches := []; accAvg := 0%float; accBattles := totalBattles |} in
  let nonMirrorCount := Z.of_nat (List.length targets) - 1 in
  let avg := mathFloor (accAvg inner / ofZ (jsOrZ nonMirrorCount 1))%float in
  (rankings ++ [{| rankSpeciesId := speciesId pokemon;
                   rankSpeciesName := speciesName pokemon;
                   rankRating := avg;
                   matches := accMatches inner;
                   scores := [avg] |}],
   accBattles inner).

Definition simulateAll (simulate : Resolver) (scenario : Scenario)
    (pokemonList targets : list Pokemon) : list RankObj * nat :=
  foldi (candidateStep simulate scenario pokemonList targets) pokemonList 0%nat ([], 0%nat).

End Orchestrator64.

(** ** Rounding to the nearest double, on integers

    What the specification of the primitive floats ([SpecFloat]) computes,
    in the terms the proofs use. *)

Module Round.

(** The position of [N / D] between two integers. *)
Definition loc_of (N D : Z) : location :=
  if N mod D =? 0 then loc_Exact else loc_Inexact (2 * (N mod D) ?= D).

(** [N / D] rounded to the nearest integer, ties to even. *)
Definition rne_div (N D : Z) : Z := round_nearest_even (N / D) (loc_of N D).

Definition record (N D : Z) : shr_record := shr_record_of_loc (N / D) (loc_of N D).

End Round.

(** [x] is the positive normal double with mantissa [M] and exponent [E]. *)
Definition PN (x : float) (M E : Z) : Prop :=
  Prim2SF x = S754_finite false (Z.to_pos M) E /\ 2 ^ 52 <= M < 2 ^ 53.

(** [M * 2^E] is [N / D], in units of [2^G], rounded to nearest-even; the
    quotient has 53 bits. *)
Definition RoundsZ (N D G M E : Z) : Prop :=
  0 < D /\ 2 ^ 52 * D <= N < 2 ^ 53 * D
  /\ ((M = Round.rne_div N D /\ E = G)
      \/ (Round.rne_div N D = 2 ^ 53 /\ M = 2 ^ 52 /\ E = G + 1)).

(** [2^e] for any integer [e]. *)
Definition pw (e : Z) : Q := (2 ^ e)%Q.

(** The value of the double with mantissa [M] and exponent [E]. *)
Definition valQ (M E : Z) : Q := (inject_Z M * pw E)%Q.

(** [x] is [+0] or a positive normal double with exponent in [[lo, hi]];
    [f] is its value. *)
Definition NN (lo hi : Z) (x : float) (f : Q) : Prop :=
  (Prim2SF x = S754_zero false /\ (f == 0)%Q)
  \/ (exists M E, PN x M E /\ lo <= E <= hi /\ (f == valQ M E)%Q).

(** [x] is the double nearest to [v] (ties to even), and [f] its value. *)
Definition Rnd (lo hi : Z) (v : Q) (x : float) (f : Q) : Prop :=
  ((v == 0)%Q /\ Prim2SF x = S754_zero false /\ (f == 0)%Q)
  \/ (exists N D G M E,
        PN x M E /\ lo <= E <= hi /\ RoundsZ N D G M E
        /\ (v == inject_Z N / inject_Z D * pw G)%Q /\ (f == valQ M E)%Q).

(** ** The table of pairings, stated directly

    What [simulateAll] is shown to compute: the pairing of candidate [i] with
    target [n] is simulated, or, in a symmetric scenario and for [n < i], is
    the pairing of candidate [n] with target [i] with its sides swapped. *)

Fixpoint imap {A B : Type} (f : nat -> A -> B) (l : list A) (k : nat) : list B :=
  match l with
  | [] => []
  | x :: l' => f k x :: imap f l' (Datatypes.S k)
  end.

Definition Qsum (l : list Q) : Q := fold_right Qplus 0%Q l.

Module Pairings.

Section Table.

Variable simulate : Resolver.
Variable scenario : Scenario.
Variables pokemonList targets : list Pokemon.

Definition fresh (p o : Pokemon) : Match :=
  Orchestrator.simulateMatch simulate scenario p o.

(** The pairing of candidate [i] with target [n] is taken from the mirrored
    pairing. *)
Definition reuses (i n : nat) : bool :=
  Orchestrator.symmetric scenario pokemonList targets && (n <? i)%nat.

Definition cell (i : nat) (p : Pokemon) (n : nat) (o : Pokemon) : Match :=
  if reuses i n
  then Orchestrator.swapMatch o (fresh (nth n pokemonList p) (nth i targets o))
  else fresh p o.

Definition row (i : nat) (p : Pokemon) : list Match := imap (cell i p) targets 0%nat.

(** Same identity on both sides. *)
Definition isMirror (p o : Pokemon) : bool := String.eqb (speciesId o) (speciesId p).

(** The adjusted ratings that enter the first average of candidate [i]: a
    self-pairing enters with nothing. *)
Definition contributions (i : nat) (p : Pokemon) : list Q :=
  imap (fun n o => if isMirror p o then 0%Q else adjRating (cell i p n o)) targets 0%nat.

(** The average before the solver: the sum over the pairings that are not
    self-pairings, over the number of targets less one (1 when that is 0). *)
Definition initialAverage (i : nat) (p : Pokemon) : Z :=
  Qfloor (Qsum (contributions i p)
          / inject_Z (jsOrZ (Z.of_nat (List.length targets) - 1) 1))%Q.

Definition rankObjOf (i : nat) (p : Pokemon) : RankObj :=
  {| rankSpeciesId := speciesId p;
     rankSpeciesName := speciesName p;
     rankRating := initialAverage i p;
     matches := row i p;
     scores := [initialAverage i p] |}.

(** The resolver calls made for candidate [i], and in all. *)
Definition rowBattles (i : nat) : nat :=
  list_sum (imap (fun n (_ : Pokemon) => if reuses i n then 0%nat else 1%nat) targets 0%nat).

Definition totalBattles : nat :=
  list_sum (imap (fun i (_ : Pokemon) => rowBattles i) pokemonList 0%nat).

(** What the reuse test finds for candidate [i] in the rankings built so
    far: the mirrored pairing for the targets before [i], nothing from [i]
    on. *)
Definition lookupOK (rankings : list RankObj) (i : nat) (p : Pokemon) : Prop :=
  forall n o, nth_error targets n = Some o ->
    (if Orchestrator.symmetric scenario pokemonList targets
     then Orchestrator.mirrored rankings n i else None)
    = if reuses i n then Some (fresh (nth n pokemonList p) (nth i targets o)) else None.

End Table.

End Pairings.

(** ** The score of a solver pass, stated directly *)

Module Scoring.

(** A pairing as a pass reads it: the target, the score of the ranking at
    the target's index in this pass, and the match. *)
Definition Pairing : Type := (Pokemon * Z * Match)%type.

Section Formula.

Variable pow : Q -> Q -> Q.
Variables pokemonList targets : list Pokemon.
Variable scenario : Scenario.
Variable cupName : string.
Variable battleCP : Z.

(** The pairings of one candidate in pass [n]; [None] when a match has no
    target or no score to go with. *)
Definition pairings (n : nat) (rankings : list RankObj) (ms : list Match)
    : option (list Pairing) :=
  collect (imap (fun j m => t <- nth_error targets j ;;
                            s <- Solver.scoreAt rankings j n ;;
                            Some (t, s, m)) ms 0%nat).

Definition modifierOf (t : Pokemon) : Q :=
  match weightModifier t with
  | Some w => w
  | None => 1%Q
  end.

(** The rating that enters the sums: the adjusted rating after the soft cap
    and the harsh curve. *)
Definition curvedRating (m : Match) : Q := Solver.curve pow (adjRating m).

(** [max(0, targetScore/bestScore - (0.1 + 0.06 n))^1.65] when the pool size
    equals the target size, else 1. *)
Definition rankWeight (n : nat) (best sj : Z) : Q :=
  if (List.length pokemonList =? List.length targets)%nat
  then pow (Qmax (inject_Z sj / inject_Z best - Solver.cutoff n) 0) Solver.rankWeightExponent
  else 1%Q.

(** The target's score is under the cutoff fraction of the best score. *)
Definition below (n : nat) (best sj : Z) : bool :=
  Qltb (inject_Z sj / inject_Z best) (Solver.cutoff n).

(** The factor of the [switches] scenario on a rating under 500. *)
Definition switchPenalty (m : Match) : Q :=
  if String.eqb (slug scenario) "switches" && Qltb (curvedRating m) 500
  then (1 + (500 - curvedRating m) * (500 - curvedRating m) / 20000)%Q
  else 1%Q.

(** The weight that multiplies the rating: zero for a self-match; the cutoff
    plays no part in it. *)
Definition ratingWeight (n : nat) (best : Z) (p : Pokemon) (pr : Pairing) : Q :=
  let '(t, sj, m) := pr in
  ((if Pairings.isMirror p t then 0 else rankWeight n best sj)
   * modifierOf t * switchPenalty m)%Q.

(** The weight that is counted in the denominator: zero under the cutoff. *)
Definition countedWeight (n : nat) (best : Z) (p : Pokemon) (pr : Pairing) : Q :=
  let '(_, sj, _) := pr in
  if below n best sj then 0%Q else ratingWeight n best p pr.

Definition passScore (n : nat) (best : Z) (p : Pokemon) (l : list Pairing) : Z :=
  Qfloor (Qsum (map (fun pr => curvedRating (snd pr) * ratingWeight n best p pr) l)
          / jsOrQ (Qsum (map (countedWeight n best p) l)) 1)%Q.

(** The match a pass leaves keeps what the orchestrator recorded, but for
    the adjusted rating, which is curved. *)
Definition sameRecord (m m' : Match) : Prop :=
  opponent m' = opponent m /\ rating m' = rating m /\ opRating m' = opRating m
  /\ adjOpRating m' = adjOpRating m /\ adjRating m' = curvedRating m.

(** What the pass makes of [rankings[i]], as a function of the rankings the
    pass started from. *)
Definition afterPass (n : nat) (best : Z) (rankings : list RankObj) (i : nat) (r : RankObj)
    : option RankObj :=
  '(ms, score, weights) <- Solver.weighMatches pow pokemonList targets scenario cupName battleCP
       n best rankings i (matches r) 0%nat 0%Q 0%Q ;;
  Some {| rankSpeciesId := rankSpeciesId r;
          rankSpeciesName := rankSpeciesName r;
          rankRating := rankRating r;
          matches := ms;
          scores := scores r ++ [Qfloor (score / jsOrQ weights 1)%Q] |}.

(** What a pass needs to return a finite score for every candidate: a best
    score that is not 0, a contestant for every ranking, and for every match
    a target that carries a weight modifier and a ranking at the target's
    index. *)
Definition ready (n : nat) (rankings : list RankObj) : bool :=
  match Solver.bestScore n rankings with
  | Some best => negb (best =? 0)
  | None => false
  end
  && (List.length rankings <=? List.length pokemonList)%nat
  && forallb (fun r =>
                match pairings n rankings (matches r) with
                | Some l =>
                    forallb (fun pr : Pairing =>
                               match weightModifier (fst (fst pr)) with
                               | Some _ => true
                               | None => false
                               end) l
                | None => false
                end) rankings.

End Formula.

End Scoring.

(** ** The solver in binary64

    Lines 491-565 of [weightMatchups] once more, on doubles.  A score that
    is missing ([undefined]) enters the arithmetic as [NaN]; [None] is left
    for the [TypeError] of reading a ranking, a target or a contestant that
    is not there. *)

Module Solver64.

Import Binary64.
Import Orchestrator64.

Definition rankCutoffIncrease : float := 0.06.
Definition rankWeightExponent : float := 1.65.

(** [0.1 + rankCutoffIncrease * n]. *)
Definition cutoff (n : nat) : float := (0.1 + rankCutoffIncrease * ofZ (Z.of_nat n))%float.

(** [cup.name === 'custom' ? 7 : 1]. *)
Definition iterations (cupName : string) : nat :=
  if String.eqb cupName "custom" then 7%nat else 1%nat.

(** [rankings[j].scores[n]]: [None] when [rankings[j]] is [undefined]. *)
Definition scoreAt (rankings : list RankObj) (j n : nat) : option float :=
  r <- nth_error rankings j ;; Some (nth n (scores r) nan).

(** [Math.max(...rankings.map(r => r.scores[n]))]. *)
Definition bestScore (n : nat) (rankings : list RankObj) : float :=
  mathMaxList (map (fun r => nth n (scores r) nan) rankings).

Section Passes.

(** [Math.pow], which the language leaves to the implementation. *)
Variable pow : float -> float -> float.
(** [this.pokemonList], [this.targets], the scenario, [cup.name] and
    [this.battle.getCP()]. *)
Variables pokemonList targets : list Pokemon.
Variable scenario : Scenario.
Variable cupName : string.
Variable battleCP : Z.

(** Lines 506-513: the weight before any override. *)
Definition baseWeight (n : nat) (bestScore sj : float) : float :=
  if (List.length pokemonList =? List.length targets)%nat
  then pow (mathMax (sj / bestScore - cutoff n) 0) rankWeightExponent
  else 1%float.

(** [rankings[j].scores[n] / bestScore < 0.1 + rankCutoffIncrease * n]. *)
Definition belowCutoff (n : nat) (bestScore sj : float) : bool :=
  (sj / bestScore <? cutoff n)%float.

(** Lines 530-542: the soft cap over 700, then the harsh curve under 300. *)
Definition curve (adj : float) : float :=
  let adj1 := if (700 <? adj)%float then (700 + pow (adj - 700) 0.5)%float else adj in
  if (adj1 <? 300)%float then pow 300 ((300 + adj1) / (300 + 300))%float else adj1.

(** Lines 506-547: the weight of pairing [j] of candidate [pokemon] as it
    multiplies the rating. *)
Definition pairingWeight (n : nat) (bestScore : float) (pokemon target : Pokemon)
    (sj adj : float) : float :=
  let weight0 := baseWeight n bestScore sj in
  let weight1 :=
    if String.eqb (speciesId target) (speciesId pokemon) then 0%float else weight0 in
  let weight2 :=
    match weightModifier target with
    | Some wm => (weight1 * ofQ wm)%float
    | None =>
        if String.eqb cupName "all" && (battleCP =? 1500) then 0%float else weight1
    end in
  if String.eqb (slug scenario) "switches" && (adj <? 500)%float
  then (weight2 * (1 + pow (500 - adj) 2 / 20000))%float
  else weight2.

(** The body of [for (let j = 0; j < matches.length; j++)]: the match as it
    is left, [sc], and the weight added to [weights]. *)
Definition weighPairing (n : nat) (bestScore : float) (pokemon target : Pokemon)
    (sj : float) (m : Match) : Match * float * float :=
  let adj := curve (adjRating m) in
  let weight := pairingWeight n bestScore pokemon target sj adj in
  let sc := (adj * weight)%float in
  let m' :=
    {| opponent := opponent m;
       rating := rating m;
       adjRating := adj;
       opRating := opRating m;
       adjOpRating := adjOpRating m;
       moveUsage := moveUsage m;
       oppMoveUsage := oppMoveUsage m;
       score := Some sc;
       opScore := Some (adjOpRating m * pow 4 weight)%float |} in
  (m', sc, if belowCutoff n bestScore sj then 0%float else weight).

(** The loop over the matches of candidate [i], from index [j] on, with the
    running [score] and [weights]. *)
Fixpoint weighMatches (n : nat) (bestScore : float) (rankings : list RankObj) (i : nat)
    (ms : list Match) (j : nat) (score weights : float)
    : option (list Match * float * float) :=
  match ms with
  | [] => Some ([], score, weights)
  | m :: rest =>
      sj <- scoreAt rankings j n ;;
      target <- nth_error targets j ;;
      pokemon <- nth_error pokemonList i ;;
      let '(m', sc, weight) := weighPairing n bestScore pokemon target sj m in
      '(rest', score', weights') <-
         weighMatches n bestScore rankings i rest (Datatypes.S j)
           (score + sc)%float (weights + weight)%float ;;
      Some (m' :: rest', score', weights')
  end.

(** The body of [for (let i = 0; i < rankCount; i++)]: the matches of
    [rankings[i]] are rewritten in place and the new score is pushed. *)
Definition candidatePass (n : nat) (bestScore : float) (rankings : list RankObj) (i : nat)
    : option (list RankObj) :=
  r <- nth_error rankings i ;;
  '(ms, score, weights) <-
     weighMatches n bestScore rankings i (matches r) 0%nat 0%float 0%float ;;
  let avgScore := mathFloor (score / jsOrF weights 1)%float in
  Some (replaceAt i
          {| rankSpeciesId := rankSpeciesId r;
             rankSpeciesName := rankSpeciesName r;
             rankRating := rankRating r;
             matches := ms;
             scores := scores r ++ [avgScore] |}
          rankings).

Fixpoint passLoop (n : nat) (bestScore : float) (indices : list nat)
    (rankings : list RankObj) : option (list RankObj) :=
  match indices with
  | [] => Some rankings
  | i :: rest => rs <- candidatePass n bestScore rankings i ;; passLoop n bestScore rest rs
  end.

(** One turn of [for (let n = 0; n < iterations; n++)]. *)
Definition weightPass (n : nat) (rankings : list RankObj) : option (list RankObj) :=
  passLoop n (bestScore n rankings) (seq 0 (List.length rankings)) rankings.

Fixpoint passes (ns : list nat) (rankings : list RankObj) : option (list RankObj) :=
  match ns with
  | [] => Some rankings
  | n :: rest => rs <- weightPass n rankings ;; passes rest rs
  end.

Definition weightMatchups (rankings : list RankObj) : option (list RankObj) :=
  passes (seq 0 (iterations cupName)) rankings.

End Passes.

End Solver64.

(** ** The score of a pass in binary64, stated directly *)

Module Scoring64.

Import Binary64.
Import Orchestrator64.

(** A pairing as a pass reads it: the target, the score of the ranking at
    the target's index in this pass, and the match. *)
Definition Pairing : Type := (Pokemon * float * Match)%type.

(** A sum as the loop takes it: from 0, left to right, each addition
    rounded. *)
Definition fsum (l : list float) : float := fold_left PrimFloat.add l 0%float.

(** The adjusted ratings that enter the first average of candidate [p]:
    those of its pairings that are not self-pairings, in the order of the
    targets. *)
Definition firstRatings (p : Pokemon) (targets : list Pokemon) (ms : list Match)
    : list float :=
  map (fun om => adjRating (snd om))
      (filter (fun om => negb (Pairings.isMirror p (fst om))) (combine targets ms)).

(** The average before the solver: the sum over the number of targets less
    one (1 when that is 0). *)
Definition firstAverage (p : Pokemon) (targets : list Pokemon) (ms : list Match) : float :=
  mathFloor (fsum (firstRatings p targets ms)
             / ofZ (jsOrZ (Z.of_nat (List.length targets) - 1) 1))%float.

Section Formula.

Variable pow : float -> float -> float.
Variables pokemonList targets : list Pokemon.
Variable scenario : Scenario.
Variable cupName : string.
Variable battleCP : Z.

(** The pairings of one candidate in pass [n]; [None] when a match has no
    target or no ranking to go with. *)
Definition pairings (n : nat) (rankings : list RankObj) (ms : list Match)
    : option (list Pairing) :=
  collect (imap (fun j m => t <- nth_error targets j ;;
                            s <- Solver64.scoreAt rankings j n ;;
                            Some (t, s, m)) ms 0%nat).

(** The rating that enters the sums: the adjusted rating after the soft cap
    and the harsh curve. *)
Definition curvedRating (m : Match) : float := Solver64.curve pow (adjRating m).

(** [max(0, targetScore/bestScore - (0.1 + 0.06 n))^1.65] when the pool size
    equals the target size, else 1. *)
Definition rankWeight (n : nat) (best sj : float) : float :=
  if (List.length pokemonList =? List.length targets)%nat
  then pow (mathMax (sj / best - Solver64.cutoff n) 0) Solver64.rankWeightExponent
  else 1%float.

(** The target's score is under the cutoff fraction of the best score. *)
Definition below (n : nat) (best sj : float) : bool :=
  (sj / best <? Solver64.cutoff n)%float.

(** The factor of the [switches] scenario on a rating under 500. *)
Definition switchPenalty (m : Match) : float :=
  (1 + pow (500 - curvedRating m) 2 / 20000)%float.

(** The weight that multiplies the rating: the rank weight, 0 for a
    self-match; times the target's weight modifier, or, for a target without
    one, 0 in the cup [all] at 1500; times the penalty of the [switches]
    scenario for a rating under 500.  The cutoff plays no part in it. *)
Definition ratingWeight (n : nat) (best : float) (p : Pokemon) (pr : Pairing) : float :=
  let '(t, sj, m) := pr in
  let ranked := if Pairings.isMirror p t then 0%float else rankWeight n best sj in
  let modified :=
    match weightModifier t with
    | Some wm => (ranked * ofQ wm)%float
    | None => if String.eqb cupName "all" && (battleCP =? 1500) then 0%float else ranked
    end in
  if String.eqb (slug scenario) "switches" && (curvedRating m <? 500)%float
  then (modified * switchPenalty m)%float
  else modified.

(** The weight that is counted in the denominator: zero under the cutoff. *)
Definition countedWeight (n : nat) (best : float) (p : Pokemon) (pr : Pairing) : float :=
  let '(_, sj, _) := pr in
  if below n best sj then 0%float else ratingWeight n best p pr.

Definition passScore (n : nat) (best : float) (p : Pokemon) (l : list Pairing) : float :=
  mathFloor (fsum (map (fun pr => curvedRating (snd pr) * ratingWeight n best p pr)%float l)
             / jsOrF (fsum (map (countedWeight n best p) l)) 1)%float.

(** The pairings that are not self-pairings. *)
Definition withoutSelf (p : Pokemon) (l : list Pairing) : list Pairing :=
  filter (fun pr => negb (Pairings.isMirror p (fst (fst pr)))) l.

(** The numbers of a pairing are plain: its share of the numerator and its
    weight are not below zero, and, in a self-pairing, the numbers that
    multiply the weight 0 (the target's weight modifier, the curved rating,
    the penalty of the [switches] scenario) are finite. *)
Definition plain (n : nat) (best : float) (p : Pokemon) (pr : Pairing) : bool :=
  let '(t, _, m) := pr in
  notBelowZero (curvedRating m * ratingWeight n best p pr)%float
  && notBelowZero (countedWeight n best p pr)
  && (negb (Pairings.isMirror p t)
      || (isFinite (curvedRating m)
          && match weightModifier t with
             | Some wm => isFinite (ofQ wm)
             | None => true
             end
          && isFinite (switchPenalty m))).

(** What a pass needs to return: a contestant for every ranking, a score of
    this pass in every ranking, and for every match a target and a ranking
    at its index. *)
Definition ready (n : nat) (rankings : list RankObj) : bool :=
  (List.length rankings <=? List.length pokemonList)%nat
  && forallb (fun r =>
                (n <? List.length (scores r))%nat
                && (List.length (matches r) <=? List.length targets)%nat
                && (List.length (matches r) <=? List.length rankings)%nat) rankings.

(** What the pass makes of [rankings[i]], as a function of the rankings the
    pass started from. *)
Definition afterPass (n : nat) (best : float) (rankings : list RankObj) (i : nat)
    (r : RankObj) : option RankObj :=
  '(ms, score, weights) <-
     Solver64.weighMatches pow pokemonList targets scenario cupName battleCP
       n best rankings i (matches r) 0%nat 0%float 0%float ;;
  Some {| rankSpeciesId := rankSpeciesId r;
          rankSpeciesName := rankSpeciesName r;
          rankRating := rankRating r;
          matches := ms;
          scores := scores r ++ [mathFloor (score / jsOrF weights 1)%float] |}.

End Formula.

End Scoring64.

(** ** Eligibility, stated directly *)

Module FilterSpec.

(** The contestant meets the rule, league apart: the test of each [case] of
    the [switch]; an [id] rule of an exclude list, or one that says
    [includeShadows], also tests the identity without its shadow suffixes. *)
Definition ruleMatches (isInclude : bool) (pokemon : Pokemon) (filter : Filter) : bool :=
  match kind filter with
  | FType values =>
      includes values (fst (types pokemon)) || includes values (snd (types pokemon))
  | FDex lo hi => (lo <=? dex pokemon) && (dex pokemon <=? hi)
  | FTag values => existsb (hasTag pokemon) values
  | FId values includeShadows =>
      includes values
        (if negb isInclude || includeShadows
         then removeFirst "_xs" (removeFirst "_shadow" (speciesId pokemon))
         else speciesId pokemon)
      || includes values (speciesId pokemon)
  | FMove values => existsb (knowsMove pokemon) values
  | FOther => false
  end.

Definition isIdRule (filter : Filter) : bool :=
  match kind filter with
  | FId _ _ => true
  | _ => false
  end.

(** An include rule is satisfied: it does not apply to the league, or the
    contestant meets it. *)
Definition satisfies (pokemon : Pokemon) (cp : Z) (filter : Filter) : bool :=
  negb (Filters.appliesTo filter cp) || ruleMatches true pokemon filter.

(** An exclude rule strikes: it applies to the league and the contestant
    meets it. *)
Definition excludedBy (pokemon : Pokemon) (cp : Z) (filter : Filter) : bool :=
  Filters.appliesTo filter cp && ruleMatches false pokemon filter.

(** The number of rules that pass [keep]. *)
Definition tally (keep : Filter -> bool) (l : list Filter) : Z :=
  Z.of_nat (List.length (filter keep l)).

End FilterSpec.

(** ** Key matchups, move usage and consistency *)

(** A stable sort, descending by [key]: what [Array.prototype.sort] does
    with the comparator [(a, b) => key(b) - key(a)]. *)
Fixpoint insertBy {A : Type} (key : A -> Q) (x : A) (l : list A) : list A :=
  match l with
  | [] => [x]
  | y :: l' => if Qle_bool (key y) (key x) then x :: l else y :: insertBy key x l'
  end.

Definition sortBy {A : Type} (key : A -> Q) (l : list A) : list A :=
  fold_right (insertBy key) [] l.

(** [b] does not come before [a] in a descending order of [key]. *)
Definition descending {A : Type} (key : A -> Q) (a b : A) : Prop := (key b <= key a)%Q.

Module KeyMatchups.

(** The two loops of [setKeyMatchups]: the matches that pass [keep], in
    order, until [count] reaches [limit] ([count >= matchupCount] is tested
    after a push only). *)
Fixpoint pick (keep : Match -> bool) (limit count : nat) (ms : list Match)
    : list (string * Z) :=
  match ms with
  | [] => []
  | m :: rest =>
      if keep m
      then (opponent m, rating m)
           :: (if (limit <=? Datatypes.S count)%nat then []
               else pick keep limit (Datatypes.S count) rest)
      else pick keep limit count rest
  end.

(** [setKeyMatchups] on matches whose [score] and [opScore] are set (the
    solver sets both): [(counters, matchups)].  [None]: a score is
    [undefined], and the comparator gives [NaN]. *)
Definition setKeyMatchups (ms : list Match) : option (list (string * Z) * list (string * Z)) :=
  keyed <- collect (map (fun m => s <- score m ;; o <- opScore m ;; Some (m, s, o)) ms) ;;
  let matchupCount := Nat.min 5 (List.length ms) in
  let byOpScore := sortBy (fun x : Match * Q * Q => snd x) keyed in
  let counters :=
    sortBy (fun c : string * Z => inject_Z (- snd c))
      (pick (fun m => rating m <? 500) matchupCount 0%nat (map (fun x => fst (fst x)) byOpScore)) in
  let byScore := sortBy (fun x : Match * Q * Q => snd (fst x)) byOpScore in
  let matchups :=
    sortBy (fun c : string * Z => inject_Z (snd c))
      (pick (fun m => 500 <? rating m) matchupCount 0%nat (map (fun x => fst (fst x)) byScore)) in
  Some (counters, matchups).

End KeyMatchups.

Module MoveUsageTable.

(** [usage.find(m => m.moveId === id)]. *)
Definition findUsage (id : string) (usage : list (string * Q)) : option (string * Q) :=
  find (fun m => String.eqb (fst m) id) usage.

(** The inner loop of [aggregateMoveUsage] for one match: every move of the
    table gains the uses the match lists for it, if it lists any. *)
Definition addUsage (table : list (string * Q)) (usage : list (string * Q))
    : list (string * Q) :=
  map (fun fm => match findUsage (fst fm) usage with
                 | Some u => (fst fm, (snd fm + snd u)%Q)
                 | None => fm
                 end) table.

(** [aggregateMoveUsage] for one of the two pools ([fastMovePool] with the
    fast uses, [chargedMovePool] with the charged uses): the table starts at
    0 for every move of the pool, gains the uses of every match, and is
    sorted by uses. *)
Definition aggregate (movePool : list string) (usages : list (list (string * Q)))
    : list (string * Q) :=
  sortBy (fun fm : string * Q => snd fm)
    (fold_left addUsage usages (map (fun id => (id, 0%Q)) movePool)).

(** The uses a match lists for a move, 0 when it does not list the move. *)
Definition usesIn (id : string) (usage : list (string * Q)) : Q :=
  match findUsage id usage with
  | Some u => snd u
  | None => 0%Q
  end.

Definition aggregateMoveUsage (fastMovePool chargedMovePool : list string)
    (ms : list Match) : MoveUsage :=
  {| usageFastMoves := aggregate fastMovePool (map (fun m => usageFastMoves (moveUsage m)) ms);
     usageChargedMoves :=
       aggregate chargedMovePool (map (fun m => usageChargedMoves (moveUsage m)) ms) |}.

End MoveUsageTable.

Module Consistency.

Section Rank.

(** [Math.sqrt]. *)
Variable sqrt : Q -> Q.

(** The scores of one identity over the categories that have data. *)
Definition gather (categories : list (list Entry)) (id : string) : list Q :=
  flat_map (fun data => match Overall.findEntry id data with
                        | Some entry => [entryScore entry]
                        | None => []
                        end) categories.

(** Lines 140-146: the mean less half the standard deviation, in exact
    arithmetic.  The program's mean and variance round (for three scores of
    0.7 its value is 0.6999999999999997), so nothing is stated of the value
    itself, only of what is made of it: order, range, membership. *)
Definition consistencyScore (scores : list Q) : Q :=
  let n := inject_Z (Z.of_nat (List.length scores)) in
  let mean := (fold_left Qplus scores 0 / n)%Q in
  let variance := (fold_left (fun acc s => acc + (s - mean) * (s - mean)) scores 0 / n)%Q in
  let stdDev := sqrt variance in
  (mean - stdDev * (1 # 2))%Q.

(** The body of [for (const pokemonData of baseCategory)]; the [stdDev]
    field of the entry is left out. *)
Definition consistencyEntry (categories : list (list Entry)) (pokemonData : Entry)
    : list Entry :=
  let scores := gather categories (entrySpeciesId pokemonData) in
  if (List.length scores <? 2)%nat then []
  else
    [{| entrySpeciesId := entrySpeciesId pokemonData;
        entrySpeciesName := entrySpeciesName pokemonData;
        entryRating := jsRound (consistencyScore scores * 10);
        entryScore := Qmax 0 (consistencyScore scores);
        entryMoveset := entryMoveset pokemonData;
        entryScores := scores |}].

(** [rankConsistency] on [Object.values(categoryData)]: [None] is the
    [null] returned when there is no category. *)
Definition rankConsistency (categories : list (list Entry)) : option (list Entry) :=
  match categories with
  | [] => None
  | baseCategory :: _ =>
      let rankings := flat_map (consistencyEntry categories) baseCategory in
      let sorted := sortDesc rankings in
      let highest := highestScore sorted in
      Some (map (fun e => withScore e (Overall.scaleRound highest (entryScore e))) sorted)
  end.

End Rank.

End Consistency.

(** ** Roster builder: [initPokemonList] *)

Module Roster.

(** The slot of [selectMove]: ['fast'], or ['charged'] with its index. *)
Inductive MoveSlot : Type :=
| FastSlot
| ChargedSlot (index : nat).

(** An entry of the moveset overrides; [ovWeight] is [None] when [weight]
    is [undefined]. *)
Record Override : Type := {
  ovSpeciesId : string;
  ovFastMove : option string;
  ovChargedMoves : option (list string);
  ovWeight : option Q
}.

Record OverrideGroup : Type := {
  ogLeague : Z;
  ogCup : string;
  ogPokemon : list Override
}.

(** An entry of the ranking data read for the movesets: [rdMoves] holds the
    fast and the charged moves with their uses, when the entry has
    [moves]. *)
Record RankingDatum : Type := {
  rdSpeciesId : string;
  rdScore : Q;
  rdMoves : option (list (string * Q) * list (string * Q))
}.

Record Cup : Type := {
  cupName : string;
  cupInclude : list Filter;
  cupExclude : list Filter;
  includeLowStatProduct : bool;
  filterTargets : bool
}.

Definition getMinStats (cp : Z) : Q :=
  if cp =? 500 then 0%Q
  else if cp =? 1500 then 1370%Q
  else if cp =? 2500 then 2800%Q
  else 4900%Q.

Definition getBannedList : list string :=
  ["mewtwo"; "mewtwo_armored"; "giratina_altered"; "groudon"; "kyogre";
   "palkia"; "dialga"; "cobalion"; "terrakion"; "virizion"; "tornadus_therian";
   "landorus_therian"; "reshiram"; "zekrom"; "kyurem"; "genesect_burn";
   "xerneas"; "thundurus_therian"; "yveltal"; "meloetta_aria"; "zacian";
   "zamazenta"; "zacian_hero"; "zamazenta_hero"; "genesect_douse"; "zarude";
   "hoopa_unbound"; "genesect_shock"; "tapu_koko"; "tapu_lele"; "tapu_bulu";
   "nihilego"; "genesect_chill"; "solgaleo"; "lunala"; "keldeo_ordinary";
   "kyogre_primal"; "groudon_primal"; "zygarde_complete"; "enamorus_therian";
   "enamorus_incarnate"; "dialga_origin"; "palkia_origin"; "necrozma";
   "necrozma_dawn_wings"; "necrozma_dusk_mane"; "marshadow"; "kyurem_black";
   "kyurem_white"; "zacian_crowned_sword"; "zamazenta_crowned_shield";
   "eternatus"; "sinistcha"; "keldeo_resolute"]%string.

(** [loadOverrides]: [this.overrides] for what the game master holds for
    the league and the cup ([None]: nothing). *)
Definition loadOverrides (overrideData : option (list Override)) (league : Z)
    (cup : string) : list OverrideGroup :=
  match overrideData with
  | Some (o :: rest) => [{| ogLeague := league; ogCup := cup; ogPokemon := o :: rest |}]
  | _ => []
  end.

(** [pokemon.weightModifier = w]. *)
Definition setWeightModifier (pokemon : Pokemon) (w : Q) : Pokemon :=
  {| speciesId := speciesId pokemon;
     speciesName := speciesName pokemon;
     dex := dex pokemon;
     types := types pokemon;
     hasTag := hasTag pokemon;
     knowsMove := knowsMove pokemon;
     statsHp := statsHp pokemon;
     statsAtk := statsAtk pokemon;
     shadowAtkMult := shadowAtkMult pokemon;
     fastMove := fastMove pokemon;
     chargedMoves := chargedMoves pokemon;
     weightModifier := Some w |}.

Section Build.

(** What the contestant class gives, and the sources at hand do not hold:
    [new Pokemon(speciesId, 0, battle)] and [initialize(cp)]; the defense
    and the [released] flag, which the record above does not carry;
    [selectMove] and [autoSelectMoves].  A contestant without a
    [speciesName] has the empty name. *)
Variable construct : string -> Pokemon.
Variable initialize : Pokemon -> Z -> Pokemon.
Variable statsDef : Pokemon -> Q.
Variable released : Pokemon -> bool.
Variable selectMove : Pokemon -> MoveSlot -> string -> Pokemon.
Variable autoSelectMoves : Pokemon -> Pokemon.

(** Lines 293-306: one override entry applied. *)
Definition applyOverride (pokemon : Pokemon) (o : Override) : Pokemon :=
  let p1 :=
    match ovFastMove o with
    | Some id => if String.eqb id "" then pokemon else selectMove pokemon FastSlot id
    | None => pokemon
    end in
  let p2 :=
    match ovChargedMoves o with
    | Some ids =>
        let p := foldi (fun p j id => selectMove p (ChargedSlot j) id) ids 0%nat p1 in
        if (List.length ids <? 2)%nat then selectMove p (ChargedSlot 1) "none" else p
    | None => p1
    end in
  match ovWeight o with
  | Some w => setWeightModifier p2 w
  | None => p2
  end.

(** [applyOverrides]: the first group for the league and the cup is the only
    one read, and in it the first entry for the identity. *)
Definition applyOverrides (overrides : list OverrideGroup) (pokemon : Pokemon)
    (league : Z) (cup : string) : Pokemon :=
  match find (fun g => (ogLeague g =? league) && String.eqb (ogCup g) cup) overrides with
  | Some g =>
      match find (fun o => String.eqb (ovSpeciesId o) (speciesId pokemon)) (ogPokemon g) with
      | Some o => applyOverride pokemon o
      | None => pokemon
      end
  | None => pokemon
  end.

(** Lines 141-162: the moveset and the weight read from the ranking data,
    or the automatic moveset.  [None]: the entry has [moves] with no fast or
    no charged move ([fastMoves[0]] is [undefined]). *)
Definition seedMoves (rankingData : option (list RankingDatum)) (pokemon : Pokemon)
    : option Pokemon :=
  match rankingData with
  | Some data =>
      match find (fun r => String.eqb (rdSpeciesId r) (speciesId pokemon)) data with
      | Some rankEntry =>
          match rdMoves rankEntry with
          | Some (fast, charged) =>
              let fastMoves := sortBy (fun m : string * Q => snd m) fast in
              let chargedMoves := sortBy (fun m : string * Q => snd m) charged in
              f0 <- nth_error fastMoves 0 ;;
              c0 <- nth_error chargedMoves 0 ;;
              let p1 := selectMove pokemon FastSlot (fst f0) in
              let p2 := selectMove p1 (ChargedSlot 0) (fst c0) in
              let p3 :=
                match nth_error chargedMoves 1 with
                | Some c1 => selectMove p2 (ChargedSlot 1) (fst c1)
                | None => p2
                end in
              Some (setWeightModifier p3 (rdScore rankEntry / 100)%Q)
          | None => Some (autoSelectMoves pokemon)
          end
      | None => Some (autoSelectMoves pokemon)
      end
  | None => Some (autoSelectMoves pokemon)
  end.

(** The stat product of line 118. *)
Definition statProduct (pokemon : Pokemon) : Q :=
  (inject_Z (statsHp pokemon) * statsAtk pokemon * statsDef pokemon / 1000)%Q.

(** The tests of lines 114-137 in one: what an entry of the master data has
    to pass for its moves to be looked at. *)
Definition admitted (cp : Z) (cup : Cup) (dataId : string) : bool :=
  let pokemon := initialize (construct dataId) cp in
  let stats := statProduct pokemon in
  negb (String.eqb (speciesName (construct dataId)) "")
  && negb (Qltb stats (getMinStats cp) && negb (includeLowStatProduct cup)
           && negb ((cp =? 1500) && hasTag pokemon "include1500")
           && negb ((cp =? 2500) && hasTag pokemon "include2500")
           && negb ((cp =? 10000) && hasTag pokemon "include10000")
           && negb (hasTag pokemon "mega"))
  && released pokemon
  && negb ((cp <? 2500) && includes getBannedList (speciesId pokemon))
  && Filters.checkFilters pokemon (cupInclude cup) (cupExclude cup) cp.

(** The body of [for (const pokeData of this.gm.data.pokemon)]; the state is
    [(pokemonList, targets)]. *)
Definition rosterStep (cp : Z) (cup : Cup) (rankingData : option (list RankingDatum))
    (overrides : list OverrideGroup) (st : option (list Pokemon * list Pokemon))
    (dataId : string) : option (list Pokemon * list Pokemon) :=
  '(pokemonList, targets) <- st ;;
  let created := construct dataId in
  if String.eqb (speciesName created) "" then Some (pokemonList, targets)
  else
    let pokemon := initialize created cp in
    let stats := (inject_Z (statsHp pokemon) * statsAtk pokemon * statsDef pokemon / 1000)%Q in
    if Qltb stats (getMinStats cp) && negb (includeLowStatProduct cup)
       && (negb ((cp =? 1500) && hasTag pokemon "include1500")
           && negb ((cp =? 2500) && hasTag pokemon "include2500")
           && negb ((cp =? 10000) && hasTag pokemon "include10000")
           && negb (hasTag pokemon "mega"))
    then Some (pokemonList, targets)
    else if negb (released pokemon) then Some (pokemonList, targets)
    else if (cp <? 2500) && includes getBannedList (speciesId pokemon)
    then Some (pokemonList, targets)
    else if Filters.checkFilters pokemon (cupInclude cup) (cupExclude cup) cp then
      seeded <- seedMoves rankingData pokemon ;;
      let final := applyOverrides overrides seeded cp (cupName cup) in
      let targets' :=
        if filterTargets cup then
          match weightModifier final with
          | Some w => if Qltb 1 w then targets ++ [final] else targets
          | None => targets
          end
        else targets ++ [final] in
      Some (pokemonList ++ [final], targets')
    else Some (pokemonList, targets).

(** [initPokemonList]: [(this.pokemonList, this.targets)]. *)
Definition initPokemonList (cp : Z) (cup : Cup) (rankingData : option (list RankingDatum))
    (overrides : list OverrideGroup) (data : list string)
    : option (list Pokemon * list Pokemon) :=
  fold_left (rosterStep cp cup rankingData overrides) data (Some ([], [])).

(** A contestant as it enters the pool: seeded, then overridden. *)
Definition configure (cp : Z) (cup : Cup) (rankingData : option (list RankingDatum))
    (overrides : list OverrideGroup) (pokemon : Pokemon) : option Pokemon :=
  seeded <- seedMoves rankingData pokemon ;;
  Some (applyOverrides overrides seeded cp (cupName cup)).

(** A contestant is a target: always, or with a weight modifier over 1 in a
    cup that filters its targets. *)
Definition isTarget (cup : Cup) (pokemon : Pokemon) : bool :=
  negb (filterTargets cup)
  || match weightModifier pokemon with
     | Some w => Qltb 1 w
     | None => false
     end.

End Build.

End Roster.

(** * Sample inputs *)

(** A shadow contestant, of a type the include list does not ask for and
    with a tag the exclude list bans, named by an [id] rule. *)
Definition sampleMove (id : string) : Move :=
  {| moveId := id; power := 3; moveEnergy := 0; energyGain := 3; cooldown := 500; stab := None |}.

Definition sampleCharged (id : string) (cost : Z) : Move :=
  {| moveId := id; power := 90; moveEnergy := cost; energyGain := 0; cooldown := 500; stab := None |}.

Definition samplePokemon (id : string) (hp : Z) (wm : option Q) : Pokemon :=
  {| speciesId := id;
     speciesName := id;
     dex := 150;
     types := ("psychic", "none")%string;
     hasTag := fun t => String.eqb t "legendary";
     knowsMove := fun _ => false;
     statsHp := hp;
     statsAtk := 120;
     shadowAtkMult := None;
     fastMove := sampleMove "confusion";
     chargedMoves := [sampleCharged "psystrike" 45];
     weightModifier := wm |}.

Definition sampleInclude : list Filter :=
  [ {| kind := FType ["fire"; "water"]%string; leagues := None |};
    {| kind := FId ["mewtwo"]%string true; leagues := Some [1500; 2500] |} ].

Definition sampleExclude : list Filter :=
  [ {| kind := FTag ["legendary"]%string; leagues := None |} ].

Definition emptyUsage : MoveUsage := {| usageFastMoves := []; usageChargedMoves := [] |}.

(** A resolver stub: the side with more hit points keeps them all and its
    shields, the other side is left with a fifth of its own and no shield;
    equal sides both faint. *)
Definition sampleResolver : Resolver :=
  fun p o s0 s1 _ _ =>
    if statsHp p =? statsHp o then
      {| hp0 := 0; hp1 := 0; shields0 := 0; shields1 := 0;
         usage0 := emptyUsage; usage1 := emptyUsage |}
    else if statsHp o <? statsHp p then
      {| hp0 := statsHp p; hp1 := statsHp o / 5; shields0 := s0; shields1 := 0;
         usage0 := emptyUsage; usage1 := emptyUsage |}
    else
      {| hp0 := statsHp p / 5; hp1 := statsHp o; shields0 := 0; shields1 := s1;
         usage0 := emptyUsage; usage1 := emptyUsage |}.


Definition leads : Scenario :=
  {| slug := "leads"; shields := (1, 1); energy := (0, 0) |}.

Definition closers : Scenario :=
  {| slug := "closers"; shields := (0, 0); energy := (0, 0) |}.

Definition switches : Scenario :=
  {| slug := "switches"; shields := (1, 1); energy := (6, 0) |}.

Definition trio : list Pokemon :=
  [samplePokemon "a" 150 (Some 1%Q); samplePokemon "b" 120 (Some 1%Q);
   samplePokemon "c" 100 (Some 1%Q)].

(** A resolver stub read off a table of final hit points, by identity; no
    shield is spent. *)
Definition tableResolver (table : string -> string -> Z * Z) : Resolver :=
  fun p o s0 s1 _ _ =>
    {| hp0 := fst (table (speciesId p) (speciesId o));
       hp1 := snd (table (speciesId p) (speciesId o));
       shields0 := s0; shields1 := s1;
       usage0 := emptyUsage; usage1 := emptyUsage |}.

(** A cup that filters its targets: [b] and [c] have a weight modifier over
    1 and are targets, [a] is a candidate only. *)
Definition pool : list Pokemon :=
  [samplePokemon "b" 100 (Some 2%Q); samplePokemon "c" 100 (Some (3 # 2)%Q);
   samplePokemon "a" 100 (Some (1 # 2)%Q)].

(** A stand-in for [Math.pow] where a closed term needs one. *)
Definition samplePow : Q -> Q -> Q := fun b _ => b.

(** A scored match against [id]. *)
Definition sampleMatch (id : string) (r : Z) (s o : Q) : Match :=
  {| opponent := id; rating := r; adjRating := inject_Z r;
     opRating := 1000 - r; adjOpRating := inject_Z (1000 - r);
     moveUsage := emptyUsage; oppMoveUsage := emptyUsage;
     score := Some s; opScore := Some o |}.

(** Seven scored matches: three losses, one draw at 500, three wins. *)
Definition sampleMatches : list Match :=
  [sampleMatch "a" 300 30 70; sampleMatch "b" 650 60 20; sampleMatch "c" 500 40 40;
   sampleMatch "d" 450 35 55; sampleMatch "e" 700 80 10; sampleMatch "f" 200 10 90;
   sampleMatch "g" 510 45 44]%string.

Definition sampleEntry (id : string) (s : Q) : Entry :=
  {| entrySpeciesId := id; entrySpeciesName := id; entryRating := 0;
     entryScore := s; entryMoveset := []; entryScores := [] |}.

Definition sampleEntries : list Entry :=
  [sampleEntry "a" 30; sampleEntry "b" 60; sampleEntry "c" 45]%string.

(** Ranking data for two categories only. *)
Definition sampleRankingData (category : string) : option (list Entry) :=
  if String.eqb category "leads" then Some sampleEntries
  else if String.eqb category "closers"
       then Some [sampleEntry "b" 50; sampleEntry "a" 90]%string
       else None.

Definition sampleRankObj (id : string) (s : Z) : RankObj :=
  {| rankSpeciesId := id; rankSpeciesName := id; rankRating := s;
     matches := []; scores := [s] |}.

Definition sampleRankings : list RankObj :=
  [sampleRankObj "a" 520; sampleRankObj "b" 610; sampleRankObj "c" 480]%string.

(** Two [id] rules, neither of which names the sample contestant. *)
Definition twoIdRules : list Filter :=
  [ {| kind := FId ["abra"]%string false; leagues := None |};
    {| kind := FId ["kadabra"]%string false; leagues := None |} ].

Definition psychicOnly : list Filter :=
  [ {| kind := FType ["psychic"]%string; leagues := None |} ].

(** A stand-in for the contestant class: every entry of the master data is
    a released psychic with 120 hit points and attack; the defense of
    ["weak"] is 10, of the others 100. *)
Definition sampleConstruct (id : string) : Pokemon := samplePokemon id 120 None.
Definition sampleInitialize (p : Pokemon) (cp : Z) : Pokemon := p.
Definition sampleDef (p : Pokemon) : Q :=
  if String.eqb (speciesId p) "weak" then 10%Q else 100%Q.
Definition sampleReleased (p : Pokemon) : bool := true.
Definition sampleSelectMove (p : Pokemon) (slot : Roster.MoveSlot) (id : string) : Pokemon := p.
Definition sampleAutoSelect (p : Pokemon) : Pokemon := p.

(** A cup with no rule that filters its targets. *)
Definition sampleCup : Roster.Cup :=
  {| Roster.cupName := "sample"; Roster.cupInclude := []; Roster.cupExclude := [];
     Roster.includeLowStatProduct := false; Roster.filterTargets := true |}.

(** Ranking data that gives ["a"] a weight over 1 and ["b"] one under 1. *)
Definition sampleRankingMoves : list Roster.RankingDatum :=
  [ {| Roster.rdSpeciesId := "a"; Roster.rdScore := 150;
       Roster.rdMoves := Some ([("confusion", 10%Q)], [("psystrike", 4%Q); ("shadow_ball", 6%Q)]) |};
    {| Roster.rdSpeciesId := "b"; Roster.rdScore := 80; Roster.rdMoves := None |} ]%string.

Definition sampleRoster (data : list string) : option (list Pokemon * list Pokemon) :=
  Roster.initPokemonList sampleConstruct sampleInitialize sampleDef sampleReleased
    sampleSelectMove sampleAutoSelect 1500 sampleCup (Some sampleRankingMoves) [] data.

(** A resolver stub: the candidate ends with 36 hit points, the target has
    fainted. *)
Definition faintResolver : Resolver :=
  fun p o s0 s1 _ _ =>
    {| hp0 := 36; hp1 := 0; shields0 := s0; shields1 := s1;
       usage0 := emptyUsage; usage1 := emptyUsage |}.

Definition duo : list Pokemon :=
  [samplePokemon "c" 100 (Some 1%Q); samplePokemon "b" 120 (Some 1%Q)].

(** The candidate ends with 96 hit points, the target with 39. *)
Definition unevenTable (p o : string) : Z * Z := (96, 39).

(** Three contestants of 100 hit points, two of them targets, with weight
    modifiers 0.4 and 0.452. *)
Definition weightedPool : list Pokemon :=
  [samplePokemon "x" 100 (Some (4 # 10)); samplePokemon "y" 100 (Some (452 # 1000));
   samplePokemon "z" 100 (Some 1%Q)].

Definition weightedTargets : list Pokemon :=
  [samplePokemon "x" 100 (Some (4 # 10)); samplePokemon "y" 100 (Some (452 # 1000))].

(** The candidate ends with 10 hit points, the target with 50. *)
Definition tenFifty (p o : string) : Z * Z := (10, 50).

(** A stand-in for [Math.pow]. *)
Definition samplePow64 : float -> float -> float := fun x _ => x.

Definition weightedRankings : list Orchestrator64.RankObj :=
  fst (Orchestrator64.simulateAll (tableResolver tenFifty) closers weightedPool weightedTargets).

(** * Properties *)

(** ** Eligibility rules *)

Section FilterFacts.

Import Filters.

Variable pokemon : Pokemon.
Variable cp : Z.

Lemma filterStep_required (isInclude : bool) (len : Z) (st : Counters) (f : Filter) :
  requiredFilters (filterStep pokemon cp isInclude len st f) <= requiredFilters st.
Proof.
  unfold filterStep.
  destruct (leagues f) as [ls|]; [destruct (negb (includesZ ls cp))|]; simpl; try lia;
    destruct (kind f); simpl;
    repeat match goal with
           | |- context [if ?b then _ else _] => destruct b; simpl
           end; lia.
Qed.

Lemma filterStep_matched (isInclude : bool) (len : Z) (st : Counters) (f : Filter) :
  0 <= len ->
  filtersMatched st <= filtersMatched (filterStep pokemon cp isInclude len st f).
Proof.
  intros Hlen. unfold filterStep.
  destruct (leagues f) as [ls|]; [destruct (negb (includesZ ls cp))|]; simpl; try lia;
    destruct (kind f); simpl;
    repeat match goal with
           | |- context [if ?b then _ else _] => destruct b; simpl
           end; lia.
Qed.

Lemma filterStep_flag (isInclude : bool) (len : Z) (st : Counters) (f : Filter) :
  includeIdFilter st = true ->
  includeIdFilter (filterStep pokemon cp isInclude len st f) = true.
Proof.
  intros Hflag. unfold filterStep.
  destruct (leagues f) as [ls|]; [destruct (negb (includesZ ls cp))|]; simpl; auto;
    destruct (kind f); simpl;
    repeat match goal with
           | |- context [if ?b then _ else _] => destruct b; simpl
           end; auto.
Qed.

(** A matching [id] rule of an include list adds the whole length and sets
    the flag. *)
Lemma filterStep_idMatch (len : Z) (st : Counters) (f : Filter) :
  idMatch pokemon cp f = true ->
  filtersMatched (filterStep pokemon cp true len st f) = filtersMatched st + len
  /\ includeIdFilter (filterStep pokemon cp true len st f) = true.
Proof.
  unfold idMatch, appliesTo, filterStep. intros H.
  apply andb_true_iff in H. destruct H as [Hl Hk].
  destruct (leagues f) as [ls|]; [rewrite Hl|]; simpl;
    (destruct (kind f); try discriminate; simpl in *;
     destruct includeShadows; simpl in *; rewrite Hk; simpl; auto).
Qed.

Lemma fold_filterStep_required (isInclude : bool) (len : Z) (l : list Filter) (st : Counters) :
  requiredFilters (fold_left (filterStep pokemon cp isInclude len) l st) <= requiredFilters st.
Proof.
  revert st. induction l as [|f l IH]; intros st; simpl; [lia|].
  specialize (IH (filterStep pokemon cp isInclude len st f)).
  pose proof (filterStep_required isInclude len st f). lia.
Qed.

Lemma fold_filterStep_matched (isInclude : bool) (len : Z) (l : list Filter) (st : Counters) :
  0 <= len ->
  filtersMatched st <= filtersMatched (fold_left (filterStep pokemon cp isInclude len) l st).
Proof.
  intros Hlen. revert st. induction l as [|f l IH]; intros st; simpl; [lia|].
  specialize (IH (filterStep pokemon cp isInclude len st f)).
  pose proof (filterStep_matched isInclude len st f Hlen). lia.
Qed.

Lemma fold_filterStep_flag (isInclude : bool) (len : Z) (l : list Filter) (st : Counters) :
  includeIdFilter st = true ->
  includeIdFilter (fold_left (filterStep pokemon cp isInclude len) l st) = true.
Proof.
  revert st. induction l as [|f l IH]; intros st Hst; simpl; auto.
  apply IH. now apply filterStep_flag.
Qed.

(** The counters after an include list that holds a matching [id] rule. *)
Lemma include_pass_idMatch (len : Z) (l : list Filter) (f : Filter) (st : Counters) :
  0 <= len -> In f l -> idMatch pokemon cp f = true ->
  let c := fold_left (filterStep pokemon cp true len) l st in
  filtersMatched st + len <= filtersMatched c /\ includeIdFilter c = true.
Proof.
  intros Hlen Hin Hm. apply in_split in Hin. destruct Hin as (l1 & l2 & ->).
  cbv zeta. rewrite fold_left_app. simpl.
  set (st1 := fold_left (filterStep pokemon cp true len) l1 st).
  destruct (filterStep_idMatch len st1 f Hm) as [Hcount Hflag].
  split.
  - pose proof (fold_filterStep_matched true len l1 st Hlen).
    pose proof (fold_filterStep_matched true len l2 (filterStep pokemon cp true len st1 f) Hlen).
    fold st1 in H. lia.
  - now apply fold_filterStep_flag.
Qed.

(** C9.  A contestant that an [id] rule of the include list names (the rule
    applying to the league) is allowed whatever the other include rules say,
    in particular when the list has more than one rule and the contestant
    satisfies none of the others, and whatever the exclude list matches: the
    identity flag set by the match keeps every exclude match from taking the
    contestant out. *)
Theorem id_rule_short_circuit (include exclude : list Filter) (f : Filter) :
  In f include ->
  idMatch pokemon cp f = true ->
  checkFilters pokemon include exclude cp = true.
Proof.
  intros Hin Hm. unfold checkFilters. simpl.
  set (len := Z.of_nat (List.length include)).
  assert (Hlen : 0 <= len) by (unfold len; lia).
  pose proof (include_pass_idMatch len include f
                {| filtersMatched := 0; requiredFilters := len; includeIdFilter := false |}
                Hlen Hin Hm) as Hpass.
  cbv zeta in Hpass. simpl in Hpass. destruct Hpass as [Hcount Hflag].
  pose proof (fold_filterStep_required true len include
                {| filtersMatched := 0; requiredFilters := len; includeIdFilter := false |}) as Hreq.
  simpl in Hreq.
  set (c := fold_left (filterStep pokemon cp true len) include _) in *.
  assert (Hle : (requiredFilters c <=? filtersMatched c) = true) by (apply Z.leb_le; lia).
  rewrite Hle, Hflag.
  set (d := fold_left _ exclude _).
  assert (Hd : includeIdFilter d = true) by (apply fold_filterStep_flag; reflexivity).
  rewrite Hd. simpl. now rewrite andb_false_r.
Qed.

End FilterFacts.

Lemma id_rule_short_circuit_witness :
  Filters.checkFilters (samplePokemon "mewtwo_shadow" 120 None) sampleInclude sampleExclude 1500 = true.
Proof.
  apply (id_rule_short_circuit (samplePokemon "mewtwo_shadow" 120 None) 1500
           sampleInclude sampleExclude
           {| kind := FId ["mewtwo"]%string true; leagues := Some [1500; 2500] |}).
  - simpl. right. left. reflexivity.
  - reflexivity.
Defined.

(** ** Indexed maps and sums *)

Lemma imap_length {A B : Type} (f : nat -> A -> B) (l : list A) (k : nat) :
  List.length (imap f l k) = List.length l.
Proof. revert k. induction l; intros k; simpl; auto. Qed.

Lemma nth_error_imap {A B : Type} (f : nat -> A -> B) (l : list A) (k n : nat) :
  nth_error (imap f l k) n = option_map (f (k + n)%nat) (nth_error l n).
Proof.
  revert k n. induction l as [|x l IH]; intros k n; simpl.
  - destruct n; reflexivity.
  - destruct n; simpl.
    + now rewrite Nat.add_0_r.
    + rewrite IH. now replace (Datatypes.S k + n)%nat with (k + Datatypes.S n)%nat by lia.
Qed.

Lemma imap_ext_in {A B : Type} (f g : nat -> A -> B) (l : list A) (k : nat) :
  (forall n x, nth_error l n = Some x -> f (k + n)%nat x = g (k + n)%nat x) ->
  imap f l k = imap g l k.
Proof.
  revert k. induction l as [|x l IH]; intros k H; simpl; auto.
  f_equal.
  - specialize (H 0%nat x eq_refl). now rewrite Nat.add_0_r in H.
  - apply IH. intros n y Hn. specialize (H (Datatypes.S n) y Hn).
    now replace (Datatypes.S k + n)%nat with (k + Datatypes.S n)%nat by lia.
Qed.

Lemma imap_app {A B : Type} (f : nat -> A -> B) (l1 l2 : list A) (k : nat) :
  imap f (l1 ++ l2) k = imap f l1 k ++ imap f l2 (k + List.length l1)%nat.
Proof.
  revert k. induction l1 as [|x l1 IH]; intros k; simpl.
  - now rewrite Nat.add_0_r.
  - rewrite IH. now replace (Datatypes.S k + List.length l1)%nat
      with (k + Datatypes.S (List.length l1))%nat by lia.
Qed.

Lemma nth_error_nth_eq {A : Type} (l : list A) (n : nat) (x d : A) :
  nth_error l n = Some x -> nth n l d = x.
Proof. intros H. now apply nth_error_nth. Qed.

(** ** Raw ratings in exact arithmetic *)


Lemma inject_Z_nonzero (z : Z) : z <> 0 -> ~ (inject_Z z == 0)%Q.
Proof. intros Hz Hq. apply Hz. unfold Qeq in Hq. simpl in Hq. lia. Qed.



(** ** The simulation loop *)

Section OrchestratorFacts.

Import Orchestrator Pairings.

Variable simulate : Resolver.
Variable scenario : Scenario.
Variables pokemonList targets : list Pokemon.

Local Abbreviation lookupOK := (lookupOK simulate scenario pokemonList targets).
Local Abbreviation cell := (cell simulate scenario pokemonList targets).
Local Abbreviation reuses := (reuses scenario pokemonList targets).
Local Abbreviation fresh := (fresh simulate scenario).
Local Abbreviation sym := (symmetric scenario pokemonList targets).

Lemma pairStep_cell (rankings : list RankObj) (i : nat) (p : Pokemon) (st : Inner)
    (n : nat) (o : Pokemon) :
  lookupOK rankings i p -> nth_error targets n = Some o ->
  let st' := pairStep simulate scenario pokemonList targets rankings i p st n o in
  accMatches st' = accMatches st ++ [cell i p n o]
  /\ accAvg st' = (if isMirror p o then accAvg st else accAvg st + adjRating (cell i p n o))%Q
  /\ accBattles st' = (accBattles st + if reuses i n then 0 else 1)%nat.
Proof.
  intros Hlook Hn. cbv zeta. unfold pairStep. rewrite (Hlook n o Hn).
  unfold Pairings.cell, isMirror. destruct (reuses i n); simpl.
  - repeat split; auto.
  - repeat split; auto. lia.
Qed.

Lemma foldi_pairStep (rankings : list RankObj) (i : nat) (p : Pokemon) :
  lookupOK rankings i p ->
  forall (suffix : list Pokemon) (k : nat) (st : Inner),
    (forall n o, nth_error suffix n = Some o -> nth_error targets (k + n) = Some o) ->
    let st' := foldi (pairStep simulate scenario pokemonList targets rankings i p) suffix k st in
    accMatches st' = accMatches st ++ imap (cell i p) suffix k
    /\ (accAvg st' ==
        accAvg st + Qsum (imap (fun n o => if isMirror p o then 0 else adjRating (cell i p n o)) suffix k))%Q
    /\ accBattles st'
       = (accBattles st
          + list_sum (imap (fun n (_ : Pokemon) => if reuses i n then 0 else 1) suffix k))%nat.
Proof.
  intros Hlook. induction suffix as [|o suffix IH]; intros k st Hsuf; cbv zeta; simpl.
  - rewrite app_nil_r. repeat split; auto. unfold Qsum; simpl. ring.
  - assert (Ho : nth_error targets k = Some o).
    { specialize (Hsuf 0%nat o eq_refl). now rewrite Nat.add_0_r in Hsuf. }
    destruct (pairStep_cell rankings i p st k o Hlook Ho) as (Hm & Ha & Hb).
    cbv zeta in Hm, Ha, Hb.
    set (st1 := pairStep simulate scenario pokemonList targets rankings i p st k o) in *.
    assert (Hsuf' : forall n o', nth_error suffix n = Some o' ->
                                 nth_error targets (Datatypes.S k + n) = Some o').
    { intros n o' Hn. specialize (Hsuf (Datatypes.S n) o' Hn).
      now replace (Datatypes.S k + n)%nat with (k + Datatypes.S n)%nat by lia. }
    destruct (IH (Datatypes.S k) st1 Hsuf') as (Hm' & Ha' & Hb'). cbv zeta in Hm', Ha', Hb'.
    rewrite Hm', Hm, Hb', Hb, <- app_assoc. simpl. repeat split; auto.
    + rewrite Ha', Ha. unfold Qsum. simpl. destruct (isMirror p o); ring.
    + lia.
Qed.


Lemma lookup_from_table (prefix rest : list Pokemon) (p : Pokemon) :
  pokemonList = prefix ++ p :: rest ->
  lookupOK (imap (rankObjOf simulate scenario pokemonList targets) prefix 0)
           (List.length prefix) p.
Proof.
  intros Hlist n o Hn. unfold Pairings.reuses.
  destruct sym eqn:Hsym; simpl; [|reflexivity].
  unfold mirrored. rewrite nth_error_imap. simpl.
  destruct (Nat.ltb_spec n (List.length prefix)) as [Hlt|Hge].
  - destruct (nth_error prefix n) as [pn|] eqn:Hpn.
    2:{ apply nth_error_None in Hpn. lia. }
    simpl. unfold row. rewrite nth_error_imap. simpl.
    assert (HT : (List.length prefix < List.length targets)%nat).
    { unfold symmetric in Hsym. apply andb_true_iff in Hsym. destruct Hsym as [Hsym _].
      apply andb_true_iff in Hsym. destruct Hsym as [Hsym _].
      apply Nat.eqb_eq in Hsym. rewrite <- Hsym, Hlist, length_app. simpl. lia. }
    destruct (nth_error targets (List.length prefix)) as [ti|] eqn:Hti.
    2:{ apply nth_error_None in Hti. lia. }
    simpl. unfold Pairings.cell, Pairings.reuses.
    replace (List.length prefix <? n)%nat with false by (symmetry; apply Nat.ltb_ge; lia).
    rewrite andb_false_r.
    rewrite (nth_error_nth_eq _ _ _ o Hti).
    assert (Hp : nth n pokemonList p = pn).
    { rewrite Hlist, app_nth1 by lia. now apply nth_error_nth_eq. }
    now rewrite Hp.
  - replace (nth_error prefix n) with (@None Pokemon); [reflexivity|].
    symmetry. now apply nth_error_None.
Qed.

Lemma candidateStep_table (prefix rest : list Pokemon) (p : Pokemon) (b : nat) :
  pokemonList = prefix ++ p :: rest ->
  candidateStep simulate scenario pokemonList targets
    (imap (rankObjOf simulate scenario pokemonList targets) prefix 0, b)
    (List.length prefix) p
  = (imap (rankObjOf simulate scenario pokemonList targets) (prefix ++ [p]) 0,
     (b + rowBattles scenario pokemonList targets (List.length prefix))%nat).
Proof.
  intros Hlist. unfold candidateStep.
  pose proof (foldi_pairStep _ _ _ (lookup_from_table prefix rest p Hlist) targets 0%nat
                {| accMatches := []; accAvg := 0; accBattles := b |}
                (fun n o H => H)) as H.
  cbv zeta in H. simpl in H.
  set (inner := foldi _ targets 0%nat _) in *.
  destruct H as (Hm & Ha & Hb).
  assert (Havg : Qfloor (accAvg inner / inject_Z (jsOrZ (Z.of_nat (List.length targets) - 1) 1))
                 = initialAverage simulate scenario pokemonList targets (List.length prefix) p).
  { unfold initialAverage, contributions. apply Qfloor_comp. rewrite Ha.
    now rewrite Qplus_0_l. }
  rewrite Havg, Hm, Hb, imap_app. reflexivity.
Qed.

Lemma foldi_candidateStep (suffix prefix : list Pokemon) (b : nat) :
  pokemonList = prefix ++ suffix ->
  foldi (candidateStep simulate scenario pokemonList targets) suffix (List.length prefix)
    (imap (rankObjOf simulate scenario pokemonList targets) prefix 0, b)
  = (imap (rankObjOf simulate scenario pokemonList targets) pokemonList 0,
     (b + list_sum (imap (fun i (_ : Pokemon) => rowBattles scenario pokemonList targets i)
                      suffix (List.length prefix)))%nat).
Proof.
  revert prefix b. induction suffix as [|p suffix IH]; intros prefix b Hlist.
  - simpl. rewrite app_nil_r in Hlist. subst prefix. f_equal. lia.
  - cbn [foldi imap].
    rewrite (candidateStep_table prefix suffix p b Hlist).
    specialize (IH (prefix ++ [p])).
    rewrite length_app in IH. simpl in IH.
    replace (List.length prefix + 1)%nat with (Datatypes.S (List.length prefix)) in IH by lia.
    rewrite IH.
    + f_equal. unfold list_sum. simpl. lia.
    + now rewrite <- app_assoc.
Qed.

(** The simulation loop computes the table of pairings, and counts one
    resolver call for each pairing that is not reused. *)
Lemma simulateAll_table :
  simulateAll simulate scenario pokemonList targets
  = (imap (rankObjOf simulate scenario pokemonList targets) pokemonList 0,
     totalBattles scenario pokemonList targets).
Proof.
  unfold simulateAll.
  exact (foldi_candidateStep pokemonList [] 0%nat eq_refl).
Qed.


(** *** Resolver calls in a symmetric scenario *)

Lemma count_not_before (i : nat) (l : list Pokemon) (k : nat) :
  list_sum (imap (fun n (_ : Pokemon) => if (n <? i)%nat then 0%nat else 1%nat) l k)
  = (List.length l - (i - k))%nat.
Proof.
  revert k. induction l as [|x l IH]; intros k; [simpl; lia|].
  cbn [imap List.length]. change (list_sum (?a :: ?l)) with (a + list_sum l)%nat.
  rewrite IH. destruct (Nat.ltb_spec k i); lia.
Qed.

Lemma rowBattles_symmetric (i : nat) :
  sym = true ->
  rowBattles scenario pokemonList targets i = (List.length targets - i)%nat.
Proof.
  intros Hsym. unfold rowBattles, Pairings.reuses. rewrite Hsym. simpl.
  rewrite count_not_before. lia.
Qed.

Lemma sum_descending (len : nat) (l : list Pokemon) (k : nat) :
  (k + List.length l = len)%nat ->
  (2 * list_sum (imap (fun i (_ : Pokemon) => len - i) l k)
   = List.length l * (List.length l + 1))%nat.
Proof.
  revert k. induction l as [|x l IH]; intros k Hk; [simpl; lia|].
  cbn [imap List.length] in *. change (list_sum (?a :: ?l)) with (a + list_sum l)%nat.
  specialize (IH (Datatypes.S k)). nia.
Qed.

Lemma totalBattles_symmetric :
  sym = true ->
  (2 * totalBattles scenario pokemonList targets
   = List.length pokemonList * (List.length pokemonList + 1))%nat.
Proof.
  intros Hsym. unfold totalBattles.
  assert (Hlen : List.length pokemonList = List.length targets).
  { unfold symmetric in Hsym. apply andb_true_iff in Hsym. destruct Hsym as [Hsym _].
    apply andb_true_iff in Hsym. destruct Hsym as [Hsym _]. now apply Nat.eqb_eq in Hsym. }
  rewrite (imap_ext_in _ (fun i (_ : Pokemon) => (List.length pokemonList - i)%nat)).
  - apply sum_descending. lia.
  - intros n x _. rewrite rowBattles_symmetric by assumption. lia.
Qed.

(** The record of pairing [(i, n)] in the table. *)
Lemma table_lookup (i n : nat) (p o : Pokemon) :
  nth_error pokemonList i = Some p -> nth_error targets n = Some o ->
  exists r, nth_error (fst (simulateAll simulate scenario pokemonList targets)) i = Some r
            /\ rankRating r = initialAverage simulate scenario pokemonList targets i p
            /\ scores r = [initialAverage simulate scenario pokemonList targets i p]
            /\ List.length (matches r) = List.length targets
            /\ nth_error (matches r) n = Some (cell i p n o).
Proof.
  intros Hp Ho. rewrite simulateAll_table. simpl.
  exists (rankObjOf simulate scenario pokemonList targets i p).
  rewrite nth_error_imap, Hp. simpl. repeat split; auto.
  - unfold row. apply imap_length.
  - unfold row. rewrite nth_error_imap, Ho. reflexivity.
Qed.


(** C2.  In a symmetric scenario (equal pool sizes, equal shields, equal
    energy-turns) the resolver is called [n(n+1)/2] times for [n]
    contestants; the raw rating recorded for a pairing is the opponent's raw
    rating recorded for the mirrored pairing, and the other way round; and
    the later of the two records is the earlier one with its sides swapped,
    taken without a resolver call. *)
Theorem symmetric_pairings_reused :
  symmetric scenario pokemonList targets = true ->
  let rankings := fst (simulateAll simulate scenario pokemonList targets) in
  let battles := snd (simulateAll simulate scenario pokemonList targets) in
  (2 * battles = List.length pokemonList * (List.length pokemonList + 1))%nat
  /\ (forall i n p o,
        nth_error pokemonList i = Some p -> nth_error targets n = Some o -> i <> n ->
        exists ri rn mi mn,
          nth_error rankings i = Some ri /\ nth_error (matches ri) n = Some mi
          /\ nth_error rankings n = Some rn /\ nth_error (matches rn) i = Some mn
          /\ rating mi = opRating mn
          /\ opRating mi = rating mn
          /\ ((n < i)%nat -> mi = swapMatch o mn /\ Pairings.reuses scenario pokemonList targets i n = true)).
Proof.
  intros Hsym. cbv zeta. split.
  - rewrite simulateAll_table. simpl. now apply totalBattles_symmetric.
  - intros i n p o Hp Ho Hne.
    assert (Hlen : List.length pokemonList = List.length targets).
    { unfold symmetric in Hsym. apply andb_true_iff in Hsym. destruct Hsym as [H _].
      apply andb_true_iff in H. destruct H as [H _]. now apply Nat.eqb_eq in H. }
    assert (Hi : (i < List.length pokemonList)%nat) by (apply nth_error_Some; congruence).
    assert (Hn : (n < List.length targets)%nat) by (apply nth_error_Some; congruence).
    destruct (nth_error pokemonList n) as [pn|] eqn:Hpn.
    2:{ apply nth_error_None in Hpn. lia. }
    destruct (nth_error targets i) as [ti|] eqn:Hti.
    2:{ apply nth_error_None in Hti. lia. }
    destruct (table_lookup i n p o Hp Ho) as (ri & Hri & _ & _ & _ & Hmi).
    destruct (table_lookup n i pn ti Hpn Hti) as (rn & Hrn & _ & _ & _ & Hmn).
    exists ri, rn, (cell i p n o), (cell n pn i ti).
    repeat (split; [assumption|]).
    unfold Pairings.cell, Pairings.reuses. rewrite Hsym. simpl.
    rewrite (nth_error_nth_eq _ _ _ p Hpn), (nth_error_nth_eq _ _ _ o Hti).
    rewrite (nth_error_nth_eq _ _ _ pn Hp), (nth_error_nth_eq _ _ _ ti Ho).
    destruct (Nat.ltb_spec n i) as [Hlt|Hge].
    + replace (i <? n)%nat with false by (symmetry; apply Nat.ltb_ge; lia).
      simpl. repeat split; auto.
    + replace (i <? n)%nat with true by (symmetry; apply Nat.ltb_lt; lia).
      simpl. repeat split; auto; lia.
Qed.


End OrchestratorFacts.

(** ** The solver *)

Lemma jsOrQ_comp (x y d : Q) : (x == y)%Q -> (jsOrQ x d == jsOrQ y d)%Q.
Proof.
  intros H. unfold jsOrQ.
  destruct (Qeq_bool x 0) eqn:Ex, (Qeq_bool y 0) eqn:Ey; try reflexivity; try assumption.
  - apply Qeq_bool_iff in Ex. apply Qeq_bool_neq in Ey. exfalso. apply Ey. now rewrite <- H.
  - apply Qeq_bool_iff in Ey. apply Qeq_bool_neq in Ex. exfalso. apply Ex. now rewrite H.
Qed.

Lemma score_comp (a b c d : Q) :
  (a == b)%Q -> (c == d)%Q -> Qfloor (a / jsOrQ c 1) = Qfloor (b / jsOrQ d 1).
Proof. intros H1 H2. apply Qfloor_comp. now rewrite H1, (jsOrQ_comp c d 1 H2). Qed.

Lemma collect_cons_inv {A : Type} (x : option A) (l : list (option A)) (r : list A) :
  collect (x :: l) = Some r ->
  exists a r', x = Some a /\ collect l = Some r' /\ r = a :: r'.
Proof.
  simpl. destruct x as [a|]; simpl; [|discriminate].
  destruct (collect l) as [r'|]; simpl; [|discriminate].
  intros H. injection H as <-. now exists a, r'.
Qed.

Lemma nth_error_replaceAt_same {A : Type} (l : list A) (i : nat) (x : A) :
  (i < List.length l)%nat -> nth_error (replaceAt i x l) i = Some x.
Proof.
  revert i. induction l as [|y l IH]; intros i Hi; simpl in *; [lia|].
  destruct i; simpl; auto. apply IH. lia.
Qed.

Lemma nth_error_replaceAt_other {A : Type} (l : list A) (i j : nat) (x : A) :
  i <> j -> nth_error (replaceAt i x l) j = nth_error l j.
Proof.
  revert i j. induction l as [|y l IH]; intros i j Hij; simpl.
  - destruct i; reflexivity.
  - destruct i, j; simpl; auto; try lia.
Qed.

Lemma replaceAt_length {A : Type} (l : list A) (i : nat) (x : A) :
  List.length (replaceAt i x l) = List.length l.
Proof.
  revert i. induction l as [|y l IH]; intros i; simpl.
  - destruct i; reflexivity.
  - destruct i; simpl; auto.
Qed.

Lemma replaceAt_middle {A : Type} (l1 l2 : list A) (x y : A) :
  replaceAt (List.length l1) y (l1 ++ x :: l2) = l1 ++ y :: l2.
Proof. induction l1 as [|z l1 IH]; simpl; auto. now rewrite IH. Qed.

Lemma collect_imap {A B : Type} (f : nat -> A -> option B) (l : list A) (k : nat) :
  (forall i x, nth_error l i = Some x -> f (k + i)%nat x <> None) ->
  exists ys, collect (imap f l k) = Some ys
             /\ List.length ys = List.length l
             /\ forall i x, nth_error l i = Some x ->
                  exists y, f (k + i)%nat x = Some y /\ nth_error ys i = Some y.
Proof.
  revert k. induction l as [|a l IH]; intros k H.
  - exists []. simpl. repeat split; auto. intros [|i] x Hx; discriminate.
  - destruct (f k a) as [b|] eqn:Hb.
    2:{ exfalso. apply (H 0%nat a eq_refl). now rewrite Nat.add_0_r. }
    destruct (IH (Datatypes.S k)) as (ys & Hys & Hlen & Hnth).
    { intros i x Hx. specialize (H (Datatypes.S i) x Hx).
      now replace (Datatypes.S k + i)%nat with (k + Datatypes.S i)%nat by lia. }
    exists (b :: ys). simpl. rewrite Hb, Hys. simpl. repeat split; auto.
    intros [|i] x Hx; simpl in *.
    + injection Hx as <-. exists b. now rewrite Nat.add_0_r.
    + destruct (Hnth i x Hx) as (y & Hy & Hy'). exists y.
      now replace (k + Datatypes.S i)%nat with (Datatypes.S k + i)%nat by lia.
Qed.

Section SolverFacts.

Import Solver Scoring.

Variable pow : Q -> Q -> Q.
Variables pokemonList targets : list Pokemon.
Variable scenario : Scenario.
Variable cupName : string.
Variable battleCP : Z.

Local Abbreviation weighPairing := (weighPairing pow pokemonList targets scenario cupName battleCP).
Local Abbreviation weighMatches := (weighMatches pow pokemonList targets scenario cupName battleCP).
Local Abbreviation candidatePass := (candidatePass pow pokemonList targets scenario cupName battleCP).
Local Abbreviation passLoop := (passLoop pow pokemonList targets scenario cupName battleCP).
Local Abbreviation weightPass := (weightPass pow pokemonList targets scenario cupName battleCP).
Local Abbreviation curvedRating := (curvedRating pow).
Local Abbreviation ratingWeight := (ratingWeight pow pokemonList targets scenario).
Local Abbreviation countedWeight := (countedWeight pow pokemonList targets scenario).
Local Abbreviation passScore := (passScore pow pokemonList targets scenario).
Local Abbreviation sameRecord := (sameRecord pow).
Local Abbreviation afterPass := (afterPass pow pokemonList targets scenario cupName battleCP).

(** The body of the loop over the matches, for a best score that is not 0
    and a target that carries a weight modifier. *)
Lemma weighPairing_value (n : nat) (best : Z) (p t : Pokemon) (sj : Z) (m : Match) :
  best <> 0 -> weightModifier t <> None ->
  exists m' sc w,
    weighPairing n best p t sj m = Some (m', sc, w)
    /\ (sc == curvedRating m * ratingWeight n best p (t, sj, m))%Q
    /\ (w == countedWeight n best p (t, sj, m))%Q
    /\ sameRecord m m'.
Proof.
  intros Hbest Hwm.
  unfold Solver.weighPairing, pairingWeight, baseWeight, belowCutoff,
    Scoring.ratingWeight, Scoring.countedWeight, Scoring.ratingWeight, rankWeight, below,
    switchPenalty, modifierOf, Pairings.isMirror, Scoring.curvedRating, sameRecord.
  destruct (weightModifier t) as [wm|]; [|congruence].
  replace (best =? 0) with false by (symmetry; now apply Z.eqb_neq).
  destruct (List.length pokemonList =? List.length targets)%nat;
    destruct (String.eqb (speciesId t) (speciesId p));
    destruct (String.eqb (slug scenario) "switches" && Qltb (curve pow (adjRating m)) 500);
    destruct (Qltb (inject_Z sj / inject_Z best) (cutoff n));
    simpl; eexists; eexists; eexists; (split; [reflexivity|]);
    simpl; repeat split; ring.
Qed.


Lemma weighMatches_sums (n : nat) (best : Z) (rankings : list RankObj) (i : nat) (p : Pokemon) :
  best <> 0 -> nth_error pokemonList i = Some p ->
  forall (ms : list Match) (j : nat) (l : list Pairing) (score weights : Q),
    collect (imap (fun j m => t <- nth_error targets j ;;
                              s <- scoreAt rankings j n ;;
                              Some (t, s, m)) ms j) = Some l ->
    (forall pr, In pr l -> weightModifier (fst (fst pr)) <> None) ->
    exists ms' score' weights',
      weighMatches n best rankings i ms j score weights = Some (ms', score', weights')
      /\ (score' == score
                    + Qsum (map (fun pr => curvedRating (snd pr) * ratingWeight n best p pr) l))%Q
      /\ (weights' == weights + Qsum (map (countedWeight n best p) l))%Q
      /\ Forall2 sameRecord ms ms'.
Proof.
  intros Hbest Hp. induction ms as [|m ms IH]; intros j l score weights Hl Hwm.
  - simpl in Hl. injection Hl as <-. exists [], score, weights. simpl.
    repeat split; try (unfold Qsum; simpl; ring). constructor.
  - cbn [imap] in Hl. apply collect_cons_inv in Hl.
    destruct Hl as (pr & l' & Hpr & Hl' & ->).
    destruct (nth_error targets j) as [t|] eqn:Ht; [|discriminate].
    destruct (scoreAt rankings j n) as [sj|] eqn:Hs; [|discriminate].
    simpl in Hpr. injection Hpr as <-.
    destruct (weighPairing_value n best p t sj m Hbest (Hwm (t, sj, m) (or_introl eq_refl)))
      as (m' & sc & w & Hw & Hsc & Hcw & Hrec).
    destruct (IH (Datatypes.S j) l' (score + sc)%Q (weights + w)%Q Hl'
                 (fun pr H => Hwm pr (or_intror H)))
      as (ms' & score' & weights' & Hrest & Hscore & Hweights & Hrecs).
    exists (m' :: ms'), score', weights'.
    cbn [Solver.weighMatches]. rewrite Hs, Ht, Hp. simpl. rewrite Hw. simpl. rewrite Hrest. simpl.
    repeat split.
    + rewrite Hscore, Hsc. unfold Qsum. simpl. ring.
    + rewrite Hweights, Hcw. unfold Qsum. simpl. ring.
    + now constructor.
Qed.

(** The loop over the matches reads the rankings through [scoreAt] alone. *)
Lemma weighMatches_ext (n : nat) (best : Z) (rs rs' : list RankObj) (i : nat) :
  (forall j, scoreAt rs j n = scoreAt rs' j n) ->
  forall (ms : list Match) (j : nat) (score weights : Q),
    weighMatches n best rs i ms j score weights = weighMatches n best rs' i ms j score weights.
Proof.
  intros Hext. induction ms as [|m ms IH]; intros j score weights;
    cbn [Solver.weighMatches]; auto.
  rewrite Hext. destruct (scoreAt rs' j n) as [sj|]; cbn [obind]; auto.
  destruct (nth_error targets j) as [t|]; cbn [obind]; auto.
  destruct (nth_error pokemonList i) as [p|]; cbn [obind]; auto.
  destruct (weighPairing n best p t sj m) as [[[m' sc] w]|]; cbn [obind]; auto.
  now rewrite IH.
Qed.

Lemma afterPass_scoreAt (n : nat) (best : Z) (rankings : list RankObj) (i : nat) (r r' : RankObj) :
  (n < List.length (scores r))%nat ->
  afterPass n best rankings i r = Some r' ->
  nth_error (scores r') n = nth_error (scores r) n.
Proof.
  intros Hn. unfold afterPass.
  destruct (weighMatches n best rankings i (matches r) 0%nat 0%Q 0%Q) as [[[ms s] w]|]; simpl;
    [|discriminate].
  intros H. injection H as <-. simpl. now apply nth_error_app1.
Qed.

Lemma scoreAt_app (n : nat) (done prefix suffix : list RankObj) :
  Forall2 (fun r r' => nth_error (scores r') n = nth_error (scores r) n) prefix done ->
  forall j, scoreAt (done ++ suffix) j n = scoreAt (prefix ++ suffix) j n.
Proof.
  induction 1 as [|r r' prefix done Hr Hrest IH]; intros j; simpl; auto.
  destruct j; simpl.
  - unfold scoreAt. simpl. exact Hr.
  - unfold scoreAt in *. simpl. apply IH.
Qed.

Lemma passLoop_collect (n : nat) (best : Z) (rankings : list RankObj) :
  (forall r, In r rankings -> (n < List.length (scores r))%nat) ->
  forall (suffix prefix done : list RankObj),
    rankings = prefix ++ suffix ->
    Forall2 (fun r r' => nth_error (scores r') n = nth_error (scores r) n) prefix done ->
    passLoop n best (seq (List.length prefix) (List.length suffix)) (done ++ suffix)
    = (rest <- collect (imap (afterPass n best rankings) suffix (List.length prefix)) ;;
       Some (done ++ rest)).
Proof.
  intros Hscores. induction suffix as [|r suffix IH]; intros prefix done Hlist Hdone.
  - simpl. reflexivity.
  - assert (Hlen : List.length done = List.length prefix)
      by (symmetry; eapply Forall2_length; eassumption).
    cbn [List.length seq Solver.passLoop imap collect].
    assert (Hstep : candidatePass n best (done ++ r :: suffix) (List.length prefix)
                    = (r' <- afterPass n best rankings (List.length prefix) r ;;
                       Some ((done ++ [r']) ++ suffix))).
    { unfold Solver.candidatePass. rewrite <- Hlen.
      rewrite nth_error_app2, Nat.sub_diag by lia. simpl.
      rewrite (weighMatches_ext n best (done ++ r :: suffix) rankings (List.length done)).
      2:{ intros j. rewrite Hlist. now apply scoreAt_app. }
      unfold afterPass.
      destruct (weighMatches n best rankings (List.length done) (matches r) 0%nat 0%Q 0%Q)
        as [[[ms s] w]|]; simpl; [|reflexivity].
      now rewrite replaceAt_middle, <- app_assoc. }
    rewrite Hstep.
    destruct (afterPass n best rankings (List.length prefix) r) as [r'|] eqn:Hr'; simpl;
      [|reflexivity].
    specialize (IH (prefix ++ [r]) (done ++ [r'])).
    rewrite length_app in IH. simpl in IH.
    replace (List.length prefix + 1)%nat with (Datatypes.S (List.length prefix)) in IH by lia.
    rewrite IH.
    + destruct (collect _) as [rest|]; simpl; auto. now rewrite <- app_assoc.
    + now rewrite <- app_assoc.
    + apply Forall2_app; auto. constructor; [|constructor].
      eapply afterPass_scoreAt; [|eassumption].
      apply Hscores. rewrite Hlist. apply in_or_app. right. now left.
Qed.

(** One pass, candidate by candidate. *)
Lemma weightPass_collect (n : nat) (best : Z) (rankings : list RankObj) :
  bestScore n rankings = Some best ->
  weightPass n rankings = collect (imap (afterPass n best rankings) rankings 0).
Proof.
  intros Hbest. unfold Solver.weightPass.
  destruct rankings as [|r rankings]; [reflexivity|].
  rewrite Hbest. cbn [obind].
  set (rs := r :: rankings) in *.
  assert (Hscores : forall x, In x rs -> (n < List.length (scores x))%nat).
  { unfold bestScore in Hbest.
    destruct (collect (map (fun r => nth_error (scores r) n) rs)) as [col|] eqn:Hcol;
      [|discriminate].
    clear Hbest. revert col Hcol. generalize rs. clear.
    induction rs as [|y rs IH]; intros col Hcol x Hx; [contradiction|].
    simpl in Hcol. apply collect_cons_inv in Hcol. destruct Hcol as (a & col' & Ha & Hc & _).
    destruct Hx as [<-|Hx].
    - apply nth_error_Some. congruence.
    - eapply IH; eassumption. }
  pose proof (passLoop_collect n best rs Hscores rs [] [] eq_refl (Forall2_nil _)) as H.
  cbn [List.length app] in H. rewrite H. destruct (collect _); reflexivity.
Qed.


Lemma afterPass_value (n : nat) (best : Z) (rankings : list RankObj) (i : nat)
    (r : RankObj) (p : Pokemon) (l : list Pairing) :
  best <> 0 -> nth_error pokemonList i = Some p ->
  pairings targets n rankings (matches r) = Some l ->
  (forall pr, In pr l -> weightModifier (fst (fst pr)) <> None) ->
  exists r', afterPass n best rankings i r = Some r'
             /\ scores r' = scores r ++ [passScore n best p l]
             /\ Forall2 sameRecord (matches r) (matches r')
             /\ rankSpeciesId r' = rankSpeciesId r
             /\ rankRating r' = rankRating r.
Proof.
  intros Hbest Hp Hl Hwm.
  destruct (weighMatches_sums n best rankings i p Hbest Hp (matches r) 0%nat l 0%Q 0%Q Hl Hwm)
    as (ms & s & w & Hw & Hs & Hws & Hrec).
  unfold afterPass. rewrite Hw. simpl. eexists. split; [reflexivity|]. simpl.
  repeat split; auto. do 2 f_equal. unfold Scoring.passScore.
  apply score_comp.
  - now rewrite Hs, Qplus_0_l.
  - now rewrite Hws, Qplus_0_l.
Qed.

(** A whole pass: with a best score that is not 0, a contestant for every
    ranking, and for every match a target that carries a weight modifier and
    a ranking at the target's index, the pass returns, and pushes for every
    candidate the score [passScore] of its pairings. *)
Lemma weightPass_scores (n : nat) (best : Z) (rankings : list RankObj) :
  bestScore n rankings = Some best -> best <> 0 ->
  (List.length rankings <= List.length pokemonList)%nat ->
  (forall r, In r rankings ->
     exists l, pairings targets n rankings (matches r) = Some l
               /\ forall pr, In pr l -> weightModifier (fst (fst pr)) <> None) ->
  exists rankings',
    weightPass n rankings = Some rankings'
    /\ List.length rankings' = List.length rankings
    /\ forall i r p l,
         nth_error rankings i = Some r -> nth_error pokemonList i = Some p ->
         pairings targets n rankings (matches r) = Some l ->
         exists r', nth_error rankings' i = Some r'
                    /\ scores r' = scores r ++ [passScore n best p l]
                    /\ Forall2 sameRecord (matches r) (matches r')
                    /\ rankSpeciesId r' = rankSpeciesId r
                    /\ rankRating r' = rankRating r.
Proof.
  intros Hbest Hnz Hlen Hpair.
  rewrite (weightPass_collect n best rankings Hbest).
  assert (Hval : forall i r, nth_error rankings i = Some r ->
            exists p l, nth_error pokemonList i = Some p
                        /\ pairings targets n rankings (matches r) = Some l
                        /\ exists r', afterPass n best rankings i r = Some r'
                             /\ scores r' = scores r ++ [passScore n best p l]
                             /\ Forall2 sameRecord (matches r) (matches r')
                             /\ rankSpeciesId r' = rankSpeciesId r
                             /\ rankRating r' = rankRating r).
  { intros i r Hr.
    assert (Hi : (i < List.length rankings)%nat) by (apply nth_error_Some; congruence).
    destruct (nth_error pokemonList i) as [p|] eqn:Hp.
    2:{ apply nth_error_None in Hp. lia. }
    destruct (Hpair r (nth_error_In _ _ Hr)) as (l & Hl & Hwm).
    exists p, l. repeat split; auto.
    now apply afterPass_value. }
  destruct (collect_imap (afterPass n best rankings) rankings 0) as (ys & Hys & Hlen' & Hnth).
  { intros i r Hr. destruct (Hval i r Hr) as (p & l & _ & _ & r' & Hr' & _). simpl. congruence. }
  exists ys. repeat split; auto.
  intros i r p l Hr Hp Hl.
  destruct (Hnth i r Hr) as (y & Hy & Hy'). simpl in Hy.
  destruct (Hval i r Hr) as (p' & l' & Hp' & Hl' & r' & Hr' & Hrest).
  assert (p' = p) by congruence. assert (l' = l) by congruence. subst p' l'.
  exists y. split; [assumption|]. congruence.
Qed.

End SolverFacts.

(** ** The orchestrator on sample rosters *)

Lemma symmetric_pairings_reused_witness :
  Orchestrator.symmetric leads trio trio = true
  /\ (2 * snd (Orchestrator.simulateAll sampleResolver leads trio trio) = 3 * (3 + 1))%nat.
Proof.
  split; [reflexivity|].
  exact (proj1 (symmetric_pairings_reused sampleResolver leads trio trio eq_refl)).
Defined.



(** C10 as it is worded fails in the arithmetic the program runs in: with
    96 of 150 hit points against 39 of 125 the two quotients and their sums
    are rounded, and the raw ratings are 663 and 335, which add up to 998. *)
Lemma raw_ratings_sum_binary64_counterexample :
  Binary64.rawRating 96 150 39 125 = Some 663
  /\ Binary64.rawRating 39 125 96 150 = Some 335
  /\ Orchestrator.rawRating 96 150 39 125 = 664
  /\ Orchestrator.rawRating 39 125 96 150 = 336.
Proof. repeat split; vm_compute; reflexivity. Qed.

(** ** Solver passes *)

Section SolverClaims.

Import Solver Scoring.

Variable pow : Q -> Q -> Q.
Variables pokemonList targets : list Pokemon.
Variable scenario : Scenario.
Variable cupName : string.
Variable battleCP : Z.

Local Abbreviation weightPass := (weightPass pow pokemonList targets scenario cupName battleCP).
Local Abbreviation weightMatchups := (weightMatchups pow pokemonList targets scenario cupName battleCP).
Local Abbreviation passes := (passes pow pokemonList targets scenario cupName battleCP).
Local Abbreviation curvedRating := (curvedRating pow).
Local Abbreviation ratingWeight := (ratingWeight pow pokemonList targets scenario).
Local Abbreviation countedWeight := (countedWeight pow pokemonList targets scenario).
Local Abbreviation passScore := (passScore pow pokemonList targets scenario).
Local Abbreviation ready := (ready pokemonList targets).
Local Abbreviation afterPass := (afterPass pow pokemonList targets scenario cupName battleCP).

Lemma ready_inv (n : nat) (rankings : list RankObj) :
  ready n rankings = true ->
  exists best,
    bestScore n rankings = Some best /\ best <> 0
    /\ (List.length rankings <= List.length pokemonList)%nat
    /\ forall r, In r rankings ->
         exists l, pairings targets n rankings (matches r) = Some l
                   /\ forall pr, In pr l -> weightModifier (fst (fst pr)) <> None.
Proof.
  unfold Scoring.ready. intros H.
  apply andb_true_iff in H. destruct H as [H Hall].
  apply andb_true_iff in H. destruct H as [Hbest Hlen].
  destruct (bestScore n rankings) as [best|]; [|discriminate].
  exists best. repeat split.
  - apply negb_true_iff in Hbest. now apply Z.eqb_neq.
  - now apply Nat.leb_le.
  - intros r Hr. rewrite forallb_forall in Hall. specialize (Hall r Hr).
    destruct (pairings targets n rankings (matches r)) as [l|]; [|discriminate].
    exists l. split; [reflexivity|]. intros pr Hpr.
    rewrite forallb_forall in Hall. specialize (Hall pr Hpr).
    destruct (weightModifier (fst (fst pr))); [discriminate|discriminate Hall].
Qed.

(** *** The number of passes *)

Lemma collect_imap_inv {A B : Type} (f : nat -> A -> option B) (R : A -> B -> Prop) :
  (forall i a b, f i a = Some b -> R a b) ->
  forall (l : list A) (k : nat) (ys : list B),
    collect (imap f l k) = Some ys -> Forall2 R l ys.
Proof.
  intros HR. induction l as [|a l IH]; intros k ys H.
  - simpl in H. injection H as <-. constructor.
  - cbn [imap] in H. apply collect_cons_inv in H. destruct H as (b & ys' & Hb & Hys & ->).
    constructor; eauto.
Qed.

Lemma weightPass_pushes (n : nat) (rankings rankings' : list RankObj) :
  weightPass n rankings = Some rankings' ->
  Forall2 (fun r r' => List.length (scores r') = Datatypes.S (List.length (scores r)))
          rankings rankings'.
Proof.
  intros H. destruct rankings as [|r0 rest].
  - simpl in H. injection H as <-. constructor.
  - destruct (bestScore n (r0 :: rest)) as [best|] eqn:Hbest.
    2:{ unfold Solver.weightPass in H. rewrite Hbest in H. discriminate. }
    rewrite (weightPass_collect pow pokemonList targets scenario cupName battleCP
               n best _ Hbest) in H.
    revert H. apply collect_imap_inv. intros i a b. unfold Scoring.afterPass.
    destruct (Solver.weighMatches _ _ _ _ _ _ _ _ _ _ _ _ _ _) as [[[ms s] w]|]; simpl;
      [|discriminate].
    intros Hb. injection Hb as <-. simpl. rewrite length_app. simpl. lia.
Qed.

Lemma passes_push (ns : list nat) (rankings rankings' : list RankObj) :
  passes ns rankings = Some rankings' ->
  Forall2 (fun r r' => List.length (scores r') = (List.length (scores r) + List.length ns)%nat)
          rankings rankings'.
Proof.
  revert rankings. induction ns as [|n ns IH]; intros rankings H.
  - simpl in H. injection H as <-. induction rankings; constructor; auto.
  - cbn [Solver.passes] in H.
    destruct (weightPass n rankings) as [rs|] eqn:Hpass; [|discriminate].
    simpl in H. apply IH in H. apply weightPass_pushes in Hpass.
    clear IH. revert rankings' H. induction Hpass as [|r r1 rankings rs Hr Hrest IH'];
      intros rankings' H; inversion H; subst; constructor.
    + simpl. lia.
    + now apply IH'.
Qed.

(** X2, the subject of C8.  The solver makes 7 passes for the cup named
    [custom], the user-defined roster, and 1 pass for any other cup: when it
    returns, every candidate has that many scores more. *)
Theorem solver_pass_count (rankings rankings' : list RankObj) :
  weightMatchups rankings = Some rankings' ->
  (cupName = "custom"%string ->
   iterations cupName = 7%nat
   /\ Forall2 (fun r r' => List.length (scores r') = (List.length (scores r) + 7)%nat)
              rankings rankings')
  /\ (cupName <> "custom"%string ->
      iterations cupName = 1%nat
      /\ Forall2 (fun r r' => List.length (scores r') = (List.length (scores r) + 1)%nat)
                 rankings rankings').
Proof.
  unfold Solver.weightMatchups. intros H. apply passes_push in H. rewrite length_seq in H.
  split; intros Hname.
  - subst cupName. split; [reflexivity|]. exact H.
  - assert (Hit : iterations cupName = 1%nat).
    { unfold iterations. destruct (String.eqb_spec cupName "custom"); [contradiction|reflexivity]. }
    split; [assumption|]. now rewrite Hit in H.
Qed.

End SolverClaims.

Lemma solver_pass_count_witness :
  exists rankings',
    Solver.weightMatchups samplePow trio trio leads "custom" 1500
      (fst (Orchestrator.simulateAll sampleResolver leads trio trio)) = Some rankings'
    /\ map (fun r => List.length (scores r)) rankings' = [8; 8; 8]%nat.
Proof.
  destruct (Solver.weightMatchups samplePow trio trio leads "custom" 1500
              (fst (Orchestrator.simulateAll sampleResolver leads trio trio)))
    as [rankings'|] eqn:H.
  2:{ vm_compute in H. discriminate H. }
  exists rankings'. split; [reflexivity|].
  destruct (solver_pass_count samplePow trio trio leads "custom" 1500 _ _ H) as [Hcustom _].
  destruct (Hcustom eq_refl) as [_ Hall].
  vm_compute in H. injection H as <-. reflexivity.
Defined.

(** ** Sorting *)

Section SortFacts.

Context {A : Type}.
Variable key : A -> Q.

Lemma insertBy_perm (x : A) (l : list A) : Permutation (insertBy key x l) (x :: l).
Proof.
  induction l as [|y l IH]; simpl; [reflexivity|].
  destruct (Qle_bool (key y) (key x)); [reflexivity|].
  rewrite IH. apply perm_swap.
Qed.

Lemma sortBy_perm (l : list A) : Permutation (sortBy key l) l.
Proof.
  induction l as [|x l IH]; simpl; [reflexivity|].
  unfold sortBy in *. simpl. rewrite insertBy_perm. now constructor.
Qed.

Lemma insertBy_sorted (x : A) (l : list A) :
  StronglySorted (descending key) l -> StronglySorted (descending key) (insertBy key x l).
Proof.
  induction 1 as [|y l Hl IH Hy]; simpl.
  - constructor; constructor.
  - destruct (Qle_bool (key y) (key x)) eqn:E.
    + apply Qle_bool_iff in E. constructor; [constructor; assumption|].
      constructor; [exact E|].
      rewrite Forall_forall in *. intros z Hz. unfold descending in *.
      specialize (Hy z Hz). lra.
    + assert (Hlt : (key x < key y)%Q).
      { apply Qnot_le_lt. intros Hle. apply Qle_bool_iff in Hle. congruence. }
      constructor; [assumption|].
      rewrite Forall_forall in *. intros z Hz.
      apply (Permutation_in _ (insertBy_perm x l)) in Hz. destruct Hz as [<-|Hz].
      * unfold descending. lra.
      * now apply Hy.
Qed.

Lemma sortBy_sorted (l : list A) : StronglySorted (descending key) (sortBy key l).
Proof.
  induction l as [|x l IH]; simpl; [constructor|].
  unfold sortBy in *. simpl. now apply insertBy_sorted.
Qed.

Lemma sortBy_length (l : list A) : List.length (sortBy key l) = List.length l.
Proof. apply Permutation_length, sortBy_perm. Qed.

(** The head of a sorted list is a maximum of the list it sorts. *)
Lemma sortBy_head (l : list A) (top : A) (rest : list A) :
  sortBy key l = top :: rest ->
  forall x, In x l -> (key x <= key top)%Q.
Proof.
  intros Hs x Hx. pose proof (sortBy_sorted l) as Hsorted. rewrite Hs in Hsorted.
  apply (Permutation_in _ (Permutation_sym (sortBy_perm l))) in Hx. rewrite Hs in Hx.
  inversion Hsorted as [|? ? _ Hall]; subst. destruct Hx as [<-|Hx].
  - lra.
  - rewrite Forall_forall in Hall. now apply Hall.
Qed.

End SortFacts.

Lemma sortDesc_sortBy (l : list Entry) : sortDesc l = sortBy entryScore l.
Proof.
  unfold sortDesc, sortBy. induction l as [|x l IH]; simpl; [reflexivity|].
  rewrite IH. generalize (fold_right (insertBy entryScore) [] l). clear.
  intros l. induction l as [|y l IH]; simpl; [reflexivity|]. now rewrite IH.
Qed.

(** ** The scaling of the finalizer *)

Lemma jsOrQ_positive (x : Q) : (0 <= x)%Q -> (0 < jsOrQ x 1)%Q.
Proof.
  intros Hx. unfold jsOrQ. destruct (Qeq_bool x 0) eqn:E; [reflexivity|].
  apply Qeq_bool_neq in E. apply Qle_lteq in Hx. destruct Hx as [Hx|Hx]; [assumption|].
  exfalso. apply E. now symmetry.
Qed.

Lemma inject_Z_div10 (a b : Z) : a <= b -> (inject_Z a / 10 <= inject_Z b / 10)%Q.
Proof.
  intros H. rewrite Zle_Qle in H. apply Qmult_le_compat_r; [assumption|]. discriminate.
Qed.

Lemma scaleFloor_mono (h s t : Q) :
  (0 < h)%Q -> (s <= t)%Q -> (Finalizer.scaleFloor h s <= Finalizer.scaleFloor h t)%Q.
Proof.
  intros Hh Hst. unfold Finalizer.scaleFloor. apply inject_Z_div10. apply Qfloor_resp_le.
  apply Qmult_le_compat_r; [|discriminate].
  apply Qmult_le_compat_r; [assumption|]. apply Qinv_le_0_compat. lra.
Qed.

Lemma scaleFloor_top (h : Q) : (0 < h)%Q -> (Finalizer.scaleFloor h h == 100)%Q.
Proof.
  intros Hh. unfold Finalizer.scaleFloor.
  assert (E : (h / h * 1000 == inject_Z 1000)%Q) by (field; lra).
  rewrite (Qfloor_comp _ _ E), Qfloor_Z. reflexivity.
Qed.

Lemma scaleFloor_zero (h : Q) : (Finalizer.scaleFloor h 0 == 0)%Q.
Proof.
  unfold Finalizer.scaleFloor.
  assert (E : (0 / h * 1000 == inject_Z 0)%Q) by (unfold Qdiv; ring).
  rewrite (Qfloor_comp _ _ E), Qfloor_Z. reflexivity.
Qed.

Lemma StronglySorted_map {A B : Type} (R : A -> A -> Prop) (S : B -> B -> Prop)
    (g : A -> B) (l : list A) :
  (forall a b, In a l -> In b l -> R a b -> S (g a) (g b)) ->
  StronglySorted R l -> StronglySorted S (map g l).
Proof.
  intros Hg Hs. induction Hs as [|x l Hl IH Hx]; simpl; constructor.
  - apply IH. intros a b Ha Hb. apply Hg; now right.
  - rewrite Forall_forall in *. intros y Hy. apply in_map_iff in Hy.
    destruct Hy as (z & <- & Hz). apply Hg; [now left|now right|now apply Hx].
Qed.

Lemma highestScore_positive (l : list Entry) :
  (forall e, In e l -> (0 <= entryScore e)%Q) -> (0 < highestScore l)%Q.
Proof.
  destruct l as [|e l]; simpl; intros H; [reflexivity|].
  apply jsOrQ_positive. apply H. now left.
Qed.

Lemma scaleRankings_bounds (entries : list Entry) :
  (forall e, In e entries -> (0 <= entryScore e)%Q) ->
  Permutation (map entrySpeciesId (Finalizer.scaleRankings entries))
    (map entrySpeciesId entries)
  /\ StronglySorted (descending entryScore) (Finalizer.scaleRankings entries)
  /\ (forall e, In e (Finalizer.scaleRankings entries) -> (0 <= entryScore e <= 100)%Q).
Proof.
  intros Hpos. unfold Finalizer.scaleRankings. rewrite sortDesc_sortBy.
  set (sorted := sortBy entryScore entries).
  set (h := highestScore sorted).
  assert (Hin : forall e, In e sorted -> In e entries).
  { intros e. apply Permutation_in, sortBy_perm. }
  assert (Hh : (0 < h)%Q).
  { apply highestScore_positive. intros e He. apply Hpos. now apply Hin. }
  assert (Hbound : forall e, In e sorted -> (entryScore e <= h)%Q \/ (entryScore e == 0)%Q).
  { intros e He. unfold h. destruct sorted as [|top rest] eqn:Hs; [contradiction|].
    pose proof (sortBy_head entryScore entries top rest Hs e (Hin e He)) as Hle.
    simpl. unfold jsOrQ. destruct (Qeq_bool (entryScore top) 0) eqn:E.
    - right. apply Qeq_bool_iff in E. specialize (Hpos e (Hin e He)). lra.
    - now left. }
  split; [|split].
  - rewrite map_map. simpl.
    change (map (fun x => entrySpeciesId x) sorted) with (map entrySpeciesId sorted).
    apply Permutation_map, sortBy_perm.
  - apply (StronglySorted_map (descending entryScore)); [|apply sortBy_sorted].
    intros a b _ _ Hab. unfold descending in *. simpl. now apply scaleFloor_mono.
  - intros e He. apply in_map_iff in He. destruct He as (x & <- & Hx). simpl.
    pose proof (scaleFloor_zero h) as Hz. pose proof (scaleFloor_top h Hh) as Ht.
    pose proof (scaleFloor_mono h 0 (entryScore x) Hh (Hpos x (Hin x Hx))) as Hlow.
    split; [lra|].
    destruct (Hbound x Hx) as [Hle|Hzero].
    + pose proof (scaleFloor_mono h (entryScore x) h Hh Hle). lra.
    + assert (Hx0 : (entryScore x <= 0)%Q) by lra.
      pose proof (scaleFloor_mono h (entryScore x) 0 Hh Hx0). lra.
Qed.

(** X8.  The scaling of [finalizeRankings] (the sort and the division by the
    highest score), for scores that are not negative: the contestants are the
    same, in descending order of their final scores; every final score lies
    in [[0, 100]]; the first is exactly 100 when some score is positive; and
    when every score is 0 the highest score is replaced by 1 and every final
    score is 0. *)
Theorem scaled_scores (entries : list Entry) :
  (forall e, In e entries -> (0 <= entryScore e)%Q) ->
  let final := Finalizer.scaleRankings entries in
  Permutation (map entrySpeciesId final) (map entrySpeciesId entries)
  /\ StronglySorted (descending entryScore) final
  /\ (forall e, In e final -> (0 <= entryScore e <= 100)%Q)
  /\ (forall top rest, final = top :: rest ->
        (exists e, In e entries /\ (0 < entryScore e)%Q) -> (entryScore top == 100)%Q)
  /\ ((forall e, In e entries -> (entryScore e == 0)%Q) ->
      forall e, In e final -> (entryScore e == 0)%Q).
Proof.
  intros Hpos. cbv zeta.
  destruct (scaleRankings_bounds entries Hpos) as (Hperm & Hsorted & Hrange).
  split; [exact Hperm|]. split; [exact Hsorted|]. split; [exact Hrange|].
  clear Hperm Hsorted Hrange.
  unfold Finalizer.scaleRankings. rewrite sortDesc_sortBy.
  set (sorted := sortBy entryScore entries).
  set (h := highestScore sorted).
  assert (Hin : forall e, In e sorted -> In e entries).
  { intros e. apply Permutation_in, sortBy_perm. }
  assert (Hh : (0 < h)%Q).
  { apply highestScore_positive. intros e He. apply Hpos. now apply Hin. }
  split.
  - intros top rest Hfinal (e & He & Hepos).
    destruct sorted as [|t r] eqn:Hs; [discriminate|].
    simpl in Hfinal. injection Hfinal as <- _. simpl.
    pose proof (sortBy_head entryScore entries t r Hs e He) as Hle.
    assert (Ht : (0 < entryScore t)%Q) by lra.
    unfold h. simpl. unfold jsOrQ.
    destruct (Qeq_bool (entryScore t) 0) eqn:E.
    + apply Qeq_bool_iff in E. lra.
    + now apply scaleFloor_top.
  - intros Hzero e He. apply in_map_iff in He. destruct He as (x & <- & Hx). simpl.
    pose proof (Hzero x (Hin x Hx)) as Hx0. pose proof (scaleFloor_zero h) as Hz.
    assert (H1 : (entryScore x <= 0)%Q) by lra. assert (H2 : (0 <= entryScore x)%Q) by lra.
    pose proof (scaleFloor_mono h _ _ Hh H1). pose proof (scaleFloor_mono h _ _ Hh H2). lra.
Qed.

(** ** [finalizeRankings] and [rank] *)

Lemma nth_error_last {A : Type} (l : list A) (d : A) :
  l <> [] -> nth_error l (List.length l - 1) = Some (last l d).
Proof.
  induction l as [|x l IH]; [congruence|]. intros _.
  destruct l as [|y l]; [reflexivity|].
  specialize (IH ltac:(discriminate)). simpl in *.
  now rewrite Nat.sub_0_r in *.
Qed.

Section FinalizeFacts.

Variable pow : Q -> Q -> Q.
Variable scenario : Scenario.
Hypothesis notChargers : slug scenario <> "chargers"%string.

(** Outside the [chargers] scenario the first loop keeps the identity and the
    first average of every ranking and takes its last score; it needs a
    contestant for every ranking and a score in every ranking. *)
Lemma finalEntries_plain (rankings : list RankObj) (pokemonList : list Pokemon) :
  (List.length rankings <= List.length pokemonList)%nat ->
  (forall r, In r rankings -> scores r <> []) ->
  exists es,
    Finalizer.finalEntries pow scenario rankings pokemonList = Some es
    /\ Forall2 (fun r e => entrySpeciesId e = rankSpeciesId r
                           /\ entryRating e = rankRating r
                           /\ entryScore e = inject_Z (last (scores r) 0))
               rankings es.
Proof.
  revert pokemonList. induction rankings as [|r rankings IH]; intros pokemonList Hlen Hsc.
  - exists []. split; [reflexivity|constructor].
  - destruct pokemonList as [|p ps]; [simpl in Hlen; lia|].
    destruct (IH ps) as (es & Hes & Hall).
    { simpl in Hlen. lia. }
    { intros x Hx. apply Hsc. now right. }
    cbn [Finalizer.finalEntries]. unfold Finalizer.finalEntry.
    rewrite (nth_error_last (scores r) 0) by (apply Hsc; now left).
    cbn [obind].
    destruct (String.eqb_spec (slug scenario) "chargers"); [contradiction|].
    cbn [obind]. rewrite Hes. cbn [obind].
    eexists. split; [reflexivity|]. constructor; [|assumption]. simpl. auto.
Qed.

(** X9.  [finalizeRankings] outside the [chargers] scenario, on rankings whose
    last scores are not negative: it returns the same contestants, in
    descending order of their final scores, every score in [[0, 100]]. *)
Theorem finalize_plain (rankings : list RankObj) (pokemonList : list Pokemon) :
  (List.length rankings <= List.length pokemonList)%nat ->
  (forall r, In r rankings -> scores r <> [] /\ 0 <= last (scores r) 0) ->
  exists final,
    Finalizer.finalizeRankings pow rankings pokemonList scenario = Some final
    /\ Permutation (map entrySpeciesId final) (map rankSpeciesId rankings)
    /\ StronglySorted (descending entryScore) final
    /\ (forall e, In e final -> (0 <= entryScore e <= 100)%Q).
Proof.
  intros Hlen Hsc.
  destruct (finalEntries_plain rankings pokemonList Hlen (fun r Hr => proj1 (Hsc r Hr)))
    as (es & Hes & Hall).
  assert (Hids : map entrySpeciesId es = map rankSpeciesId rankings).
  { clear -Hall. induction Hall as [|r e rs es (H & _) _ IH]; simpl; congruence. }
  assert (Hpos : forall e, In e es -> (0 <= entryScore e)%Q).
  { clear -Hall Hsc. induction Hall as [|r e rs es (_ & _ & H) _ IH]; intros x Hx; [contradiction|].
    destruct Hx as [<-|Hx].
    - rewrite H. replace 0%Q with (inject_Z 0) by reflexivity. rewrite <- Zle_Qle.
      apply Hsc. now left.
    - apply IH; [|assumption]. intros y Hy. apply Hsc. now right. }
  destruct (scaleRankings_bounds es Hpos) as (Hperm & Hsorted & Hrange).
  exists (Finalizer.scaleRankings es). unfold Finalizer.finalizeRankings. rewrite Hes.
  repeat split; auto; try (now apply Hrange).
  now rewrite <- Hids.
Qed.

End FinalizeFacts.

(** ** Eligibility: the whole decision *)

Section FilterDecision.

Import Filters FilterSpec.

Variable pokemon : Pokemon.
Variable cp : Z.

Lemma skip_appliesTo (f : Filter) :
  match leagues f with
  | Some ls => negb (includesZ ls cp)
  | None => false
  end = negb (appliesTo f cp).
Proof. unfold appliesTo. now destruct (leagues f). Qed.

(** A step on a rule that is not an [id] rule: the rule is dropped from the
    requirement when it does not apply, and counts once when it applies and
    is met. *)
Lemma filterStep_plain (isInclude : bool) (len : Z) (st : Counters) (f : Filter) :
  isIdRule f = false ->
  filterStep pokemon cp isInclude len st f
  = {| filtersMatched :=
         filtersMatched st + (if appliesTo f cp && ruleMatches isInclude pokemon f then 1 else 0);
       requiredFilters := requiredFilters st - (if appliesTo f cp then 0 else 1);
       includeIdFilter := includeIdFilter st |}.
Proof.
  intros Hid. unfold filterStep. rewrite skip_appliesTo.
  unfold isIdRule, ruleMatches in *. destruct st as [m r fl]. simpl.
  destruct (appliesTo f cp); simpl.
  - destruct (kind f); try discriminate; simpl;
      match goal with
      | |- context [if ?b then _ else _] => destruct b
      | _ => idtac
      end; simpl; f_equal; lia.
  - f_equal; lia.
Qed.

(** A step of the exclude pass, on any rule: the flag is kept, the
    requirement is of no use, and a rule that strikes counts once at least. *)
Lemma filterStep_exclude (len : Z) (st : Counters) (f : Filter) :
  0 < len ->
  let st' := filterStep pokemon cp false len st f in
  includeIdFilter st' = includeIdFilter st
  /\ (excludedBy pokemon cp f = true -> filtersMatched st < filtersMatched st')
  /\ (excludedBy pokemon cp f = false -> filtersMatched st' = filtersMatched st).
Proof.
  intros Hlen. cbv zeta. unfold filterStep, excludedBy. rewrite skip_appliesTo.
  unfold ruleMatches. destruct (appliesTo f cp); simpl.
  - destruct (kind f); simpl;
      match goal with
      | |- context [if ?b then _ else _] => destruct b
      | _ => idtac
      end; simpl; repeat split; intros; try discriminate; try reflexivity; try lia.
  - repeat split; intros; try discriminate; reflexivity.
Qed.

Lemma tally_cons (keep : Filter -> bool) (f : Filter) (l : list Filter) :
  tally keep (f :: l) = (if keep f then 1 else 0) + tally keep l.
Proof.
  unfold tally. cbn [filter]. destruct (keep f); cbn [List.length];
    rewrite ?Nat2Z.inj_succ; lia.
Qed.

Lemma include_pass_plain (isInclude : bool) (len : Z) (l : list Filter) (st : Counters) :
  (forall f, In f l -> isIdRule f = false) ->
  fold_left (filterStep pokemon cp isInclude len) l st
  = {| filtersMatched :=
         filtersMatched st
         + tally (fun f => appliesTo f cp && ruleMatches isInclude pokemon f) l;
       requiredFilters := requiredFilters st - tally (fun f => negb (appliesTo f cp)) l;
       includeIdFilter := includeIdFilter st |}.
Proof.
  revert st. induction l as [|f l IH]; intros st Hid.
  - unfold tally. cbn [fold_left filter List.length Z.of_nat]. destruct st.
    cbn [filtersMatched requiredFilters includeIdFilter]. f_equal; lia.
  - cbn [fold_left]. rewrite IH by (intros x Hx; apply Hid; now right).
    rewrite (filterStep_plain isInclude len st f) by (apply Hid; now left).
    rewrite !tally_cons. cbn [filtersMatched requiredFilters includeIdFilter].
    destruct (appliesTo f cp), (ruleMatches isInclude pokemon f);
      cbn [andb negb]; f_equal; lia.
Qed.

(** Every rule is satisfied exactly when the met rules make up for the
    rules that apply. *)
Lemma all_satisfied (l : list Filter) :
  (Z.of_nat (List.length l) - tally (fun f => negb (appliesTo f cp)) l
   <=? tally (fun f => appliesTo f cp && ruleMatches true pokemon f) l)
  = forallb (satisfies pokemon cp) l.
Proof.
  assert (H : tally (fun f => appliesTo f cp && ruleMatches true pokemon f) l
              + tally (fun f => negb (appliesTo f cp)) l <= Z.of_nat (List.length l)
              /\ (tally (fun f => appliesTo f cp && ruleMatches true pokemon f) l
                  + tally (fun f => negb (appliesTo f cp)) l = Z.of_nat (List.length l)
                  <-> forallb (satisfies pokemon cp) l = true)).
  { induction l as [|f l (IH1 & IH2)].
    - unfold tally. cbn. split; [lia|]. split; auto.
    - rewrite !tally_cons. cbn [List.length forallb]. rewrite Nat2Z.inj_succ.
      unfold satisfies at 1.
      destruct (appliesTo f cp), (ruleMatches true pokemon f); cbn [andb negb orb];
        (split; [lia|]); rewrite <- ?IH2; split; intros; try lia; try discriminate. }
  destruct H as (H1 & H2).
  destruct (forallb (satisfies pokemon cp) l).
  - apply Z.leb_le. destruct H2 as (_ & H2). specialize (H2 eq_refl). lia.
  - apply Z.leb_gt. destruct (Z.eq_dec
      (tally (fun f => appliesTo f cp && ruleMatches true pokemon f) l
       + tally (fun f => negb (appliesTo f cp)) l) (Z.of_nat (List.length l))) as [E|E].
    + apply H2 in E. discriminate.
    + lia.
Qed.

Lemma exclude_pass (len : Z) (l : list Filter) (st : Counters) :
  0 < len ->
  let st' := fold_left (filterStep pokemon cp false len) l st in
  includeIdFilter st' = includeIdFilter st
  /\ (existsb (excludedBy pokemon cp) l = true -> filtersMatched st < filtersMatched st')
  /\ (existsb (excludedBy pokemon cp) l = false -> filtersMatched st' = filtersMatched st).
Proof.
  intros Hlen. revert st. induction l as [|f l IH]; intros st; cbv zeta.
  - simpl. repeat split; auto. discriminate.
  - cbn [fold_left existsb].
    destruct (filterStep_exclude len st f Hlen) as (Hf & Hyes & Hno).
    destruct (IH (filterStep pokemon cp false len st f)) as (Hf' & Hyes' & Hno').
    pose proof (fold_filterStep_matched pokemon cp false len l
                  (filterStep pokemon cp false len st f) ltac:(lia)) as Hmono.
    split; [congruence|]. split.
    + intros H. apply orb_true_iff in H. destruct (excludedBy pokemon cp f) eqn:E.
      * specialize (Hyes eq_refl). lia.
      * destruct H as [H|H]; [discriminate|]. specialize (Hno eq_refl). specialize (Hyes' H). lia.
    + intros H. apply orb_false_iff in H. destruct H as (H1 & H2).
      rewrite (Hno' H2). now apply Hno.
Qed.

(** The exclude pass leaves [allowed] alone when the identity flag is set or
    no rule strikes, and clears it otherwise. *)
Lemma listStep_exclude (allowed flag : bool) (exclude : list Filter) :
  listStep pokemon cp (allowed, flag) (false, exclude)
  = (allowed && (flag || negb (existsb (excludedBy pokemon cp) exclude)), flag).
Proof.
  destruct exclude as [|f exclude]; [destruct allowed, flag; reflexivity|].
  remember (f :: exclude) as l eqn:El.
  assert (Hlen : 0 < Z.of_nat (List.length l)) by (subst l; cbn [List.length]; lia).
  unfold listStep. cbn [negb andb].
  destruct (exclude_pass (Z.of_nat (List.length l)) l
              {| filtersMatched := 0; requiredFilters := Z.of_nat (List.length l);
                 includeIdFilter := flag |} Hlen) as (Hf & Hyes & Hno).
  cbv zeta in Hf, Hyes, Hno. cbn [filtersMatched includeIdFilter] in Hf, Hyes, Hno.
  set (c := fold_left _ l _) in *.
  rewrite Hf. destruct (existsb (excludedBy pokemon cp) l).
  - specialize (Hyes eq_refl).
    replace (0 <? filtersMatched c) with true by (symmetry; apply Z.ltb_lt; lia).
    destruct allowed, flag; reflexivity.
  - rewrite (Hno eq_refl). destruct allowed, flag; reflexivity.
Qed.

(** X13.  An include list without [id] rules: the contestant is allowed exactly
    when it meets every include rule that applies to the league and no
    exclude rule that applies to the league; a rule scoped to other leagues
    asks for nothing and strikes nobody. *)
Theorem checkFilters_decision (include exclude : list Filter) :
  (forall f, In f include -> isIdRule f = false) ->
  checkFilters pokemon include exclude cp
  = forallb (satisfies pokemon cp) include
    && negb (existsb (excludedBy pokemon cp) exclude).
Proof.
  intros Hid. unfold checkFilters. cbn [fold_left].
  assert (Hinc : listStep pokemon cp (false, false) (true, include)
                 = (forallb (satisfies pokemon cp) include, false)).
  { unfold listStep. rewrite (include_pass_plain true _ include _ Hid).
    cbn [filtersMatched requiredFilters includeIdFilter negb andb].
    rewrite Z.add_0_l, all_satisfied.
    now destruct (forallb (satisfies pokemon cp) include). }
  rewrite Hinc, listStep_exclude. reflexivity.
Qed.

(** X14.  An include list made of [id] rules only.  A single rule that applies to
    the league allows the contestants it names and no other.  Two rules or
    more ask for nothing: every contestant is allowed, named or not, unless
    an exclude rule strikes a contestant that no rule names. *)
Theorem id_only_include (include : list Filter) :
  (forall f, In f include -> isIdRule f = true) ->
  (forall f, include = [f] -> appliesTo f cp = true ->
     checkFilters pokemon include [] cp = idMatch pokemon cp f)
  /\ ((1 < List.length include)%nat -> checkFilters pokemon include [] cp = true).
Proof.
  intros Hid. split.
  - intros f -> Happ. unfold checkFilters, listStep, idMatch, filterStep. simpl.
    rewrite skip_appliesTo, Happ. simpl.
    specialize (Hid f (or_introl eq_refl)). unfold isIdRule in Hid.
    destruct (kind f); try discriminate. simpl.
    destruct (includes values _ || includes values (speciesId pokemon)); reflexivity.
  - intros Hlen. unfold checkFilters. cbn [fold_left].
    set (res := listStep pokemon cp (false, false) (true, include)).
    rewrite (surjective_pairing res), listStep_exclude.
    cbn [existsb negb fst]. rewrite orb_true_r, andb_true_r.
    unfold res, listStep. cbn [fst andb].
    set (len := Z.of_nat (List.length include)).
    assert (Hreq : forall l st,
               (forall f, In f l -> isIdRule f = true) ->
               requiredFilters (fold_left (filterStep pokemon cp true len) l st)
               = requiredFilters st - Z.of_nat (List.length l)).
    { induction l as [|f l IH]; intros st Hl; [simpl; lia|].
      cbn [fold_left List.length]. rewrite IH by (intros x Hx; apply Hl; now right).
      rewrite Nat2Z.inj_succ. unfold filterStep. rewrite skip_appliesTo.
      specialize (Hl f (or_introl eq_refl)). unfold isIdRule in Hl.
      destruct (appliesTo f cp); simpl; [|lia].
      destruct (kind f); try discriminate.
      replace (1 <? len) with true by (symmetry; apply Z.ltb_lt; unfold len; lia).
      simpl. destruct (includes values _ || includes values (speciesId pokemon)); simpl; lia. }
    pose proof (Hreq include {| filtersMatched := 0; requiredFilters := len;
                                includeIdFilter := false |} Hid) as Hr.
    pose proof (fold_filterStep_matched pokemon cp true len include
                  {| filtersMatched := 0; requiredFilters := len; includeIdFilter := false |}
                  ltac:(unfold len; lia)) as Hm.
    simpl in Hr, Hm. set (c := fold_left _ include _) in *.
    replace (requiredFilters c <=? filtersMatched c) with true
      by (symmetry; apply Z.leb_le; unfold len in *; lia).
    reflexivity.
Qed.

End FilterDecision.

(** ** The shape of the simulation's result *)

Lemma map_imap {A B C : Type} (g : B -> C) (f : nat -> A -> B) (l : list A) (k : nat) :
  map g (imap f l k) = imap (fun n x => g (f n x)) l k.
Proof. revert k. induction l as [|x l IH]; intros k; simpl; [reflexivity|]. now rewrite IH. Qed.

Lemma imap_const {A B : Type} (f : A -> B) (l : list A) (k : nat) :
  imap (fun _ x => f x) l k = map f l.
Proof. revert k. induction l as [|x l IH]; intros k; simpl; [reflexivity|]. now rewrite IH. Qed.

Lemma list_sum_imap_const {A : Type} (c : nat) (l : list A) (k : nat) :
  list_sum (imap (fun _ _ => c) l k) = (List.length l * c)%nat.
Proof.
  revert k. induction l as [|x l IH]; intros k; [reflexivity|].
  cbn [imap List.length]. change (list_sum (?a :: ?l)) with (a + list_sum l)%nat.
  rewrite IH. lia.
Qed.

Section ShapeFacts.

Import Orchestrator Pairings.

Variable simulate : Resolver.
Variable scenario : Scenario.
Variables pokemonList targets : list Pokemon.

Lemma simulateAll_ids :
  map rankSpeciesId (fst (simulateAll simulate scenario pokemonList targets))
  = map speciesId pokemonList.
Proof.
  rewrite simulateAll_table. cbn [fst].
  rewrite map_imap, <- (imap_const speciesId pokemonList 0).
  apply imap_ext_in. reflexivity.
Qed.

(** X4.  The rankings the simulation loop builds follow the pool: one ranking for
    every candidate, in the order of the pool and under its identity; every
    ranking holds one match for every target, in the order of the targets and
    under the target's identity, and starts with one score, the first
    average. *)
Theorem simulateAll_shape :
  let rankings := fst (simulateAll simulate scenario pokemonList targets) in
  map rankSpeciesId rankings = map speciesId pokemonList
  /\ forall r, In r rankings ->
       map opponent (matches r) = map speciesId targets
       /\ scores r = [rankRating r].
Proof.
  cbv zeta. split; [apply simulateAll_ids|].
  rewrite simulateAll_table. cbn [fst].
  intros r Hr. apply In_nth_error in Hr. destruct Hr as (i & Hi).
  rewrite nth_error_imap in Hi.
  destruct (nth_error pokemonList i) as [p|]; [|discriminate].
  injection Hi as <-. unfold rankObjOf. cbn [matches scores rankRating]. split; [|reflexivity].
  unfold row. rewrite map_imap. rewrite <- (imap_const speciesId targets 0).
  apply imap_ext_in. intros n o _. unfold cell.
  destruct (reuses scenario pokemonList targets i (0 + n)); [reflexivity|].
  unfold fresh, simulateMatch. now destruct (winMultipliers _ _).
Qed.

(** X5.  Outside the symmetric case (pool and targets of different sizes, or
    sides that start with different shields or energy) nothing is reused:
    every pairing is simulated, and the resolver is called once for every
    candidate and target. *)
Theorem asymmetric_pairings_simulated :
  symmetric scenario pokemonList targets = false ->
  snd (simulateAll simulate scenario pokemonList targets)
  = (List.length pokemonList * List.length targets)%nat
  /\ forall i n p o r,
       nth_error pokemonList i = Some p -> nth_error targets n = Some o ->
       nth_error (fst (simulateAll simulate scenario pokemonList targets)) i = Some r ->
       nth_error (matches r) n = Some (simulateMatch simulate scenario p o).
Proof.
  intros Hsym. rewrite simulateAll_table. cbn [fst snd]. split.
  - unfold totalBattles.
    rewrite (imap_ext_in _ (fun _ (_ : Pokemon) => List.length targets)).
    + apply list_sum_imap_const.
    + intros n x _. unfold rowBattles, reuses. rewrite Hsym. cbn [andb].
      rewrite list_sum_imap_const. lia.
  - intros i n p o r Hp Ho Hr. rewrite nth_error_imap, Hp in Hr. injection Hr as <-.
    unfold rankObjOf, row. cbn [matches]. rewrite nth_error_imap, Ho. cbn [option_map].
    unfold cell, reuses. now rewrite Hsym.
Qed.

End ShapeFacts.

(** ** Starting energy *)

(** X7.  [setEnergyAdvantage] for a fast move that gains energy and has a
    positive cooldown: the starting energy lies in [[0, 100]], grows with the
    energy-turns, and is at least one fast move's gain (capped at 100) as
    soon as the turns are not 0. *)
Theorem start_energy_bounds (pokemon : Pokemon) (turns turns' : Z) :
  0 <= energyGain (fastMove pokemon) -> 0 < cooldown (fastMove pokemon) ->
  0 <= turns <= turns' ->
  0 <= Orchestrator.setEnergyAdvantage pokemon turns
       <= Orchestrator.setEnergyAdvantage pokemon turns'
  /\ Orchestrator.setEnergyAdvantage pokemon turns' <= 100
  /\ (0 < turns ->
      Z.min (energyGain (fastMove pokemon)) 100 <= Orchestrator.setEnergyAdvantage pokemon turns).
Proof.
  intros Hgain Hcool Hturns. unfold Orchestrator.setEnergyAdvantage.
  set (g := energyGain (fastMove pokemon)) in *. set (c := cooldown (fastMove pokemon)) in *.
  assert (Hdiv : turns * 500 / c <= turns' * 500 / c) by (apply Z.div_le_mono; lia).
  destruct (Z.eqb_spec turns 0) as [E|E], (Z.eqb_spec turns' 0) as [E'|E']; try lia.
  - assert (H1 : g * 1 <= g * Z.max 1 (turns * 500 / c)) by (apply Z.mul_le_mono_nonneg_l; lia).
    assert (H2 : g * Z.max 1 (turns * 500 / c) <= g * Z.max 1 (turns' * 500 / c))
      by (apply Z.mul_le_mono_nonneg_l; lia).
    lia.
Qed.

(** ** Key matchups *)

Lemma filter_perm_length {A : Type} (keep : A -> bool) (l l' : list A) :
  Permutation l l' -> List.length (filter keep l) = List.length (filter keep l').
Proof.
  induction 1 as [|x l l' _ IH|x y l|l l' l'' _ IH1 _ IH2]; simpl; auto.
  - destruct (keep x); simpl; auto.
  - destruct (keep x), (keep y); reflexivity.
  - congruence.
Qed.

Lemma firstn_In {A : Type} (n : nat) (l : list A) (x : A) : In x (firstn n l) -> In x l.
Proof.
  revert n. induction l as [|y l IH]; intros [|n]; simpl; try tauto.
  intros [H|H]; [now left|right; eauto].
Qed.

Lemma collect_map_inv {A B : Type} (f : A -> option B) (l : list A) (r : list B) :
  collect (map f l) = Some r -> Forall2 (fun a b => f a = Some b) l r.
Proof.
  revert r. induction l as [|a l IH]; intros r H.
  - simpl in H. injection H as <-. constructor.
  - simpl in H. destruct (f a) as [b|] eqn:Hb; [|discriminate].
    destruct (collect (map f l)) as [r'|]; [|discriminate].
    simpl in H. injection H as <-. constructor; auto.
Qed.

Lemma StronglySorted_impl {A : Type} (R S : A -> A -> Prop) (l : list A) :
  (forall a b, R a b -> S a b) -> StronglySorted R l -> StronglySorted S l.
Proof.
  intros H Hs. induction Hs as [|x l _ IH Hx]; constructor; auto.
  rewrite Forall_forall in *. auto.
Qed.

Section PickFacts.

Import KeyMatchups.

Variable keep : Match -> bool.

Lemma pick_firstn (limit count : nat) (ms : list Match) :
  pick keep limit count ms
  = firstn (Nat.max 1 (limit - count)) (map (fun m => (opponent m, rating m)) (filter keep ms)).
Proof.
  revert count. induction ms as [|m ms IH]; intros count; cbn [pick filter map].
  - now rewrite firstn_nil.
  - destruct (keep m); [|apply IH]. cbn [map].
    destruct (Nat.leb_spec limit (Datatypes.S count)) as [Hle|Hgt].
    + replace (Nat.max 1 (limit - count)) with 1%nat by lia. reflexivity.
    + rewrite IH.
      replace (Nat.max 1 (limit - count))
        with (Datatypes.S (Nat.max 1 (limit - Datatypes.S count))) by lia.
      reflexivity.
Qed.

(** Up to 5 of the matches that pass [keep], when the limit is
    [min(5, matches.length)] of a list that holds them all. *)
Lemma pick_length (ms all : list Match) :
  (List.length ms = List.length all)%nat ->
  List.length (pick keep (Nat.min 5 (List.length all)) 0 ms)
  = Nat.min 5 (List.length (filter keep ms)).
Proof.
  intros Hlen. rewrite pick_firstn, length_firstn, length_map.
  pose proof (filter_length_le keep ms). lia.
Qed.

Lemma pick_In (limit count : nat) (ms : list Match) (c : string * Z) :
  In c (pick keep limit count ms) ->
  exists m, In m ms /\ keep m = true /\ c = (opponent m, rating m).
Proof.
  rewrite pick_firstn. intros H. apply firstn_In in H. apply in_map_iff in H.
  destruct H as (m & <- & Hm). apply filter_In in Hm. destruct Hm. now exists m.
Qed.

End PickFacts.

(** X11.  [setKeyMatchups]: the counters are up to 5 of the lost matches (raw
    rating under 500), all of them when there are at most 5, in ascending
    order of the rating; the matchups are up to 5 of the won matches (raw
    rating over 500), in descending order; a match at exactly 500 is in
    neither list. *)
Theorem key_matchups (ms : list Match) (counters matchups : list (string * Z)) :
  KeyMatchups.setKeyMatchups ms = Some (counters, matchups) ->
  List.length counters = Nat.min 5 (List.length (filter (fun m => rating m <? 500) ms))
  /\ List.length matchups = Nat.min 5 (List.length (filter (fun m => 500 <? rating m) ms))
  /\ (forall c, In c counters ->
        snd c < 500 /\ exists m, In m ms /\ c = (opponent m, rating m))
  /\ (forall c, In c matchups ->
        500 < snd c /\ exists m, In m ms /\ c = (opponent m, rating m))
  /\ StronglySorted (fun a b => snd a <= snd b) counters
  /\ StronglySorted (fun a b => snd b <= snd a) matchups.
Proof.
  unfold KeyMatchups.setKeyMatchups.
  destruct (collect _) as [keyed|] eqn:Hk; [|discriminate]. cbn [obind].
  set (lim := Nat.min 5 (List.length ms)).
  intros H. injection H as <- <-. subst lim.
  apply collect_map_inv in Hk.
  assert (Hfst : map (fun x : Match * Q * Q => fst (fst x)) keyed = ms).
  { clear -Hk. induction Hk as [|m x ms keyed Hx _ IH]; simpl; [reflexivity|].
    destruct (score m); [|discriminate]. destruct (opScore m); [|discriminate].
    simpl in Hx. injection Hx as <-. simpl. now rewrite IH. }
  set (byOp := sortBy (fun x : Match * Q * Q => snd x) keyed).
  set (bySc := sortBy (fun x : Match * Q * Q => snd (fst x)) byOp).
  assert (Hop : Permutation (map (fun x : Match * Q * Q => fst (fst x)) byOp) ms).
  { rewrite <- Hfst. apply Permutation_map, sortBy_perm. }
  assert (Hsc : Permutation (map (fun x : Match * Q * Q => fst (fst x)) bySc) ms).
  { rewrite <- Hop. apply Permutation_map, sortBy_perm. }
  split; [|split; [|split; [|split; [|split]]]].
  - rewrite sortBy_length, pick_length by (now rewrite (Permutation_length Hop)).
    f_equal. now apply filter_perm_length.
  - rewrite sortBy_length, pick_length by (now rewrite (Permutation_length Hsc)).
    f_equal. now apply filter_perm_length.
  - intros c Hc. apply (Permutation_in _ (sortBy_perm _ _)) in Hc.
    apply pick_In in Hc. destruct Hc as (m & Hm & Hkeep & ->). simpl. split.
    + now apply Z.ltb_lt.
    + exists m. split; [|reflexivity]. now apply (Permutation_in _ Hop).
  - intros c Hc. apply (Permutation_in _ (sortBy_perm _ _)) in Hc.
    apply pick_In in Hc. destruct Hc as (m & Hm & Hkeep & ->). simpl. split.
    + now apply Z.ltb_lt.
    + exists m. split; [|reflexivity]. now apply (Permutation_in _ Hsc).
  - generalize (sortBy_sorted (fun c : string * Z => inject_Z (- snd c))
                 (KeyMatchups.pick (fun m => rating m <? 500) (Nat.min 5 (List.length ms)) 0
                    (map (fun x : Match * Q * Q => fst (fst x)) byOp))).
    apply StronglySorted_impl. intros a b Hab. unfold descending in Hab.
    rewrite <- Zle_Qle in Hab. lia.
  - generalize (sortBy_sorted (fun c : string * Z => inject_Z (snd c))
                 (KeyMatchups.pick (fun m => 500 <? rating m) (Nat.min 5 (List.length ms)) 0
                    (map (fun x : Match * Q * Q => fst (fst x)) bySc))).
    apply StronglySorted_impl. intros a b Hab. unfold descending in Hab.
    now rewrite <- Zle_Qle in Hab.
Qed.

(** ** The move usage table *)

Section UsageFacts.

Import MoveUsageTable.

Lemma fold_addUsage (usages : list (list (string * Q))) (table : list (string * Q)) :
  fold_left addUsage usages table
  = map (fun fm => (fst fm,
                    fold_left (fun acc u => match findUsage (fst fm) u with
                                            | Some x => (acc + snd x)%Q
                                            | None => acc
                                            end) usages (snd fm))) table.
Proof.
  revert table. induction usages as [|u usages IH]; intros table.
  - simpl. rewrite <- (map_id table) at 1. apply map_ext. now intros [id uses].
  - cbn [fold_left]. rewrite IH. unfold addUsage. rewrite map_map. apply map_ext.
    intros [id uses]. simpl. now destruct (findUsage id u).
Qed.

Lemma fold_uses (id : string) (usages : list (list (string * Q))) (acc : Q) :
  (fold_left (fun acc u => match findUsage id u with
                           | Some x => (acc + snd x)%Q
                           | None => acc
                           end) usages acc
   == acc + Qsum (map (usesIn id) usages))%Q.
Proof.
  revert acc. induction usages as [|u usages IH]; intros acc.
  - unfold Qsum. simpl. ring.
  - cbn [fold_left map]. rewrite IH. unfold Qsum, usesIn. simpl.
    destruct (findUsage id u); ring.
Qed.

(** X12.  The usage table lists the moves of the pool, each once for each time
    the pool lists it, in descending order of the uses; the uses of a move
    are the sum over the matches of the uses the match lists for it, a match
    that does not list the move adding nothing. *)
Theorem move_usage_table (movePool : list string) (usages : list (list (string * Q))) :
  let table := aggregate movePool usages in
  Permutation (map fst table) movePool
  /\ StronglySorted (descending (fun fm : string * Q => snd fm)) table
  /\ forall fm, In fm table ->
       In (fst fm) movePool /\ (snd fm == Qsum (map (usesIn (fst fm)) usages))%Q.
Proof.
  cbv zeta. unfold aggregate. rewrite fold_addUsage, map_map. cbn [fst snd].
  set (table := map _ movePool).
  assert (Hfst : map fst table = movePool).
  { unfold table. rewrite map_map. cbn [fst]. apply map_id. }
  split; [|split].
  - apply Permutation_trans with (map fst table); [apply Permutation_map, sortBy_perm|].
    now rewrite Hfst.
  - apply sortBy_sorted.
  - intros fm Hfm. apply (Permutation_in _ (sortBy_perm _ _)) in Hfm.
    unfold table in Hfm. apply in_map_iff in Hfm. destruct Hfm as (id & <- & Hid).
    cbn [fst snd]. split; [assumption|]. rewrite fold_uses. ring.
Qed.

End UsageFacts.

(** ** [rank], end to end *)

Lemma map_nth_error_ext {A B : Type} (f : A -> B) (l l' : list A) :
  List.length l' = List.length l ->
  (forall i x, nth_error l i = Some x -> exists y, nth_error l' i = Some y /\ f y = f x) ->
  map f l' = map f l.
Proof.
  revert l'. induction l as [|x l IH]; intros [|y l'] Hlen H; try discriminate; [reflexivity|].
  simpl. f_equal.
  - destruct (H 0%nat x eq_refl) as (y' & Hy & Hf). simpl in Hy. now injection Hy as <-.
  - apply IH; [simpl in Hlen; lia|]. intros i z Hz. exact (H (Datatypes.S i) z Hz).
Qed.

Lemma scaleRankings_ids (entries : list Entry) :
  Permutation (map entrySpeciesId (Finalizer.scaleRankings entries)) (map entrySpeciesId entries).
Proof.
  unfold Finalizer.scaleRankings. rewrite map_map. cbn [withScore entrySpeciesId].
  rewrite sortDesc_sortBy.
  change (map (fun x => entrySpeciesId x) (sortBy entryScore entries))
    with (map entrySpeciesId (sortBy entryScore entries)).
  apply Permutation_map, sortBy_perm.
Qed.

Section RankFacts.

Variable simulate : Resolver.
Variable pow : Q -> Q -> Q.
Variables pokemonList targets : list Pokemon.
Variable cupName : string.
Variable battleCP : Z.
Variable scenario : Scenario.

(** X10.  [rank] for a cup that is not [custom] (one solver pass) and a scenario
    that is not [chargers]: when the first averages are fit for the pass (a
    best average that is not 0, targets that carry a weight modifier and are
    no more than the pool), [rank] returns, and returns one entry for every
    candidate of the pool, under its identity and with its first average as
    [rating]. *)
Theorem rank_one_entry_per_candidate :
  cupName <> "custom"%string ->
  slug scenario <> "chargers"%string ->
  Scoring.ready pokemonList targets 0
    (fst (Orchestrator.simulateAll simulate scenario pokemonList targets)) = true ->
  exists final,
    Finalizer.rank pow simulate pokemonList targets cupName battleCP scenario = Some final
    /\ Permutation (map entrySpeciesId final) (map speciesId pokemonList)
    /\ List.length final = List.length pokemonList.
Proof.
  intros Hcup Hslug Hready. unfold Finalizer.rank.
  set (rankings := fst (Orchestrator.simulateAll simulate scenario pokemonList targets)) in *.
  pose proof (simulateAll_ids simulate scenario pokemonList targets) as Hids.
  fold rankings in Hids.
  destruct (ready_inv pokemonList targets 0 rankings Hready)
    as (best & Hbest & Hnz & Hlen & Hpair).
  destruct (weightPass_scores pow pokemonList targets scenario cupName battleCP
              0 best rankings Hbest Hnz Hlen Hpair) as (rs & Hpass & Hlen' & Hscores).
  assert (Hsolve : Solver.weightMatchups pow pokemonList targets scenario cupName battleCP rankings
                   = Some rs).
  { unfold Solver.weightMatchups, Solver.iterations.
    destruct (String.eqb_spec cupName "custom"); [contradiction|].
    cbn [seq Solver.passes]. rewrite Hpass. reflexivity. }
  rewrite Hsolve. cbn [obind].
  assert (Hview : forall i r, nth_error rankings i = Some r ->
             exists r', nth_error rs i = Some r'
                        /\ rankSpeciesId r' = rankSpeciesId r /\ scores r' <> []).
  { intros i r Hr.
    assert (Hi : (i < List.length rankings)%nat) by (apply nth_error_Some; congruence).
    destruct (nth_error pokemonList i) as [p|] eqn:Hp.
    2:{ apply nth_error_None in Hp. lia. }
    destruct (Hpair r (nth_error_In _ _ Hr)) as (l & Hl & _).
    destruct (Hscores i r p l Hr Hp Hl) as (r' & Hr' & Hsc & _ & Hid & _).
    exists r'. repeat split; auto. rewrite Hsc. now destruct (scores r). }
  assert (Hids' : map rankSpeciesId rs = map rankSpeciesId rankings).
  { apply map_nth_error_ext; [assumption|]. intros i r Hr.
    destruct (Hview i r Hr) as (r' & Hr' & Hid & _). now exists r'. }
  assert (Hsc : forall r', In r' rs -> scores r' <> []).
  { intros r' Hr'. apply In_nth_error in Hr'. destruct Hr' as (i & Hi).
    assert (Hlt : (i < List.length rankings)%nat).
    { rewrite <- Hlen'. apply nth_error_Some. congruence. }
    destruct (nth_error rankings i) as [r|] eqn:Hr.
    2:{ apply nth_error_None in Hr. lia. }
    destruct (Hview i r Hr) as (r'' & Hr'' & _ & Hne). congruence. }
  destruct (finalEntries_plain pow scenario Hslug rs pokemonList ltac:(lia) Hsc)
    as (es & Hes & Hall).
  assert (Hes_ids : map entrySpeciesId es = map rankSpeciesId rs).
  { clear -Hall. induction Hall as [|r e rs es (H & _) _ IH]; simpl; congruence. }
  exists (Finalizer.scaleRankings es). unfold Finalizer.finalizeRankings. rewrite Hes.
  split; [reflexivity|].
  assert (Hperm : Permutation (map entrySpeciesId (Finalizer.scaleRankings es))
                              (map speciesId pokemonList)).
  { rewrite scaleRankings_ids, Hes_ids, Hids'. now rewrite Hids. }
  split; [exact Hperm|].
  apply Permutation_length in Hperm. now rewrite !length_map in Hperm.
Qed.

End RankFacts.

(** ** The overall ranking *)

Lemma find_In_some {A : Type} (f : A -> bool) (l : list A) (x : A) :
  In x l -> f x = true -> exists y, find f l = Some y.
Proof.
  intros Hx Hf. destruct (find f l) as [y|] eqn:E; [now exists y|].
  exfalso. pose proof (find_none f l E x Hx). congruence.
Qed.

Lemma scaleRound_mono (h s t : Q) :
  (0 < h)%Q -> (s <= t)%Q -> (Overall.scaleRound h s <= Overall.scaleRound h t)%Q.
Proof.
  intros Hh Hst. unfold Overall.scaleRound, jsRound. apply inject_Z_div10.
  apply Qfloor_resp_le. apply Qplus_le_compat; [|lra].
  apply Qmult_le_compat_r; [|discriminate].
  apply Qmult_le_compat_r; [assumption|]. apply Qinv_le_0_compat. lra.
Qed.

Lemma scaleRound_top (h : Q) : (0 < h)%Q -> (Overall.scaleRound h h == 100)%Q.
Proof.
  intros Hh. unfold Overall.scaleRound, jsRound.
  assert (E : (h / h * 1000 + (1 # 2) == inject_Z 1000 + (1 # 2))%Q) by (field; lra).
  rewrite (Qfloor_comp _ _ E).
  assert (F : Qfloor (inject_Z 1000 + (1 # 2)) = 1000) by reflexivity.
  rewrite F. reflexivity.
Qed.

Lemma scaleRound_zero (h : Q) : (Overall.scaleRound h 0 == 0)%Q.
Proof.
  unfold Overall.scaleRound, jsRound.
  assert (E : (0 / h * 1000 + (1 # 2) == 1 # 2)%Q) by (unfold Qdiv; ring).
  rewrite (Qfloor_comp _ _ E). reflexivity.
Qed.

(** What the sort and a scaling by the highest score do to scores that are
    not negative, for a scaling that is monotone, sends the highest score to
    100 and 0 to 0. *)
Lemma scaled_by_highest (scale : Q -> Q -> Q) (entries : list Entry) :
  (forall h s t, (0 < h)%Q -> (s <= t)%Q -> (scale h s <= scale h t)%Q) ->
  (forall h, (0 < h)%Q -> (scale h h == 100)%Q) ->
  (forall h, (scale h 0 == 0)%Q) ->
  (forall e, In e entries -> (0 <= entryScore e)%Q) ->
  let sorted := sortDesc entries in
  let final := map (fun e => withScore e (scale (highestScore sorted) (entryScore e))) sorted in
  Permutation (map entrySpeciesId final) (map entrySpeciesId entries)
  /\ StronglySorted (descending entryScore) final
  /\ (forall e, In e final -> (0 <= entryScore e <= 100)%Q)
  /\ (forall top rest, final = top :: rest ->
        (exists e, In e entries /\ (0 < entryScore e)%Q) -> (entryScore top == 100)%Q).
Proof.
  intros Hmono Htop Hzero Hpos. cbv zeta. rewrite sortDesc_sortBy.
  set (sorted := sortBy entryScore entries).
  set (h := highestScore sorted).
  assert (Hin : forall e, In e sorted -> In e entries).
  { intros e. apply Permutation_in, sortBy_perm. }
  assert (Hh : (0 < h)%Q).
  { apply highestScore_positive. intros e He. apply Hpos. now apply Hin. }
  assert (Hbound : forall e, In e sorted -> (entryScore e <= h)%Q \/ (entryScore e == 0)%Q).
  { intros e He. unfold h. destruct sorted as [|top rest] eqn:Hs; [contradiction|].
    pose proof (sortBy_head entryScore entries top rest Hs e (Hin e He)) as Hle.
    simpl. unfold jsOrQ. destruct (Qeq_bool (entryScore top) 0) eqn:E.
    - right. apply Qeq_bool_iff in E. specialize (Hpos e (Hin e He)). lra.
    - now left. }
  split; [|split; [|split]].
  - rewrite map_map. simpl.
    change (map (fun x => entrySpeciesId x) sorted) with (map entrySpeciesId sorted).
    apply Permutation_map, sortBy_perm.
  - apply (StronglySorted_map (descending entryScore)); [|apply sortBy_sorted].
    intros a b _ _ Hab. unfold descending in *. simpl. now apply Hmono.
  - intros e He. apply in_map_iff in He. destruct He as (x & <- & Hx). simpl.
    pose proof (Hzero h) as Hz. pose proof (Htop h Hh) as Ht.
    pose proof (Hmono h 0%Q (entryScore x) Hh (Hpos x (Hin x Hx))) as Hlow.
    split; [lra|].
    destruct (Hbound x Hx) as [Hle|Hz0].
    + pose proof (Hmono h (entryScore x) h Hh Hle). lra.
    + assert (Hx0 : (entryScore x <= 0)%Q) by lra.
      pose proof (Hmono h (entryScore x) 0%Q Hh Hx0). lra.
  - intros top rest Hfinal (e & He & Hepos).
    destruct sorted as [|t r] eqn:Hs; [discriminate|].
    simpl in Hfinal. injection Hfinal as <- _. simpl.
    pose proof (sortBy_head entryScore entries t r Hs e He) as Hle.
    assert (Ht : (0 < entryScore t)%Q) by lra.
    unfold h. simpl. unfold jsOrQ.
    destruct (Qeq_bool (entryScore t) 0) eqn:E.
    + apply Qeq_bool_iff in E. lra.
    + now apply Htop.
Qed.

Section OverallFacts.

Import Overall.

Variable pow : Q -> Q -> Q.
Variable loadRankingData : string -> option (list Entry).

Local Abbreviation categoryData := (categoryData loadRankingData).
Local Abbreviation baseCategory := (baseCategory loadRankingData).
Local Abbreviation gatherScores := (gatherScores loadRankingData).
Local Abbreviation overallEntries := (overallEntries pow loadRankingData).
Local Abbreviation rankOverall := (rankOverall pow loadRankingData).

Lemma categoryData_In (c : string) (data : list Entry) :
  In (c, data) categoryData <-> In c categories /\ loadRankingData c = Some data.
Proof.
  unfold Overall.categoryData. rewrite in_flat_map. split.
  - intros (c' & Hc' & Hin). destruct (loadRankingData c') as [d|] eqn:E; [|contradiction].
    destruct Hin as [Hin|[]]. injection Hin as <- <-. auto.
  - intros (Hc & Hl). exists c. split; [assumption|]. rewrite Hl. now left.
Qed.

(** No category has data exactly when [categoryData] is empty. *)
Lemma categoryData_empty :
  categoryData = [] <-> forall c, In c categories -> loadRankingData c = None.
Proof.
  split.
  - intros He c Hc. destruct (loadRankingData c) as [d|] eqn:E; [|reflexivity].
    assert (H : In (c, d) categoryData) by (apply categoryData_In; auto).
    rewrite He in H. contradiction.
  - intros Hn. destruct categoryData as [|[c d] rest] eqn:E; [reflexivity|].
    assert (H : In (c, d) categoryData) by (rewrite E; now left).
    apply categoryData_In in H. destruct H as (Hc & Hl). rewrite (Hn c Hc) in Hl. discriminate.
Qed.

(** The base category is one of the categories that have data. *)
Lemma baseCategory_In :
  categoryData <> [] -> exists c, In (c, baseCategory) categoryData.
Proof.
  intros Hne. unfold Overall.baseCategory.
  destruct (loadRankingData "leads") as [d|] eqn:E.
  - exists "leads"%string. apply categoryData_In. split; [|assumption]. now left.
  - destruct categoryData as [|[c d] rest] eqn:Hc; [congruence|].
    exists c. now left.
Qed.

Lemma gatherScores_nonempty (pd : Entry) :
  categoryData <> [] -> In pd baseCategory ->
  gatherScores (entrySpeciesId pd) <> [].
Proof.
  intros Hne Hpd. destruct (baseCategory_In Hne) as (c & Hc).
  destruct (find_In_some (fun p => String.eqb (entrySpeciesId p) (entrySpeciesId pd))
              baseCategory pd Hpd (String.eqb_refl _)) as (y & Hy).
  unfold Overall.gatherScores. intros He.
  assert (Hin : In (entryScore y)
                  (flat_map (fun cd => match findEntry (entrySpeciesId pd) (snd cd) with
                                       | Some entry => [entryScore entry]
                                       | None => []
                                       end) categoryData)).
  { apply in_flat_map. exists (c, baseCategory). split; [assumption|]. simpl.
    unfold findEntry. rewrite Hy. now left. }
  rewrite He in Hin. contradiction.
Qed.

Lemma product_positive (l : list Q) (acc : Q) :
  (0 < acc)%Q -> (0 < fold_left (fun acc s => (acc * Qmax s (1 # 10))%Q) l acc)%Q.
Proof.
  revert acc. induction l as [|s l IH]; intros acc Hacc; simpl; [assumption|].
  apply IH. apply Qmult_lt_0_compat; [assumption|].
  apply Qlt_le_trans with (1 # 10)%Q; [reflexivity|]. apply Q.le_max_r.
Qed.

Lemma overallEntries_ids :
  categoryData <> [] ->
  map entrySpeciesId overallEntries = map entrySpeciesId baseCategory.
Proof.
  intros Hne. unfold Overall.overallEntries.
  assert (H : forall pd, In pd baseCategory -> gatherScores (entrySpeciesId pd) <> [])
    by (intros pd; now apply gatherScores_nonempty).
  revert H. generalize baseCategory. intros base.
  induction base as [|pd base IH]; intros H; [reflexivity|].
  cbn [flat_map map]. rewrite map_app, IH by (intros x Hx; apply H; now right).
  unfold Overall.overallEntry.
  destruct (gatherScores (entrySpeciesId pd)) as [|s scores] eqn:E; [|reflexivity].
  exfalso. apply (H pd); [now left|assumption].
Qed.

Lemma overallEntries_positive :
  (forall b e, (0 < b)%Q -> (0 < pow b e)%Q) ->
  forall e, In e overallEntries -> (0 < entryScore e)%Q.
Proof.
  intros Hpow e He. unfold Overall.overallEntries in He.
  apply in_flat_map in He. destruct He as (pd & _ & He).
  unfold Overall.overallEntry in He.
  destruct (gatherScores (entrySpeciesId pd)) as [|s scores]; [contradiction|].
  destruct He as [<-|[]]. cbn [entryScore]. unfold geometricMean.
  apply Hpow. apply product_positive. reflexivity.
Qed.





(** X22.  [rankOverall] returns [null] exactly when it has to compute (no
    official data, or a custom cup) and no category has data; official data
    of a cup that is not custom is returned as it is. *)
Theorem rankOverall_null (official : option (list Entry)) (isCustomCup : bool) :
  (rankOverall official isCustomCup = None
   <-> (official = None \/ isCustomCup = true)
       /\ forall c, In c categories -> loadRankingData c = None)
  /\ (forall data, official = Some data -> isCustomCup = false ->
        rankOverall official isCustomCup = Some data).
Proof.
  split.
  - unfold Overall.rankOverall. rewrite <- categoryData_empty.
    destruct official as [d|], isCustomCup; destruct categoryData as [|x l];
      split; intros H; try discriminate H; try reflexivity;
      try (split; [auto|reflexivity]);
      destruct H as [Hc Hd]; try discriminate Hd;
      destruct Hc as [Hc|Hc]; discriminate Hc.
  - intros data -> ->. reflexivity.
Qed.

(** X21.  A computed overall ranking, for a [Math.pow] that is positive on a
    positive base: every candidate of the base category is ranked, once, in
    descending order of the final score; the scores lie in [[0, 100]] and
    the first is exactly 100. *)
Theorem overall_ranking (official : option (list Entry)) (isCustomCup : bool) :
  (forall b e, (0 < b)%Q -> (0 < pow b e)%Q) ->
  official = None \/ isCustomCup = true ->
  categoryData <> [] ->
  exists final,
    rankOverall official isCustomCup = Some final
    /\ Permutation (map entrySpeciesId final) (map entrySpeciesId baseCategory)
    /\ StronglySorted (descending entryScore) final
    /\ (forall e, In e final -> (0 <= entryScore e <= 100)%Q)
    /\ (forall top rest, final = top :: rest -> (entryScore top == 100)%Q).
Proof.
  intros Hpow Hcompute Hne.
  pose proof (overallEntries_ids Hne) as Hids.
  pose proof (overallEntries_positive Hpow) as Hpos.
  destruct (scaled_by_highest scaleRound overallEntries scaleRound_mono scaleRound_top
              scaleRound_zero (fun e He => Qlt_le_weak _ _ (Hpos e He)))
    as (Hperm & Hsorted & Hrange & Htop).
  exists (scaleOverall overallEntries).
  split; [|split; [|split; [|split]]].
  - unfold Overall.rankOverall.
    destruct categoryData as [|x l] eqn:E; [congruence|].
    destruct Hcompute as [-> | ->]; [reflexivity|]. now destruct official.
  - unfold scaleOverall. now rewrite <- Hids.
  - exact Hsorted.
  - exact Hrange.
  - intros top rest Hfinal. apply (Htop top rest Hfinal).
    destruct overallEntries as [|e es] eqn:E.
    + discriminate Hfinal.
    + exists e. split; [now left|]. apply Hpos. now left.
Qed.

End OverallFacts.

(** ** The consistency ranking *)

Section ConsistencyFacts.

Import Consistency.

Variable sqrt : Q -> Q.

(** X24.  The consistency ranking of one category at least: the entries are in
    descending order of the final score, every score lies in [[0, 100]]
    whatever the square root, and every entry is a candidate of the first
    category that two categories at least score. *)
Theorem consistency_ranking (base : list Entry) (others : list (list Entry)) :
  exists final,
    rankConsistency sqrt (base :: others) = Some final
    /\ StronglySorted (descending entryScore) final
    /\ forall e, In e final ->
         (0 <= entryScore e <= 100)%Q
         /\ (2 <= List.length (entryScores e))%nat
         /\ exists pd, In pd base
                       /\ entrySpeciesId e = entrySpeciesId pd
                       /\ entryScores e = gather (base :: others) (entrySpeciesId pd).
Proof.
  set (raw := flat_map (consistencyEntry sqrt (base :: others)) base).
  assert (Hraw : forall e, In e raw ->
            (0 <= entryScore e)%Q
            /\ (2 <= List.length (entryScores e))%nat
            /\ exists pd, In pd base
                          /\ entrySpeciesId e = entrySpeciesId pd
                          /\ entryScores e = gather (base :: others) (entrySpeciesId pd)).
  { intros e He. apply in_flat_map in He. destruct He as (pd & Hpd & He).
    unfold consistencyEntry in He.
    destruct (Nat.ltb_spec (List.length (gather (base :: others) (entrySpeciesId pd))) 2)
      as [Hlt|Hge]; [contradiction|].
    destruct He as [<-|[]]. cbn [entryScore entryScores entrySpeciesId].
    split; [apply Q.le_max_l|]. split; [assumption|]. now exists pd. }
  destruct (scaled_by_highest Overall.scaleRound raw scaleRound_mono scaleRound_top
              scaleRound_zero (fun e He => proj1 (Hraw e He)))
    as (_ & Hsorted & Hrange & _).
  eexists. split; [reflexivity|]. fold raw. split; [exact Hsorted|].
  intros e He. split; [now apply Hrange|].
  apply in_map_iff in He. destruct He as (x & <- & Hx).
  rewrite sortDesc_sortBy in Hx. apply (Permutation_in _ (sortBy_perm _ _)) in Hx.
  destruct (Hraw x Hx) as (_ & Hlen & Hpd). now split.
Qed.

(** X25.  With a single category every candidate has one score at most: the
    consistency ranking is the empty list, not [null]; [null] is returned
    for no category at all. *)
Theorem consistency_needs_two (base : list Entry) :
  rankConsistency sqrt [base] = Some [] /\ rankConsistency sqrt [] = None.
Proof.
  split; [|reflexivity]. unfold rankConsistency.
  assert (H : flat_map (consistencyEntry sqrt [base]) base = []).
  { generalize base at 2. intros l. induction l as [|pd l IH]; simpl; [reflexivity|].
    rewrite IH, app_nil_r. unfold consistencyEntry, gather. simpl. rewrite app_nil_r.
    now destruct (Overall.findEntry (entrySpeciesId pd) base). }
  now rewrite H.
Qed.

End ConsistencyFacts.

(** ** The range of the ratings *)

Lemma rawRating_range (hp maxHp opHp opMaxHp : Z) :
  0 < maxHp -> 0 < opMaxHp -> 0 <= hp <= maxHp -> 0 <= opHp <= opMaxHp ->
  0 <= Orchestrator.rawRating hp maxHp opHp opMaxHp <= 1000
  /\ (Orchestrator.rawRating hp maxHp opHp opMaxHp = 1000 <-> hp = maxHp /\ opHp = 0).
Proof.
  intros Hm Ho Hhp Hop. unfold Orchestrator.rawRating. cbv zeta.
  set (x := ((inject_Z hp / inject_Z maxHp
              + inject_Z (opMaxHp - opHp) / inject_Z opMaxHp) * 500)%Q).
  assert (Hx : (x == inject_Z (500 * (hp * opMaxHp + (opMaxHp - opHp) * maxHp))
                     / inject_Z (maxHp * opMaxHp))%Q).
  { subst x. rewrite !inject_Z_mult, !inject_Z_plus, !inject_Z_mult.
    assert (~ inject_Z maxHp == 0)%Q by (apply inject_Z_nonzero; lia).
    assert (~ inject_Z opMaxHp == 0)%Q by (apply inject_Z_nonzero; lia).
    field. split; assumption. }
  rewrite (Qfloor_comp _ _ Hx).
  set (num := 500 * (hp * opMaxHp + (opMaxHp - opHp) * maxHp)) in *.
  set (den := maxHp * opMaxHp) in *.
  assert (Hden : 0 < den) by (subst den; nia).
  assert (Hfl : Qfloor (inject_Z num / inject_Z den) = num / den).
  { unfold Qdiv, Qinv, inject_Z. simpl. destruct den as [|d|d]; try lia.
    unfold Qfloor, Qmult. simpl. now rewrite Z.mul_1_r. }
  rewrite Hfl.
  assert (Hnum : 0 <= num <= 1000 * den) by (subst num den; nia).
  split.
  - split.
    + apply Z.div_pos; lia.
    + apply Z.div_le_upper_bound; lia.
  - split.
    + intros H1000.
      assert (1000 * den <= num).
      { pose proof (Z.mul_div_le num den Hden). lia. }
      subst num den. split; nia.
    + intros [-> ->]. subst num den.
      replace (500 * (maxHp * opMaxHp + (opMaxHp - 0) * maxHp))
        with (1000 * (maxHp * opMaxHp)) by ring.
      apply Z.div_mul; lia.
Qed.

Section RatingFacts.

Import Orchestrator.

Variable simulate : Resolver.
Variable scenario : Scenario.

(** X6.  With an outcome in range (hit points between 0 and the maximum, shields
    between 0 and the scenario's), both raw ratings lie in [[0, 1000]], and
    1000 is the rating of a side that lost no hit point and left the other
    with none; the adjusted rating is the raw one plus a bonus between 0
    and 100 times the shields at stake, and at most one side has a bonus. *)
Theorem ratings_in_range (p o : Pokemon) :
  0 < statsHp p -> 0 < statsHp o ->
  0 <= hp0 (simulate p o (fst (shields scenario)) (snd (shields scenario))
              (setEnergyAdvantage p (fst (energy scenario)))
              (setEnergyAdvantage o (snd (energy scenario)))) <= statsHp p ->
  0 <= hp1 (simulate p o (fst (shields scenario)) (snd (shields scenario))
              (setEnergyAdvantage p (fst (energy scenario)))
              (setEnergyAdvantage o (snd (energy scenario)))) <= statsHp o ->
  0 <= shields0 (simulate p o (fst (shields scenario)) (snd (shields scenario))
              (setEnergyAdvantage p (fst (energy scenario)))
              (setEnergyAdvantage o (snd (energy scenario)))) <= fst (shields scenario) ->
  0 <= shields1 (simulate p o (fst (shields scenario)) (snd (shields scenario))
              (setEnergyAdvantage p (fst (energy scenario)))
              (setEnergyAdvantage o (snd (energy scenario)))) <= snd (shields scenario) ->
  0 <= rating (simulateMatch simulate scenario p o) <= 1000
  /\ 0 <= opRating (simulateMatch simulate scenario p o) <= 1000
  /\ (rating (simulateMatch simulate scenario p o) = 1000
      <-> hp0 (simulate p o (fst (shields scenario)) (snd (shields scenario))
                 (setEnergyAdvantage p (fst (energy scenario)))
                 (setEnergyAdvantage o (snd (energy scenario)))) = statsHp p
          /\ hp1 (simulate p o (fst (shields scenario)) (snd (shields scenario))
                 (setEnergyAdvantage p (fst (energy scenario)))
                 (setEnergyAdvantage o (snd (energy scenario)))) = 0)
  /\ (exists bonus opBonus,
        adjRating (simulateMatch simulate scenario p o)
        = inject_Z (rating (simulateMatch simulate scenario p o) + bonus)
        /\ adjOpRating (simulateMatch simulate scenario p o)
           = inject_Z (opRating (simulateMatch simulate scenario p o) + opBonus)
        /\ 0 <= bonus <= 100 * (fst (shields scenario) + snd (shields scenario))
        /\ 0 <= opBonus <= 100 * (fst (shields scenario) + snd (shields scenario))
        /\ (bonus = 0 \/ opBonus = 0)).
Proof.
  set (out := simulate p o _ _ _ _). intros Hp Ho Hhp0 Hhp1 Hs0 Hs1.
  unfold simulateMatch. fold out.
  destruct (rawRating_range (hp0 out) (statsHp p) (hp1 out) (statsHp o) Hp Ho Hhp0 Hhp1)
    as [Hr Hr1000].
  destruct (rawRating_range (hp1 out) (statsHp o) (hp0 out) (statsHp p) Ho Hp Hhp1 Hhp0)
    as [Hor _].
  set (r := rawRating (hp0 out) (statsHp p) (hp1 out) (statsHp o)) in *.
  set (r' := rawRating (hp1 out) (statsHp o) (hp0 out) (statsHp p)) in *.
  unfold winMultipliers.
  destruct (r =? 500); [|destruct (r' <? r)];
    cbn [rating opRating adjRating adjOpRating fst snd];
    (split; [exact Hr|]); (split; [exact Hor|]); (split; [exact Hr1000|]);
    eexists; eexists;
    (split; [apply f_equal; rewrite <- !Z.add_assoc; reflexivity|]);
    (split; [apply f_equal; rewrite <- !Z.add_assoc; reflexivity|]);
    nia.
Qed.

End RatingFacts.

(** ** The roster *)

Lemma collect_app {A : Type} (l : list (option A)) (x : option A) :
  collect (l ++ [x]) = (r <- collect l ;; a <- x ;; Some (r ++ [a])).
Proof.
  induction l as [|y l IH]; simpl.
  - destruct x; reflexivity.
  - destruct y as [b|]; simpl; [|reflexivity]. rewrite IH.
    destruct (collect l); simpl; [|reflexivity]. destruct x; reflexivity.
Qed.

Section RosterFacts.

Import Roster.

Variable construct : string -> Pokemon.
Variable initialize : Pokemon -> Z -> Pokemon.
Variable statsDef : Pokemon -> Q.
Variable released : Pokemon -> bool.
Variable selectMove : Pokemon -> MoveSlot -> string -> Pokemon.
Variable autoSelectMoves : Pokemon -> Pokemon.
Variable cp : Z.
Variable cup : Cup.
Variable rankingData : option (list RankingDatum).
Variable overrides : list OverrideGroup.

Local Abbreviation admitted := (admitted construct initialize statsDef released cp cup).
Local Abbreviation configure :=
  (fun dataId => configure selectMove autoSelectMoves cp cup rankingData overrides
                   (initialize (construct dataId) cp)).
Local Abbreviation rosterStep :=
  (rosterStep construct initialize statsDef released selectMove autoSelectMoves
     cp cup rankingData overrides).
Local Abbreviation initPokemonList :=
  (initPokemonList construct initialize statsDef released selectMove autoSelectMoves
     cp cup rankingData overrides).

Ltac roster_atoms dataId :=
  set (q := Qltb _ (getMinStats cp)) in *;
  set (i := includeLowStatProduct cup) in *;
  set (e1 := (cp =? 1500) && _) in *;
  set (e2 := (cp =? 2500) && _) in *;
  set (e3 := (cp =? 10000) && _) in *;
  set (m := hasTag _ "mega") in *;
  set (r := released _) in *;
  set (b := (cp <? 2500) && _) in *;
  set (c := Filters.checkFilters _ _ _ _) in *.

Lemma rosterStep_skip (st : option (list Pokemon * list Pokemon)) (dataId : string) :
  admitted dataId = false -> rosterStep st dataId = st.
Proof.
  intros H. unfold Roster.rosterStep, Roster.admitted, statProduct in *.
  destruct st as [[pokemonList targets]|]; [|reflexivity]. cbn [obind].
  destruct (String.eqb (speciesName (construct dataId)) ""); [reflexivity|].
  cbn zeta in H. roster_atoms dataId.
  destruct q, i, e1, e2, e3, m, r, b; cbn [negb andb] in H |- *;
    try reflexivity; try discriminate H; now rewrite H.
Qed.

Lemma rosterStep_push (pokemonList targets : list Pokemon) (dataId : string) :
  admitted dataId = true ->
  rosterStep (Some (pokemonList, targets)) dataId
  = (final <- configure dataId ;;
     Some (pokemonList ++ [final],
           if isTarget cup final then targets ++ [final] else targets)).
Proof.
  intros H. unfold Roster.rosterStep, Roster.admitted, statProduct in *.
  cbn [obind].
  destruct (String.eqb (speciesName (construct dataId)) ""); [discriminate H|].
  cbn zeta in H. roster_atoms dataId.
  assert (Hc : c = true) by (destruct q, i, e1, e2, e3, m, r, b, c;
                             cbn [negb andb] in H; congruence).
  assert (Hgo : (if q && negb i && (negb e1 && negb e2 && negb e3 && negb m)
                 then true else if negb r then true else b) = false).
  { destruct q, i, e1, e2, e3, m, r, b; cbn [negb andb] in H |- *; congruence. }
  destruct (q && negb i && (negb e1 && negb e2 && negb e3 && negb m));
    [discriminate Hgo|].
  destruct (negb r); [discriminate Hgo|]. rewrite Hgo, Hc.
  unfold Roster.configure.
  destruct (seedMoves _ _ _ _) as [seeded|]; [|reflexivity]. cbn [obind].
  unfold isTarget. destruct (filterTargets cup); cbn [negb orb]; [|reflexivity].
  destruct (weightModifier _) as [w|]; [|reflexivity]. reflexivity.
Qed.

Lemma rosterStep_none (data : list string) :
  fold_left rosterStep data None = None.
Proof. induction data as [|d data IH]; [reflexivity|]. exact IH. Qed.

Lemma roster_fold (data : list string) (pokemonList targets : list Pokemon) :
  fold_left rosterStep data (Some (pokemonList, targets))
  = (pool <- collect (map configure (filter admitted data)) ;;
     Some (pokemonList ++ pool, targets ++ filter (isTarget cup) pool)).
Proof.
  revert pokemonList targets. induction data as [|d data IH]; intros pokemonList targets.
  - cbn. now rewrite !app_nil_r.
  - cbn [fold_left filter]. destruct (admitted d) eqn:Hd.
    + rewrite rosterStep_push by exact Hd. cbn [map collect].
      destruct (Roster.configure _ _ _ _ _ _ _) as [final|]; cbn [obind];
        [|apply rosterStep_none].
      rewrite IH. destruct (collect _) as [pool|]; cbn [obind]; [|reflexivity].
      cbn [filter]. destruct (isTarget cup final);
        now rewrite <- ?app_assoc.
    + rewrite rosterStep_skip by exact Hd. apply IH.
Qed.


(** X16.  The targets are drawn from the pool: never more of them than of pool
    members, each one a pool member, and all of the pool when the cup does
    not filter its targets. *)
Theorem targets_within_pool (data : list string) (pokemonList targets : list Pokemon) :
  initPokemonList data = Some (pokemonList, targets) ->
  (List.length targets <= List.length pokemonList <= List.length data)%nat
  /\ (forall t, In t targets -> In t pokemonList)
  /\ (filterTargets cup = false -> targets = pokemonList).
Proof.
  unfold Roster.initPokemonList. rewrite roster_fold.
  destruct (collect _) as [pool|] eqn:Hpool; [|discriminate]. cbn [obind app].
  intros H. injection H as <- <-. split; [split|split].
  - apply filter_length_le.
  - assert (Hlen : List.length pool = List.length (filter admitted data)).
    { clear -Hpool. revert pool Hpool.
      induction (filter admitted data) as [|d l IH]; intros pool Hpool.
      - injection Hpool as <-. reflexivity.
      - cbn [map collect] in Hpool.
        destruct (Roster.configure _ _ _ _ _ _ _); [|discriminate Hpool].
        cbn [obind] in Hpool. destruct (collect _) as [r|]; [|discriminate Hpool].
        injection Hpool as <-. simpl. now rewrite (IH r). }
    rewrite Hlen. apply filter_length_le.
  - intros t Ht. now apply filter_In in Ht.
  - intros Hf. unfold isTarget. rewrite Hf. cbn [negb orb].
    clear. induction pool as [|x pool IH]; [reflexivity|]. cbn [filter]. now rewrite IH.
Qed.


(** X18.  Below 2500 a contestant of the banned list leaves no trace in the
    roster, whatever the cup's rules say; from 2500 on the banned list is
    not read. *)
Theorem banned_below_2500 (before after : list string) (dataId : string) :
  cp < 2500 ->
  In (speciesId (initialize (construct dataId) cp)) getBannedList ->
  initPokemonList (before ++ dataId :: after) = initPokemonList (before ++ after).
Proof.
  intros Hcp Hban. unfold Roster.initPokemonList.
  rewrite !fold_left_app. cbn [fold_left]. f_equal.
  apply rosterStep_skip. unfold Roster.admitted.
  assert (Hin : includes getBannedList (speciesId (initialize (construct dataId) cp)) = true).
  { unfold includes. apply existsb_exists. eexists. split; [exact Hban|].
    apply String.eqb_refl. }
  rewrite Hin. apply Z.ltb_lt in Hcp. rewrite Hcp. cbn [negb andb].
  now rewrite andb_false_r.
Qed.

(** X19.  Overrides loaded for a league and a cup reach a contestant of that
    league and cup through the first entry that names it, and only that one;
    the weight of that entry, when it has one, is the weight the contestant
    ends with, whatever its moves were set to.  Loaded for another league or
    cup, they change nothing. *)
Theorem loaded_overrides_apply (overrideData : list Override) (league league' : Z)
    (cupName' name : string) (pokemon : Pokemon) :
  applyOverrides selectMove (loadOverrides (Some overrideData) league name) pokemon league name
    = match find (fun o => String.eqb (ovSpeciesId o) (speciesId pokemon)) overrideData with
      | Some o => applyOverride selectMove pokemon o
      | None => pokemon
      end
  /\ (forall o w,
        find (fun o => String.eqb (ovSpeciesId o) (speciesId pokemon)) overrideData = Some o ->
        ovWeight o = Some w ->
        weightModifier (applyOverrides selectMove (loadOverrides (Some overrideData) league name)
                          pokemon league name) = Some w)
  /\ (league' <> league \/ cupName' <> name ->
        applyOverrides selectMove (loadOverrides (Some overrideData) league name)
          pokemon league' cupName' = pokemon).
Proof.
  unfold loadOverrides, applyOverrides.
  destruct overrideData as [|o0 rest].
  - cbn. repeat split; intros; try discriminate; reflexivity.
  - remember (o0 :: rest) as l eqn:Hl. clear Hl.
    cbn [find ogLeague ogCup ogPokemon]. rewrite Z.eqb_refl, String.eqb_refl. cbn [andb].
    split; [reflexivity|]. split.
    + intros o w Ho Hw. cbn [ogPokemon]. rewrite Ho. unfold applyOverride. now rewrite Hw.
    + intros [Hother|Hother].
      * apply not_eq_sym, Z.eqb_neq in Hother. now rewrite Hother.
      * apply not_eq_sym, String.eqb_neq in Hother. rewrite Hother.
        now rewrite andb_false_r.
Qed.

End RosterFacts.

(** ** The properties on sample inputs *)

Lemma asymmetric_pairings_simulated_witness :
  snd (Orchestrator.simulateAll sampleResolver switches trio trio) = 9%nat.
Proof.
  apply (asymmetric_pairings_simulated sampleResolver switches trio trio). reflexivity.
Defined.

Lemma start_energy_bounds_witness :
  0 <= Orchestrator.setEnergyAdvantage (samplePokemon "a" 150 None) 2
    <= Orchestrator.setEnergyAdvantage (samplePokemon "a" 150 None) 6
  /\ Orchestrator.setEnergyAdvantage (samplePokemon "a" 150 None) 6 <= 100
  /\ (0 < 2 ->
      Z.min (energyGain (fastMove (samplePokemon "a" 150 None))) 100
      <= Orchestrator.setEnergyAdvantage (samplePokemon "a" 150 None) 2).
Proof.
  apply (start_energy_bounds (samplePokemon "a" 150 None) 2 6); simpl; lia.
Defined.

Lemma ratings_in_range_witness :
  0 <= rating (Orchestrator.simulateMatch sampleResolver leads
                 (samplePokemon "a" 150 None) (samplePokemon "b" 120 None)) <= 1000.
Proof.
  apply (ratings_in_range sampleResolver leads
           (samplePokemon "a" 150 None) (samplePokemon "b" 120 None));
    vm_compute; split; discriminate.
Defined.

Lemma scaled_scores_witness :
  Permutation (map entrySpeciesId (Finalizer.scaleRankings sampleEntries))
    (map entrySpeciesId sampleEntries)
  /\ StronglySorted (descending entryScore) (Finalizer.scaleRankings sampleEntries).
Proof.
  assert (H : forall e, In e sampleEntries -> (0 <= entryScore e)%Q).
  { intros e [<-|[<-|[<-|[]]]]; vm_compute; discriminate. }
  split; apply (scaled_scores sampleEntries H).
Defined.

Lemma finalize_plain_witness :
  exists final,
    Finalizer.finalizeRankings samplePow sampleRankings trio leads = Some final
    /\ Permutation (map entrySpeciesId final) (map rankSpeciesId sampleRankings)
    /\ StronglySorted (descending entryScore) final
    /\ (forall e, In e final -> (0 <= entryScore e <= 100)%Q).
Proof.
  apply (finalize_plain samplePow leads).
  - discriminate.
  - simpl. lia.
  - intros r [<-|[<-|[<-|[]]]]; split; try discriminate; vm_compute; discriminate.
Defined.

Lemma key_matchups_witness :
  List.length [("f", 200); ("a", 300); ("d", 450)]%string
  = Nat.min 5 (List.length (filter (fun m => rating m <? 500) sampleMatches))
  /\ List.length [("e", 700); ("b", 650); ("g", 510)]%string
     = Nat.min 5 (List.length (filter (fun m => 500 <? rating m) sampleMatches)).
Proof.
  split; apply (key_matchups sampleMatches
                  [("f", 200); ("a", 300); ("d", 450)]%string
                  [("e", 700); ("b", 650); ("g", 510)]%string);
    vm_compute; reflexivity.
Defined.

Lemma rank_one_entry_per_candidate_witness :
  exists final,
    Finalizer.rank samplePow sampleResolver trio trio "all" 1500 leads = Some final
    /\ Permutation (map entrySpeciesId final) (map speciesId trio)
    /\ List.length final = List.length trio.
Proof.
  apply (rank_one_entry_per_candidate sampleResolver samplePow trio trio "all" 1500 leads).
  - discriminate.
  - discriminate.
  - vm_compute. reflexivity.
Defined.

Lemma checkFilters_decision_witness :
  Filters.checkFilters (samplePokemon "mewtwo" 120 None) psychicOnly sampleExclude 1500
  = forallb (FilterSpec.satisfies (samplePokemon "mewtwo" 120 None) 1500) psychicOnly
    && negb (existsb (FilterSpec.excludedBy (samplePokemon "mewtwo" 120 None) 1500)
               sampleExclude).
Proof.
  apply (checkFilters_decision (samplePokemon "mewtwo" 120 None) 1500 psychicOnly sampleExclude).
  intros f [<-|[]]. reflexivity.
Defined.

Lemma id_only_include_witness :
  Filters.checkFilters (samplePokemon "mewtwo" 120 None) twoIdRules [] 1500 = true.
Proof.
  apply (id_only_include (samplePokemon "mewtwo" 120 None) 1500 twoIdRules).
  - intros f [<-|[<-|[]]]; reflexivity.
  - simpl. lia.
Defined.


Lemma overall_ranking_witness :
  exists final,
    Overall.rankOverall samplePow sampleRankingData None false = Some final
    /\ Permutation (map entrySpeciesId final)
         (map entrySpeciesId (Overall.baseCategory sampleRankingData))
    /\ StronglySorted (descending entryScore) final
    /\ (forall e, In e final -> (0 <= entryScore e <= 100)%Q)
    /\ (forall top rest, final = top :: rest -> (entryScore top == 100)%Q).
Proof.
  apply (overall_ranking samplePow sampleRankingData None false).
  - intros b e Hb. exact Hb.
  - left. reflexivity.
  - discriminate.
Defined.

Lemma targets_within_pool_witness :
  (List.length [samplePokemon "a" 120 (Some (150 / 100)%Q)]
   <= List.length [samplePokemon "a" 120 (Some (150 / 100)%Q); samplePokemon "b" 120 None]
   <= List.length ["a"; "weak"; "b"; "mewtwo"]%string)%nat.
Proof.
  apply (targets_within_pool sampleConstruct sampleInitialize sampleDef sampleReleased
           sampleSelectMove sampleAutoSelect 1500 sampleCup (Some sampleRankingMoves) []
           ["a"; "weak"; "b"; "mewtwo"]%string
           [samplePokemon "a" 120 (Some (150 / 100)%Q); samplePokemon "b" 120 None]
           [samplePokemon "a" 120 (Some (150 / 100)%Q)]).
  vm_compute. reflexivity.
Defined.


Lemma banned_below_2500_witness :
  sampleRoster (["a"%string] ++ "mewtwo"%string :: ["b"%string])
  = sampleRoster (["a"%string] ++ ["b"%string]).
Proof.
  apply (banned_below_2500 sampleConstruct sampleInitialize sampleDef sampleReleased
           sampleSelectMove sampleAutoSelect 1500 sampleCup (Some sampleRankingMoves) []
           ["a"]%string ["b"]%string "mewtwo"%string).
  - lia.
  - simpl. left. reflexivity.
Defined.

Import Round.

(** ** Binary64 rounding, from the specification of the primitive floats *)

Lemma div_mod_double (N D : Z) :
  0 < D ->
  N / (2 * D) = N / D / 2 /\ N mod (2 * D) = D * ((N / D) mod 2) + N mod D.
Proof.
  intros HD.
  assert (H1 : N / (2 * D) = N / D / 2).
  { rewrite (Z.mul_comm 2 D). symmetry. apply Z.div_div; lia. }
  split; [exact H1|].
  pose proof (Z.div_mod N (2 * D) ltac:(lia)) as E1.
  pose proof (Z.div_mod N D ltac:(lia)) as E2.
  pose proof (Z.div_mod (N / D) 2 ltac:(lia)) as E3.
  rewrite H1 in E1. nia.
Qed.

Lemma shr_1_record (N D : Z) :
  0 <= N -> 0 < D -> shr_1 (record N D) = record N (2 * D).
Proof.
  intros HN HD. unfold record, loc_of.
  destruct (div_mod_double N D HD) as [Hq Hr]. rewrite Hq, Hr.
  pose proof (Z.mod_pos_bound N D HD) as Hb.
  pose proof (Z.div_pos N D HN HD) as Hq0.
  set (q := N / D) in *. set (r := N mod D) in *.
  pose proof (Z.mod_pos_bound q 2 ltac:(lia)) as Hp.
  pose proof (Z.div_mod q 2 ltac:(lia)) as Eq2.
  assert (Hcases : (q mod 2 = 0 \/ q mod 2 = 1)) by lia.
  assert (Hshr : forall rb sb, shr_1 {| shr_m := q; shr_r := rb; shr_s := sb |}
                 = {| shr_m := q / 2; shr_r := (q mod 2 =? 1); shr_s := rb || sb |}).
  { intros rb sb. destruct q as [|[p|p|]|p]; try lia; cbn [shr_1].
    - reflexivity.
    - f_equal.
      + apply (Z.div_unique (Z.pos p~1) 2 (Z.pos p) 1); lia.
      + replace (Z.pos p~1 mod 2) with 1; [reflexivity|].
        apply (Z.mod_unique (Z.pos p~1) 2 (Z.pos p) 1); lia.
    - f_equal.
      + apply (Z.div_unique (Z.pos p~0) 2 (Z.pos p) 0); lia.
      + replace (Z.pos p~0 mod 2) with 0; [reflexivity|].
        apply (Z.mod_unique (Z.pos p~0) 2 (Z.pos p) 0); lia.
    - reflexivity. }
  destruct (Z.eqb_spec r 0) as [Hr0|Hr0].
  - rewrite Hr0, Z.add_0_r. cbn [shr_record_of_loc]. rewrite Hshr.
    destruct Hcases as [E|E]; rewrite E.
    + rewrite Z.mul_0_r. cbn. reflexivity.
    + rewrite Z.mul_1_r. destruct (Z.eqb_spec D 0); [lia|].
      replace (2 * D ?= 2 * D) with Eq by (symmetry; apply Z.compare_refl).
      reflexivity.
  - assert (Hloc : forall c, shr_1 (shr_record_of_loc q (loc_Inexact c))
                   = {| shr_m := q / 2; shr_r := (q mod 2 =? 1); shr_s := true |}).
    { intros c. destruct c; cbn [shr_record_of_loc]; rewrite Hshr; reflexivity. }
    rewrite Hloc.
    destruct Hcases as [E|E]; rewrite E.
    + rewrite Z.mul_0_r, Z.add_0_l. destruct (Z.eqb_spec r 0); [lia|].
      replace (2 * r ?= 2 * D) with Lt by (symmetry; apply Z.compare_lt_iff; lia).
      reflexivity.
    + rewrite Z.mul_1_r. destruct (Z.eqb_spec (D + r) 0); [lia|].
      replace (2 * (D + r) ?= 2 * D) with Gt by (symmetry; apply Z.compare_gt_iff; lia).
      reflexivity.
Qed.

Lemma pow2_double (p : positive) : 2 ^ Z.pos p~0 = 2 ^ Z.pos p * 2 ^ Z.pos p.
Proof. rewrite <- Z.pow_add_r by lia. f_equal. lia. Qed.

Lemma pow2_double_succ (p : positive) : 2 ^ Z.pos p~1 = 2 * (2 ^ Z.pos p * 2 ^ Z.pos p).
Proof.
  rewrite <- Z.pow_add_r by lia. rewrite <- Z.pow_succ_r by lia. f_equal. lia.
Qed.

Lemma iter_shr_record (p : positive) : forall N D,
  0 <= N -> 0 < D ->
  iter_pos shr_1 p (record N D) = record N (D * 2 ^ Z.pos p).
Proof.
  induction p as [p IH|p IH|]; intros N D HN HD; cbn [iter_pos].
  - assert (0 < 2 ^ Z.pos p) by (apply Z.pow_pos_nonneg; lia).
    rewrite shr_1_record, IH, IH by (try assumption; nia).
    f_equal. rewrite pow2_double_succ. ring.
  - assert (0 < 2 ^ Z.pos p) by (apply Z.pow_pos_nonneg; lia).
    rewrite IH, IH by (try assumption; nia).
    f_equal. rewrite pow2_double. ring.
  - rewrite shr_1_record by assumption. f_equal. rewrite Z.pow_1_r. ring.
Qed.

Lemma shr_record (N D e n : Z) :
  0 <= N -> 0 < D -> 0 <= n ->
  shr (record N D) e n = (record N (D * 2 ^ n), e + n).
Proof.
  intros HN HD Hn. unfold shr. destruct n as [|p|p]; try lia.
  - now rewrite Z.mul_1_r, Z.add_0_r.
  - now rewrite iter_shr_record.
Qed.

Lemma loc_of_record (m : Z) (l : location) :
  loc_of_shr_record (shr_record_of_loc m l) = l /\ shr_m (shr_record_of_loc m l) = m.
Proof. destruct l as [|[]]; split; reflexivity. Qed.

Lemma digits2_bounds (p : positive) :
  2 ^ (Z.pos (digits2_pos p) - 1) <= Z.pos p < 2 ^ Z.pos (digits2_pos p).
Proof.
  induction p as [p IH|p IH|]; cbn [digits2_pos].
  - rewrite Pos2Z.inj_succ. replace (Z.succ (Z.pos (digits2_pos p)) - 1)
      with (Z.succ (Z.pos (digits2_pos p) - 1)) by lia.
    rewrite !Z.pow_succ_r by lia. lia.
  - rewrite Pos2Z.inj_succ. replace (Z.succ (Z.pos (digits2_pos p)) - 1)
      with (Z.succ (Z.pos (digits2_pos p) - 1)) by lia.
    rewrite !Z.pow_succ_r by lia. lia.
  - cbn. lia.
Qed.

Lemma digits2_unique (m k : Z) :
  0 < k -> 2 ^ (k - 1) <= m < 2 ^ k -> Zdigits2 m = k.
Proof.
  intros Hk [Hlo Hhi].
  assert (Hm : 0 < m) by (pose proof (Z.pow_pos_nonneg 2 (k - 1)); lia).
  destruct m as [|p|p]; try lia. cbn [Zdigits2].
  pose proof (digits2_bounds p) as [Hl Hh].
  set (d := Z.pos (digits2_pos p)) in *.
  destruct (Z.lt_trichotomy d k) as [H|[H|H]]; [|assumption|].
  - assert (2 ^ d <= 2 ^ (k - 1)) by (apply Z.pow_le_mono_r; lia). lia.
  - assert (2 ^ k <= 2 ^ (d - 1)) by (apply Z.pow_le_mono_r; lia). lia.
Qed.

Lemma fexp_normal (k : Z) : -1074 <= k - 53 -> fexp prec emax k = k - 53.
Proof. intros H. unfold fexp, SpecFloat.emin, prec, emax. lia. Qed.

Lemma rne_div_cases (N D : Z) :
  0 < D -> rne_div N D = N / D \/ rne_div N D = N / D + 1.
Proof.
  intros HD. unfold rne_div, round_nearest_even.
  destruct (loc_of N D) as [|[]]; auto. destruct (Z.even (N / D)); auto.
Qed.

(** The rounding step of every operation, on a quotient whose integer part
    has 53 bits at least and whose result is in the normal range. *)
Lemma round_aux_normal (s : bool) (N D e : Z) :
  0 <= N -> 0 < D -> 2 ^ 52 <= N / D ->
  -1074 <= e + (Zdigits2 (N / D) - 53) -> e + (Zdigits2 (N / D) - 53) + 1 <= 971 ->
  exists M E,
    binary_round_aux prec emax s (N / D) e (loc_of N D) = S754_finite s M E
    /\ 2 ^ 52 <= Z.pos M < 2 ^ 53
    /\ 0 <= Zdigits2 (N / D) - 53
    /\ 2 ^ 52 <= N / (D * 2 ^ (Zdigits2 (N / D) - 53)) < 2 ^ 53
    /\ ((Z.pos M = rne_div N (D * 2 ^ (Zdigits2 (N / D) - 53))
         /\ E = e + (Zdigits2 (N / D) - 53))
        \/ (rne_div N (D * 2 ^ (Zdigits2 (N / D) - 53)) = 2 ^ 53
            /\ Z.pos M = 2 ^ 52 /\ E = e + (Zdigits2 (N / D) - 53) + 1)).
Proof.
  intros HN HD Hm Hlo Hhi.
  set (m := N / D) in *. set (d := Zdigits2 m) in *.
  assert (Hmpos : 0 < m) by (assert (0 < 2 ^ 52) by (apply Z.pow_pos_nonneg; lia); lia).
  assert (Hd : 2 ^ (d - 1) <= m < 2 ^ d /\ 0 < d).
  { subst d. destruct m as [|p|p]; try lia. cbn [Zdigits2]. split; [apply digits2_bounds|lia]. }
  destruct Hd as [[Hd1 Hd2] Hd0].
  assert (Hd53 : 53 <= d).
  { destruct (Z.le_gt_cases 53 d) as [H|H]; [assumption|].
    assert (2 ^ d <= 2 ^ 52) by (apply Z.pow_le_mono_r; lia). lia. }
  set (n := d - 53) in *.
  assert (Hpn : 0 < 2 ^ n) by (apply Z.pow_pos_nonneg; lia).
  set (D' := D * 2 ^ n).
  assert (HD' : 0 < D') by (subst D'; nia).
  assert (Hm' : N / D' = m / 2 ^ n).
  { subst D' m. symmetry. apply Z.div_div; lia. }
  assert (Hbm : 2 ^ 52 <= N / D' < 2 ^ 53).
  { rewrite Hm'. split.
    - apply Z.div_le_lower_bound; [lia|].
      replace (2 ^ n * 2 ^ 52) with (2 ^ (d - 1)); [assumption|].
      rewrite <- Z.pow_add_r by lia. f_equal. lia.
    - apply Z.div_lt_upper_bound; [lia|].
      replace (2 ^ n * 2 ^ 53) with (2 ^ d); [assumption|].
      rewrite <- Z.pow_add_r by lia. f_equal. lia. }
  set (R := rne_div N D').
  assert (HR : 2 ^ 52 <= R <= 2 ^ 53).
  { subst R. destruct (rne_div_cases N D' HD') as [E|E]; rewrite E; lia. }
  unfold binary_round_aux, shr_fexp. fold d.
  rewrite fexp_normal by lia.
  replace (d + e - 53 - e) with n by lia.
  change (shr_record_of_loc m (loc_of N D)) with (record N D).
  rewrite shr_record by lia. fold D'.
  cbv iota beta.
  destruct (loc_of_record (N / D') (loc_of N D')) as [Hl Hsm].
  change (shr_record_of_loc (N / D') (loc_of N D')) with (record N D') in Hl, Hsm.
  rewrite !Hl, !Hsm.
  change (round_nearest_even (N / D') (loc_of N D')) with R.
  destruct (Z.eq_dec R (2 ^ 53)) as [HR53|HR53].
  - rewrite HR53.
    assert (Hdig : Zdigits2 (2 ^ 53) = 54) by reflexivity.
    rewrite Hdig, fexp_normal by lia.
    replace (54 + (e + n) - 53 - (e + n)) with 1 by lia.
    cbn [shr_record_of_loc shr].
    change (2 ^ 53) with 9007199254740992. cbn [iter_pos shr_1 shr_m].
    replace (e + n + 1 <=? emax - prec) with true
      by (symmetry; apply Z.leb_le; unfold emax, prec; lia).
    eexists. eexists. split; [reflexivity|].
    split; [cbn; lia|]. split; [lia|]. split; [exact Hbm|].
    right. repeat split; reflexivity.
  - assert (Hdig : Zdigits2 R = 53) by (apply digits2_unique; lia).
    rewrite Hdig, fexp_normal by lia.
    replace (53 + (e + n) - 53 - (e + n)) with 0 by lia.
    cbn [shr_record_of_loc shr shr_m].
    destruct R as [|p|p] eqn:ER; try (assert (0 < 2 ^ 52) by (apply Z.pow_pos_nonneg; lia); lia).
    replace (e + n <=? emax - prec) with true
      by (symmetry; apply Z.leb_le; unfold emax, prec; lia).
    exists p, (e + n). split; [reflexivity|].
    split; [lia|]. split; [lia|]. split; [exact Hbm|].
    left. split; reflexivity.
Qed.

(** ** Rounding to the nearest integer *)

Lemma loc_of_cases (N D : Z) :
  0 < D ->
  (loc_of N D = loc_Exact /\ N mod D = 0)
  \/ (loc_of N D = loc_Inexact Lt /\ 0 < 2 * (N mod D) < D)
  \/ (loc_of N D = loc_Inexact Eq /\ 2 * (N mod D) = D)
  \/ (loc_of N D = loc_Inexact Gt /\ D < 2 * (N mod D)).
Proof.
  intros HD. unfold loc_of. pose proof (Z.mod_pos_bound N D HD) as Hb.
  destruct (Z.eqb_spec (N mod D) 0) as [E|E]; [now left|right].
  destruct (Z.compare_spec (2 * (N mod D)) D) as [H|H|H].
  - right. left. split; [reflexivity|assumption].
  - left. split; [reflexivity|lia].
  - right. right. split; [reflexivity|assumption].
Qed.

Lemma rne_div_err (N D : Z) : 0 < D -> Z.abs (2 * (rne_div N D * D - N)) <= D.
Proof.
  intros HD. pose proof (Z.div_mod N D ltac:(lia)) as E.
  pose proof (Z.mod_pos_bound N D HD) as Hb.
  unfold rne_div, round_nearest_even.
  destruct (loc_of_cases N D HD) as [[-> H]|[[-> H]|[[-> H]|[-> H]]]];
    try destruct (Z.even (N / D)); nia.
Qed.

Lemma rne_div_ge (N D k : Z) : 0 < D -> k * D <= N -> k <= rne_div N D.
Proof.
  intros HD Hk. assert (k <= N / D) by (apply Z.div_le_lower_bound; lia).
  destruct (rne_div_cases N D HD) as [E|E]; rewrite E; lia.
Qed.

Lemma rne_div_le (N D k : Z) : 0 < D -> N <= k * D -> rne_div N D <= k.
Proof.
  intros HD Hk. pose proof (Z.div_mod N D ltac:(lia)) as E.
  pose proof (Z.mod_pos_bound N D HD) as Hb.
  unfold rne_div, round_nearest_even.
  assert (Hq : N / D <= k) by (apply Z.div_le_upper_bound; lia).
  destruct (loc_of_cases N D HD) as [[-> H]|[[-> H]|[[-> H]|[-> H]]]];
    try destruct (Z.even (N / D)); try lia; nia.
Qed.

Lemma rne_div_exact (N D k : Z) : 0 < D -> N = k * D -> rne_div N D = k.
Proof.
  intros HD Hk. apply Z.le_antisymm; [apply rne_div_le|apply rne_div_ge]; lia.
Qed.

(** A tie goes to the even neighbour. *)
Lemma rne_div_tie (N D k : Z) :
  0 < D -> 2 * N = (2 * k + 1) * D ->
  rne_div N D = if Z.even k then k else k + 1.
Proof.
  intros HD Hk. pose proof (Z.div_mod N D ltac:(lia)) as E.
  pose proof (Z.mod_pos_bound N D HD) as Hb.
  assert (Hq : N / D = k) by nia.
  unfold rne_div, round_nearest_even. rewrite Hq in *.
  destruct (loc_of_cases N D HD) as [[-> H]|[[-> H]|[[-> H]|[-> H]]]]; nia.
Qed.

(** ** Positive normal doubles *)

Lemma pos_iter_xO (k p : positive) : Z.pos (Pos.iter xO p k) = Z.pos p * 2 ^ Z.pos k.
Proof.
  induction k as [|k IH] using Pos.peano_ind.
  - cbn [Pos.iter]. rewrite Z.pow_1_r. lia.
  - rewrite Pos.iter_succ, Pos2Z.inj_xO, IH, Pos2Z.inj_succ, Z.pow_succ_r by lia. ring.
Qed.

Lemma shl_align_down (m : positive) (e e' : Z) :
  e' <= e ->
  Z.pos (fst (shl_align m e e')) = Z.pos m * 2 ^ (e - e') /\ snd (shl_align m e e') = e'.
Proof.
  intros H. unfold shl_align. destruct (e' - e) as [|d|d] eqn:Hd; try lia.
  - replace (e - e') with 0 by lia. cbn [fst snd]. split; lia.
  - cbn [fst snd]. rewrite pos_iter_xO. split; [|reflexivity].
    f_equal. f_equal. lia.
Qed.

Lemma shl_align_up (m : positive) (e e' : Z) :
  e <= e' -> shl_align m e e' = (m, e).
Proof. intros H. unfold shl_align. destruct (e' - e) as [|d|d] eqn:Hd; try lia; reflexivity. Qed.

Lemma Zdigits2_bounds (m : Z) :
  0 < m -> 0 < Zdigits2 m /\ 2 ^ (Zdigits2 m - 1) <= m < 2 ^ Zdigits2 m.
Proof.
  intros Hm. destruct m as [|p|p]; try lia. cbn [Zdigits2].
  split; [lia|apply digits2_bounds].
Qed.

Lemma loc_of_one (N : Z) : loc_of N 1 = loc_Exact.
Proof. unfold loc_of. now rewrite Z.mod_1_r. Qed.

(** The rounding of an integer mantissa with 53 bits at least (the last
    step of an addition and of a multiplication). *)
Lemma round_aux_exact (N e : Z) :
  2 ^ 52 <= N ->
  -1074 <= e + (Zdigits2 N - 53) -> e + (Zdigits2 N - 53) + 1 <= 971 ->
  exists M E,
    binary_round_aux prec emax false N e loc_Exact = S754_finite false (Z.to_pos M) E
    /\ 2 ^ 52 <= M < 2 ^ 53
    /\ 0 <= Zdigits2 N - 53
    /\ 2 ^ 52 <= N / 2 ^ (Zdigits2 N - 53) < 2 ^ 53
    /\ ((M = rne_div N (2 ^ (Zdigits2 N - 53)) /\ E = e + (Zdigits2 N - 53))
        \/ (rne_div N (2 ^ (Zdigits2 N - 53)) = 2 ^ 53
            /\ M = 2 ^ 52 /\ E = e + (Zdigits2 N - 53) + 1)).
Proof.
  intros HN Hlo Hhi.
  assert (H52 : 0 < 2 ^ 52) by (apply Z.pow_pos_nonneg; lia).
  pose proof (round_aux_normal false N 1 e) as H.
  rewrite Z.div_1_r, loc_of_one in H.
  destruct (H ltac:(lia) ltac:(lia) HN Hlo Hhi) as (M & E & H1 & H2 & H3 & H4 & H5).
  exists (Z.pos M), E. rewrite Z.mul_1_l in H4, H5. cbn [Z.to_pos].
  repeat split; try assumption; try lia.
Qed.

Lemma ofZ_PN (z : Z) :
  1 <= z < 2 ^ 53 ->
  exists M E, PN (Binary64.ofZ z) M E /\ -52 <= E <= 0 /\ M = z * 2 ^ (- E).
Proof.
  intros Hz. unfold Binary64.ofZ. replace (z <? 0) with false by (symmetry; apply Z.ltb_ge; lia).
  unfold PN. rewrite of_uint63_spec, Uint63.of_Z_spec.
  rewrite Z.mod_small.
  2:{ split; [lia|]. eapply Z.lt_trans; [apply Hz|]. reflexivity. }
  destruct z as [|p|p]; try lia.
  cbn [binary_normalize]. unfold binary_round.
  destruct (Zdigits2_bounds (Z.pos p) ltac:(lia)) as [Hd0 [Hd1 Hd2]]. cbn [Zdigits2] in *.
  set (d := Z.pos (digits2_pos p)) in *.
  assert (Hd53 : d <= 53).
  { destruct (Z.le_gt_cases d 53) as [H|H]; [assumption|].
    assert (2 ^ 53 <= 2 ^ (d - 1)) by (apply Z.pow_le_mono_r; lia). lia. }
  rewrite fexp_normal by lia.
  destruct (shl_align_down p 0 (d + 0 - 53) ltac:(lia)) as [Hm He].
  destruct (shl_align p 0 (d + 0 - 53)) as [mz ez]. cbn [fst snd] in Hm, He. subst ez.
  replace (0 - (d + 0 - 53)) with (53 - d) in Hm by lia.
  assert (Hp : 0 < 2 ^ (53 - d)) by (apply Z.pow_pos_nonneg; lia).
  assert (Hmz : 2 ^ 52 <= Z.pos mz < 2 ^ 53).
  { rewrite Hm. split.
    - replace (2 ^ 52) with (2 ^ (d - 1) * 2 ^ (53 - d)).
      + apply Z.mul_le_mono_nonneg_r; lia.
      + rewrite <- Z.pow_add_r by lia. f_equal. lia.
    - replace (2 ^ 53) with (2 ^ d * 2 ^ (53 - d)).
      + apply Z.mul_lt_mono_pos_r; lia.
      + rewrite <- Z.pow_add_r by lia. f_equal. lia. }
  assert (Hdig : Zdigits2 (Z.pos mz) = 53) by (apply digits2_unique; lia).
  destruct (round_aux_exact (Z.pos mz) (d + 0 - 53)) as (M & E & H1 & H2 & H3 & H4 & H5);
    try rewrite Hdig; try lia.
  rewrite Hdig in H5. replace (53 - 53) with 0 in H5 by lia.
  rewrite Z.pow_0_r in H5.
  assert (HR : rne_div (Z.pos mz) 1 = Z.pos mz) by (apply rne_div_exact; lia).
  rewrite HR in H5.
  destruct H5 as [[HM HE]|[HM _]]; [|lia].
  exists M, E. split; [split; assumption|]. split; [lia|].
  subst M E. rewrite Hm. f_equal. f_equal. lia.
Qed.

(** ** The operations on positive normal doubles *)

Lemma div_bounds (N D : Z) (lo hi : Z) :
  0 < D -> lo <= N / D < hi -> lo * D <= N < hi * D.
Proof.
  intros HD [Hlo Hhi]. pose proof (Z.div_mod N D ltac:(lia)) as E.
  pose proof (Z.mod_pos_bound N D HD) as Hb. nia.
Qed.

Lemma new_location_spec (D r : Z) :
  0 < D -> 0 <= r < D ->
  new_location D r = if r =? 0 then loc_Exact else loc_Inexact (2 * r ?= D).
Proof.
  intros HD Hr. unfold new_location.
  destruct (Z.even D) eqn:Hev.
  - reflexivity.
  - unfold new_location_odd. destruct (r =? 0); [reflexivity|]. f_equal.
    assert (Hodd : Z.odd D = true) by (rewrite <- Z.negb_even, Hev; reflexivity).
    apply Z.odd_spec in Hodd. destruct Hodd as [k Hk].
    destruct (Z.compare_spec (2 * r + 1) D); destruct (Z.compare_spec (2 * r) D);
      try reflexivity; lia.
Qed.

Lemma div_eucl_div_mod (a b : Z) : Z.div_eucl a b = (a / b, a mod b).
Proof. unfold Z.div, Z.modulo. now destruct (Z.div_eucl a b). Qed.

Lemma PN_pos (x : float) (M E : Z) : PN x M E -> 0 < M /\ Z.pos (Z.to_pos M) = M.
Proof.
  intros [_ H]. assert (0 < 2 ^ 52) by (apply Z.pow_pos_nonneg; lia).
  split; [lia|]. apply Z2Pos.id. lia.
Qed.

Lemma div_PN (x y : float) (Mx Ex My Ey : Z) :
  PN x Mx Ex -> PN y My Ey ->
  -1074 <= Ex - Ey - 53 -> Ex - Ey - 53 + 2 <= 971 ->
  exists M E n,
    PN (x / y) M E /\ (n = 0 \/ n = 1)
    /\ RoundsZ (Mx * 2 ^ 53) (My * 2 ^ n) (Ex - Ey - 53 + n) M E.
Proof.
  intros Hx Hy Hlo Hhi.
  destruct (PN_pos x Mx Ex Hx) as [Hx0 Hxp]. destruct (PN_pos y My Ey Hy) as [Hy0 Hyp].
  destruct Hx as [Hx [Hx1 Hx2]]. destruct Hy as [Hy [Hy1 Hy2]].
  unfold PN. rewrite FloatAxioms.div_spec, Hx, Hy. unfold SF64div, SFdiv. cbn [xorb].
  unfold SFdiv_core_binary. rewrite Hxp, Hyp.
  assert (Hdx : Zdigits2 Mx = 53) by (apply digits2_unique; lia).
  assert (Hdy : Zdigits2 My = 53) by (apply digits2_unique; lia).
  rewrite Hdx, Hdy.
  replace (53 + Ex - (53 + Ey)) with (Ex - Ey) by lia.
  rewrite fexp_normal by lia.
  replace (Z.min (Ex - Ey - 53) (Ex - Ey)) with (Ex - Ey - 53) by lia.
  replace (Ex - Ey - (Ex - Ey - 53)) with 53 by lia.
  cbv iota. rewrite Z.shiftl_mul_pow2 by lia.
  set (N := Mx * 2 ^ 53).
  rewrite div_eucl_div_mod.
  rewrite new_location_spec by (try lia; apply Z.mod_pos_bound; lia).
  change (if N mod My =? 0 then loc_Exact else loc_Inexact (2 * (N mod My) ?= My))
    with (loc_of N My).
  assert (H53 : 0 < 2 ^ 53) by (apply Z.pow_pos_nonneg; lia).
  assert (HN : 0 <= N) by (subst N; nia).
  assert (Hq : 2 ^ 52 <= N / My < 2 ^ 54).
  { split.
    - apply Z.div_le_lower_bound; [lia|]. subst N.
      change (2 ^ 53) with (2 * 2 ^ 52). nia.
    - apply Z.div_lt_upper_bound; [lia|]. subst N.
      change (2 ^ 54) with (2 * 2 ^ 53). change (2 ^ 53) with (2 * 2 ^ 52) at 2. nia. }
  assert (Hdq : Zdigits2 (N / My) = 53 \/ Zdigits2 (N / My) = 54).
  { destruct (Z.lt_ge_cases (N / My) (2 ^ 53)) as [H|H].
    - left. apply digits2_unique; lia.
    - right. apply digits2_unique; lia. }
  destruct (round_aux_normal false N My (Ex - Ey - 53) HN Hy0 (proj1 Hq))
    as (M & E & H1 & H2 & H3 & H4 & H5); [lia|lia|].
  rewrite H1. exists (Z.pos M), E, (Zdigits2 (N / My) - 53).
  split; [split; [reflexivity|assumption]|]. split; [lia|].
  set (n := Zdigits2 (N / My) - 53) in *.
  assert (Hpn : 0 < 2 ^ n) by (apply Z.pow_pos_nonneg; lia).
  unfold RoundsZ. split; [nia|]. split.
  - apply div_bounds; [nia|assumption].
  - destruct H5 as [[HM HE]|[HM [HM' HE]]]; [left|right]; repeat split; try assumption; lia.
Qed.

Lemma mul_PN (x y : float) (Mx Ex My Ey : Z) :
  PN x Mx Ex -> PN y My Ey ->
  -1074 <= Ex + Ey + 52 -> Ex + Ey + 54 <= 971 ->
  exists M E n,
    PN (x * y) M E /\ (n = 52 \/ n = 53)
    /\ RoundsZ (Mx * My) (2 ^ n) (Ex + Ey + n) M E.
Proof.
  intros Hx Hy Hlo Hhi.
  destruct (PN_pos x Mx Ex Hx) as [Hx0 Hxp]. destruct (PN_pos y My Ey Hy) as [Hy0 Hyp].
  destruct Hx as [Hx [Hx1 Hx2]]. destruct Hy as [Hy [Hy1 Hy2]].
  unfold PN. rewrite FloatAxioms.mul_spec, Hx, Hy. unfold SF64mul, SFmul. cbn [xorb].
  rewrite Pos2Z.inj_mul, Hxp, Hyp.
  set (N := Mx * My).
  assert (HN : 2 ^ 104 <= N < 2 ^ 106).
  { subst N. change (2 ^ 104) with (2 ^ 52 * 2 ^ 52). change (2 ^ 106) with (2 ^ 53 * 2 ^ 53).
    assert (0 < 2 ^ 52) by (apply Z.pow_pos_nonneg; lia). nia. }
  assert (Hdq : Zdigits2 N = 105 \/ Zdigits2 N = 106).
  { destruct (Z.lt_ge_cases N (2 ^ 105)) as [H|H].
    - left. apply digits2_unique; lia.
    - right. apply digits2_unique; lia. }
  assert (H52 : 2 ^ 52 <= N).
  { assert (2 ^ 52 <= 2 ^ 104) by (apply Z.pow_le_mono_r; lia). lia. }
  destruct (round_aux_exact N (Ex + Ey) H52) as (M & E & H1 & H2 & H3 & H4 & H5); [lia|lia|].
  rewrite H1. exists M, E, (Zdigits2 N - 53).
  split; [split; [reflexivity|assumption]|]. split; [lia|].
  set (n := Zdigits2 N - 53) in *.
  assert (Hpn : 0 < 2 ^ n) by (apply Z.pow_pos_nonneg; lia).
  unfold RoundsZ. split; [assumption|]. split.
  - apply div_bounds; assumption.
  - destruct H5 as [[HM HE]|[HM [HM' HE]]]; [left|right]; repeat split; try assumption; lia.
Qed.

Lemma add_PN (x y : float) (Mx Ex My Ey : Z) :
  PN x Mx Ex -> PN y My Ey ->
  -1074 <= Z.min Ex Ey -> Z.max Ex Ey + 3 <= 971 ->
  exists M E n,
    PN (x + y) M E /\ 0 <= n <= Z.max Ex Ey - Z.min Ex Ey + 1
    /\ RoundsZ (Mx * 2 ^ (Ex - Z.min Ex Ey) + My * 2 ^ (Ey - Z.min Ex Ey)) (2 ^ n)
         (Z.min Ex Ey + n) M E.
Proof.
  intros Hx Hy Hlo Hhi.
  destruct (PN_pos x Mx Ex Hx) as [Hx0 Hxp]. destruct (PN_pos y My Ey Hy) as [Hy0 Hyp].
  destruct Hx as [Hx [Hx1 Hx2]]. destruct Hy as [Hy [Hy1 Hy2]].
  unfold PN. rewrite FloatAxioms.add_spec, Hx, Hy. unfold SF64add, SFadd. cbn [cond_Zopp].
  set (ez := Z.min Ex Ey) in *.
  destruct (shl_align_down (Z.to_pos Mx) Ex ez ltac:(lia)) as [Hax _].
  destruct (shl_align_down (Z.to_pos My) Ey ez ltac:(lia)) as [Hay _].
  rewrite Hax, Hay, Hxp, Hyp.
  set (N := Mx * 2 ^ (Ex - ez) + My * 2 ^ (Ey - ez)).
  assert (Hpx : 0 < 2 ^ (Ex - ez)) by (apply Z.pow_pos_nonneg; lia).
  assert (Hpy : 0 < 2 ^ (Ey - ez)) by (apply Z.pow_pos_nonneg; lia).
  assert (H52 : 0 < 2 ^ 52) by (apply Z.pow_pos_nonneg; lia).
  assert (HN : 2 ^ 52 <= N) by (subst N; nia).
  assert (Hup : N < 2 ^ (Z.max Ex Ey - ez + 54)).
  { assert (Hm : 2 ^ (Ex - ez) <= 2 ^ (Z.max Ex Ey - ez)) by (apply Z.pow_le_mono_r; lia).
    assert (Hm' : 2 ^ (Ey - ez) <= 2 ^ (Z.max Ex Ey - ez)) by (apply Z.pow_le_mono_r; lia).
    replace (Z.max Ex Ey - ez + 54) with (Z.max Ex Ey - ez + (53 + 1)) by lia.
    rewrite Z.pow_add_r, Z.pow_add_r, Z.pow_1_r by lia.
    subst N. nia. }
  destruct (Zdigits2_bounds N ltac:(lia)) as [Hd0 [Hd1 Hd2]].
  assert (Hd53 : 53 <= Zdigits2 N).
  { destruct (Z.le_gt_cases 53 (Zdigits2 N)) as [H|H]; [assumption|].
    assert (2 ^ Zdigits2 N <= 2 ^ 52) by (apply Z.pow_le_mono_r; lia). lia. }
  assert (Hdup : Zdigits2 N <= Z.max Ex Ey - ez + 54).
  { destruct (Z.le_gt_cases (Zdigits2 N) (Z.max Ex Ey - ez + 54)) as [H|H]; [assumption|].
    assert (2 ^ (Z.max Ex Ey - ez + 54) <= 2 ^ (Zdigits2 N - 1))
      by (apply Z.pow_le_mono_r; lia). lia. }
  assert (Hp : exists p, N = Z.pos p) by (exists (Z.to_pos N); rewrite Z2Pos.id; lia).
  destruct Hp as [p EN].
  assert (Ebn : binary_normalize prec emax N ez false
                = binary_round_aux prec emax false N ez loc_Exact).
  { rewrite EN. cbn [binary_normalize]. unfold binary_round.
    assert (Hdp : Z.pos (digits2_pos p) = Zdigits2 N) by (rewrite EN; reflexivity).
    rewrite Hdp, fexp_normal by lia.
    rewrite shl_align_up by lia. reflexivity. }
  rewrite Ebn.
  destruct (round_aux_exact N ez HN) as (M & E & H1 & H2 & H3 & H4 & H5); [lia|lia|].
  rewrite H1. exists M, E, (Zdigits2 N - 53).
  split; [split; [reflexivity|assumption]|]. split; [lia|].
  set (n := Zdigits2 N - 53) in *.
  assert (Hpn : 0 < 2 ^ n) by (apply Z.pow_pos_nonneg; lia).
  unfold RoundsZ. split; [assumption|]. split.
  - apply div_bounds; assumption.
  - destruct H5 as [[HM HE]|[HM [HM' HE]]]; [left|right]; repeat split; try assumption; lia.
Qed.

(** ** Values *)

Lemma pw_pos (e : Z) : (0 < pw e)%Q.
Proof. apply Qpower_0_lt. reflexivity. Qed.

Lemma pw_add (a b : Z) : (pw (a + b) == pw a * pw b)%Q.
Proof. apply Qpower_plus. discriminate. Qed.

Lemma pw_le (a b : Z) : a <= b -> (pw a <= pw b)%Q.
Proof. intros H. apply Qpower_le_compat_l; [assumption|discriminate]. Qed.

Lemma pw_lt_inv (a b : Z) : (pw a < pw b)%Q -> a < b.
Proof. intros H. apply (Qpower_lt_compat_l_inv 2); [assumption|reflexivity]. Qed.

Lemma pw_inject (n : Z) : 0 <= n -> (inject_Z (2 ^ n) == pw n)%Q.
Proof. intros H. unfold pw. now rewrite Zpower_Qpower. Qed.

Lemma pw_succ (a : Z) : (pw (a + 1) == 2 * pw a)%Q.
Proof. rewrite pw_add. change (pw 1) with 2%Q. ring. Qed.

Lemma pw_pred (a : Z) : (pw (a - 1) == pw a / 2)%Q.
Proof.
  assert (H := pw_succ (a - 1)). replace (a - 1 + 1) with a in H by lia.
  rewrite H. field.
Qed.

(** ** What a rounded operation gives *)

Section Rounded.

Variables N D G M E : Z.
Variable v : Q.
Hypothesis HR : RoundsZ N D G M E.
Hypothesis Hv : (v == inject_Z N / inject_Z D * pw G)%Q.

Lemma rounded_D_pos : 0 < D.
Proof. exact (proj1 HR). Qed.

Lemma rounded_D : (0 < inject_Z D)%Q.
Proof. replace 0%Q with (inject_Z 0) by reflexivity. rewrite <- Zlt_Qlt. exact rounded_D_pos. Qed.

Lemma rounded_val : (valQ M E == inject_Z (rne_div N D) * pw G)%Q.
Proof.
  pose proof HR as HR0. destruct HR0 as (_ & _ & [[HM HE]|[HR' [HM HE]]]); unfold valQ; rewrite HM, HE;
    [reflexivity|].
  rewrite HR', pw_succ. change (inject_Z (2 ^ 53)) with (2 * inject_Z (2 ^ 52))%Q. ring.
Qed.

Lemma rounded_binade : (pw (52 + G) <= v < pw (53 + G))%Q.
Proof.
  pose proof HR as HR0. destruct HR0 as (_ & [Hlo Hhi] & _). pose proof rounded_D as HDq.
  rewrite Hv, !pw_add.
  assert (H52 : (pw 52 == inject_Z (2 ^ 52))%Q) by (symmetry; apply pw_inject; lia).
  assert (H53 : (pw 53 == inject_Z (2 ^ 53))%Q) by (symmetry; apply pw_inject; lia).
  rewrite H52, H53. pose proof (pw_pos G) as HG.
  split.
  - apply Qmult_le_compat_r; [|lra].
    apply Qle_shift_div_l; [assumption|]. rewrite <- inject_Z_mult, <- Zle_Qle. lia.
  - apply Qmult_lt_compat_r; [assumption|].
    apply Qlt_shift_div_r; [assumption|]. rewrite <- inject_Z_mult, <- Zlt_Qlt. lia.
Qed.

Lemma rounded_exponent (g : Z) : (pw (52 + g) <= v < pw (53 + g))%Q -> G = g.
Proof.
  intros [Hlo Hhi]. destruct rounded_binade as [Hlo' Hhi'].
  assert (52 + G < 53 + g) by (apply pw_lt_inv; lra).
  assert (52 + g < 53 + G) by (apply pw_lt_inv; lra). lia.
Qed.

Lemma rounded_exponent_le (k : Z) : (v < pw k)%Q -> G <= k - 53.
Proof.
  intros Hk. destruct rounded_binade as [Hlo _].
  assert (52 + G < k) by (apply pw_lt_inv; lra). lia.
Qed.

(** The error is half a unit in the last place at most. *)
Lemma rounded_err : (Qabs (valQ M E - v) <= pw (G - 1))%Q.
Proof.
  rewrite rounded_val, Hv, pw_pred. pose proof rounded_D as HDq. pose proof (pw_pos G) as HG.
  pose proof (rne_div_err N D rounded_D_pos) as He.
  set (R := rne_div N D) in *.
  assert (Hq : (Qabs (inject_Z R - inject_Z N / inject_Z D) <= 1 # 2)%Q).
  { apply Qabs_Qle_condition. apply Z.abs_le in He.
    assert (H1 : (inject_Z (- D) <= inject_Z (2 * (R * D + - N)))%Q) by (rewrite <- Zle_Qle; lia).
    assert (H2 : (inject_Z (2 * (R * D + - N)) <= inject_Z D)%Q) by (rewrite <- Zle_Qle; lia).
    rewrite inject_Z_opp in H1.
    rewrite inject_Z_mult, inject_Z_plus, inject_Z_mult, inject_Z_opp in H1, H2.
    change (inject_Z 2) with 2%Q in H1, H2.
    set (d := inject_Z D) in *. set (r := inject_Z R) in *. set (n := inject_Z N) in *.
    split.
    - apply Qle_minus_iff. 
      setoid_replace (r - n / d + - - (1 # 2))%Q with ((2 * (r * d - n) + d) / (2 * d))%Q
        by (field; lra).
      apply Qle_shift_div_l; lra.
    - apply Qle_minus_iff.
      setoid_replace ((1 # 2) + - (r - n / d))%Q with ((d - 2 * (r * d - n)) / (2 * d))%Q
        by (field; lra).
      apply Qle_shift_div_l; lra. }
  setoid_replace (inject_Z R * pw G - inject_Z N / inject_Z D * pw G)%Q
    with ((inject_Z R - inject_Z N / inject_Z D) * pw G)%Q by ring.
  rewrite Qabs_Qmult, (Qabs_pos (pw G)) by lra.
  setoid_replace (pw G / 2)%Q with ((1 # 2) * pw G)%Q by (field).
  apply Qmult_le_compat_r; [assumption|lra].
Qed.

Lemma rounded_err_below (k : Z) : (v < pw k)%Q -> (Qabs (valQ M E - v) <= pw (k - 54))%Q.
Proof.
  intros Hk. eapply Qle_trans; [apply rounded_err|].
  apply pw_le. pose proof (rounded_exponent_le k Hk). lia.
Qed.

(** A rounding never crosses a point of its own grid. *)
Lemma rounded_ge (j : Z) : (inject_Z j * pw G <= v)%Q -> (inject_Z j * pw G <= valQ M E)%Q.
Proof.
  intros Hj. rewrite rounded_val. pose proof rounded_D as HDq. pose proof (pw_pos G) as HG.
  apply Qmult_le_compat_r; [|lra]. rewrite <- Zle_Qle. apply rne_div_ge; [exact rounded_D_pos|].
  rewrite Hv in Hj. apply Qmult_le_r in Hj; [|assumption].
  rewrite Zle_Qle, inject_Z_mult.
  apply (Qmult_le_compat_r _ _ (inject_Z D)) in Hj; [|lra].
  setoid_replace (inject_Z N / inject_Z D * inject_Z D)%Q with (inject_Z N) in Hj
    by (field; lra).
  exact Hj.
Qed.

Lemma rounded_le (j : Z) : (v <= inject_Z j * pw G)%Q -> (valQ M E <= inject_Z j * pw G)%Q.
Proof.
  intros Hj. rewrite rounded_val. pose proof rounded_D as HDq. pose proof (pw_pos G) as HG.
  apply Qmult_le_compat_r; [|lra]. rewrite <- Zle_Qle. apply rne_div_le; [exact rounded_D_pos|].
  rewrite Hv in Hj. apply Qmult_le_r in Hj; [|assumption].
  rewrite Zle_Qle, inject_Z_mult.
  apply (Qmult_le_compat_r _ _ (inject_Z D)) in Hj; [|lra].
  setoid_replace (inject_Z N / inject_Z D * inject_Z D)%Q with (inject_Z N) in Hj
    by (field; lra).
  exact Hj.
Qed.

End Rounded.

(** ** Doubles that are not negative *)

Lemma Rnd_NN (lo hi : Z) (v : Q) (x : float) (f : Q) : Rnd lo hi v x f -> NN lo hi x f.
Proof.
  intros [(_ & H1 & H2)|(N & D & G & M & E & H1 & H2 & _ & _ & H3)]; [left|right]; eauto.
Qed.

Lemma RoundsZ_exact (M E : Z) : 2 ^ 52 <= M < 2 ^ 53 -> RoundsZ M 1 E M E.
Proof.
  intros H. unfold RoundsZ. split; [lia|]. split; [lia|]. left.
  split; [|reflexivity]. symmetry. apply rne_div_exact; lia.
Qed.

(** A double is the nearest double to its own value. *)
Lemma NN_Rnd (lo hi : Z) (x : float) (f : Q) : NN lo hi x f -> Rnd lo hi f x f.
Proof.
  intros [[H1 H2]|(M & E & H1 & H2 & H3)]; [left; auto|right].
  exists M, 1, E, M, E. split; [exact H1|]. split; [exact H2|].
  split; [apply RoundsZ_exact, H1|]. split; [|exact H3].
  rewrite H3. unfold valQ. field.
Qed.

Lemma Rnd_comp (lo hi : Z) (v v' : Q) (x : float) (f : Q) :
  (v == v')%Q -> Rnd lo hi v x f -> Rnd lo hi v' x f.
Proof.
  intros Hv [(H0 & H1 & H2)|(N & D & G & M & E & H1 & H2 & H3 & H4 & H5)]; [left|right].
  - rewrite <- Hv. auto.
  - exists N, D, G, M, E. rewrite <- Hv. auto.
Qed.

(** The error of a rounding of a value under [2^k]. *)
Lemma Rnd_err (lo hi : Z) (v : Q) (x : float) (f : Q) (k : Z) :
  Rnd lo hi v x f -> (v < pw k)%Q -> (Qabs (f - v) <= pw (k - 54))%Q.
Proof.
  intros [(H0 & _ & H2)|(N & D & G & M & E & H1 & H2 & H3 & H4 & H5)] Hk.
  - rewrite H0, H2. setoid_replace (0 - 0)%Q with 0%Q by ring. simpl.
    apply Qlt_le_weak, pw_pos.
  - rewrite H5. apply (rounded_err_below N D G M E v H3 H4 k Hk).
Qed.

(** ** Integers *)

Lemma ofZ_NN (z : Z) : 0 <= z < 2 ^ 53 -> NN (-52) 0 (Binary64.ofZ z) (inject_Z z).
Proof.
  intros Hz. destruct (Z.eq_dec z 0) as [->|Hnz].
  - left. split; reflexivity.
  - right. destruct (ofZ_PN z ltac:(lia)) as (M & E & H1 & H2 & H3).
    exists M, E. split; [assumption|]. split; [assumption|].
    unfold valQ. rewrite H3, inject_Z_mult, pw_inject by lia.
    rewrite <- Qmult_assoc, <- pw_add. replace (- E + E) with 0 by lia.
    change (pw 0) with 1%Q. ring.
Qed.

(** ** Quotient, sum and product *)

Lemma div_Rnd (x y : float) (p q : Q) :
  NN (-52) 0 x p -> NN (-52) 0 y q -> (0 < q)%Q ->
  exists f, Rnd (-105) 1 (p / q) (x / y) f.
Proof.
  intros Hx Hy Hq.
  destruct Hy as [[_ Hy]|(My & Ey & Hy & Hey & Hqv)]; [rewrite Hy in Hq; discriminate Hq|].
  destruct Hx as [[Hx Hp]|(Mx & Ex & Hx & Hex & Hpv)].
  - exists 0%Q. left. split; [rewrite Hp; field; lra|]. split; [|reflexivity].
    rewrite FloatAxioms.div_spec, Hx. destruct Hy as [Hy _]. rewrite Hy. reflexivity.
  - destruct (div_PN x y Mx Ex My Ey Hx Hy ltac:(lia) ltac:(lia))
      as (M & E & n & H1 & H2 & H3).
    exists (valQ M E). right.
    exists (Mx * 2 ^ 53), (My * 2 ^ n), (Ex - Ey - 53 + n), M, E.
    split; [assumption|]. split.
    { destruct H3 as (_ & _ & [[_ HE]|[_ [_ HE]]]); lia. }
    split; [assumption|]. split; [|reflexivity].
    rewrite Hpv, Hqv. unfold valQ.
    rewrite !inject_Z_mult, !pw_inject by lia.
    replace (Ex - Ey - 53 + n) with (Ex + (- Ey + (- (53) + n))) by lia.
    rewrite !pw_add.
    assert (Hm : (0 < inject_Z My)%Q).
    { replace 0%Q with (inject_Z 0) by reflexivity. rewrite <- Zlt_Qlt.
      apply (proj1 (PN_pos _ _ _ Hy)). }
    pose proof (pw_pos Ey) as He. pose proof (pw_pos n) as Hn. pose proof (pw_pos 53) as H53.
    assert (Hi : (pw (- Ey) == / pw Ey)%Q) by (unfold pw; apply Qpower_opp).
    assert (Hi' : (pw (- (53)) == / pw 53)%Q) by (unfold pw; apply Qpower_opp).
    rewrite Hi, Hi'. field. repeat split; lra.
Qed.

Lemma add_Rnd (lo hi : Z) (x y : float) (p q : Q) :
  -1074 <= lo -> hi + 3 <= 971 ->
  NN lo hi x p -> NN lo hi y q ->
  exists f, Rnd lo (hi + 2) (p + q) (x + y) f.
Proof.
  intros Hlo Hhi Hx Hy.
  destruct Hx as [[Hx Hp]|(Mx & Ex & Hx & Hex & Hpv)];
    destruct Hy as [[Hy Hq]|(My & Ey & Hy & Hey & Hqv)].
  - exists 0%Q. left. split; [rewrite Hp, Hq; ring|]. split; [|reflexivity].
    rewrite FloatAxioms.add_spec, Hx, Hy. reflexivity.
  - exists q. apply (Rnd_comp lo (hi + 2) q); [rewrite Hp; ring|].
    assert (E : (x + y)%float = y).
    { apply Prim2SF_inj. rewrite FloatAxioms.add_spec, Hx. destruct Hy as [Hy _].
      rewrite Hy. reflexivity. }
    rewrite E. apply NN_Rnd. right. exists My, Ey.
    split; [exact Hy|]. split; [lia|exact Hqv].
  - exists p. apply (Rnd_comp lo (hi + 2) p); [rewrite Hq; ring|].
    assert (E : (x + y)%float = x).
    { apply Prim2SF_inj. rewrite FloatAxioms.add_spec, Hy. destruct Hx as [Hx _].
      rewrite Hx. reflexivity. }
    rewrite E. apply NN_Rnd. right. exists Mx, Ex.
    split; [exact Hx|]. split; [lia|exact Hpv].
  - destruct (add_PN x y Mx Ex My Ey Hx Hy ltac:(lia) ltac:(lia))
      as (M & E & n & H1 & H2 & H3).
    exists (valQ M E). right.
    exists (Mx * 2 ^ (Ex - Z.min Ex Ey) + My * 2 ^ (Ey - Z.min Ex Ey)), (2 ^ n),
      (Z.min Ex Ey + n), M, E.
    split; [assumption|]. split.
    { destruct H3 as (_ & _ & [[_ HE]|[_ [_ HE]]]); lia. }
    split; [assumption|]. split; [|reflexivity].
    rewrite Hpv, Hqv. unfold valQ.
    rewrite inject_Z_plus, !inject_Z_mult, !pw_inject by lia.
    set (ez := Z.min Ex Ey).
    replace Ex with (Ex - ez + ez) at 1 by lia.
    replace Ey with (Ey - ez + ez) at 1 by lia.
    rewrite !pw_add. pose proof (pw_pos n) as Hn. field. lra.
Qed.

Lemma mul_Rnd (lo hi : Z) (x y : float) (p q : Q) (My Ey : Z) :
  PN y My Ey -> (q == valQ My Ey)%Q ->
  -1074 <= lo + Ey + 52 -> hi + Ey + 54 <= 971 ->
  NN lo hi x p ->
  exists f, Rnd (lo + Ey + 52) (hi + Ey + 54) (p * q) (x * y) f.
Proof.
  intros Hy Hqv Hlo Hhi Hx.
  destruct Hx as [[Hx Hp]|(Mx & Ex & Hx & Hex & Hpv)].
  - exists 0%Q. left. split; [rewrite Hp; ring|]. split; [|reflexivity].
    rewrite FloatAxioms.mul_spec, Hx. destruct Hy as [Hy _]. rewrite Hy. reflexivity.
  - destruct (mul_PN x y Mx Ex My Ey Hx Hy ltac:(lia) ltac:(lia))
      as (M & E & n & H1 & H2 & H3).
    exists (valQ M E). right.
    exists (Mx * My), (2 ^ n), (Ex + Ey + n), M, E.
    split; [assumption|]. split.
    { destruct H3 as (_ & _ & [[_ HE]|[_ [_ HE]]]); lia. }
    split; [assumption|]. split; [|reflexivity].
    rewrite Hpv, Hqv. unfold valQ.
    rewrite !inject_Z_mult, !pw_inject by lia.
    rewrite !pw_add. pose proof (pw_pos n) as Hn. field. lra.
Qed.

(** ** The floor *)

Lemma floor_NN (lo hi : Z) (x : float) (f : Q) : NN lo hi x f -> Binary64.floor x = Some (Qfloor f).
Proof.
  intros [[Hx Hf]|(M & E & Hx & _ & Hf)]; unfold Binary64.floor.
  - rewrite Hx. f_equal. now rewrite (Qfloor_comp _ _ Hf).
  - destruct (PN_pos _ _ _ Hx) as [HM HMp]. destruct Hx as [Hx _]. rewrite Hx, HMp.
    f_equal. rewrite (Qfloor_comp _ _ Hf). unfold valQ.
    destruct (Z.le_ge_cases 0 E) as [HE|HE].
    + replace (Z.max E 0) with E by lia. replace (Z.max (- E) 0) with 0 by lia.
      rewrite Z.pow_0_r, Z.div_1_r.
      rewrite <- pw_inject, <- inject_Z_mult by assumption. symmetry. apply Qfloor_Z.
    + replace (Z.max E 0) with 0 by lia. replace (Z.max (- E) 0) with (- E) by lia.
      rewrite Z.pow_0_r, Z.mul_1_r.
      assert (Hp : 0 < 2 ^ (- E)) by (apply Z.pow_pos_nonneg; lia).
      assert (Hq : (inject_Z M * pw E == M # Z.to_pos (2 ^ (- E)))%Q).
      { assert (Hi : (pw E == / pw (- E))%Q).
        { unfold pw. rewrite <- Qpower_opp. now rewrite Z.opp_involutive. }
        rewrite Hi, <- pw_inject by lia.
        rewrite (Qmake_Qdiv M). rewrite Z2Pos.id by lia. reflexivity. }
      rewrite (Qfloor_comp _ _ Hq). cbn [Qfloor]. now rewrite Z2Pos.id by lia.
Qed.

(** ** The floor as a double *)

Lemma mathFloor_examples :
  Binary64.mathFloor 299.99999999999994 = 299%float
  /\ Binary64.mathFloor 300 = 300%float
  /\ Binary64.mathFloor 0.5 = 0%float
  /\ Binary64.mathFloor (-0.5) = (-1)%float
  /\ Binary64.mathFloor (-2.5) = (-3)%float
  /\ Binary64.mathFloor nan = nan
  /\ Binary64.mathFloor infinity = infinity.
Proof. repeat split; reflexivity. Qed.

Lemma pw_52 : pw 52 = 4503599627370496%Q. Proof. reflexivity. Qed.

Lemma PN_exponent_neg (x : float) (M E : Z) (f : Q) :
  PN x M E -> (f == valQ M E)%Q -> (f < pw 52)%Q -> E < 0.
Proof.
  intros [_ HM] Hf Hlt.
  assert (Hle : (pw (52 + E) <= f)%Q).
  { rewrite Hf, pw_add. unfold valQ. apply Qmult_le_compat_r.
    - rewrite <- pw_inject by lia. rewrite <- Zle_Qle. lia.
    - apply Qlt_le_weak, pw_pos. }
  assert (H : (pw (52 + E) < pw 52)%Q) by (eapply Qle_lt_trans; eassumption).
  apply pw_lt_inv in H. lia.
Qed.

(** Below [2^52] the two floors agree. *)
Lemma mathFloor_NN (lo hi : Z) (x : float) (f : Q) :
  NN lo hi x f -> (f < pw 52)%Q -> Binary64.mathFloor x = Binary64.ofZ (Qfloor f).
Proof.
  intros HN Hlt. pose proof (floor_NN _ _ _ _ HN) as Hfl.
  destruct HN as [[Hx Hf]|(M & E & Hx & _ & Hf)].
  - unfold Binary64.mathFloor. rewrite Hx.
    rewrite (Qfloor_comp _ _ Hf). change (Qfloor 0) with 0.
    apply Prim2SF_inj. rewrite Hx. reflexivity.
  - pose proof (PN_exponent_neg _ _ _ _ Hx Hf Hlt) as HE.
    destruct Hx as [Hx _]. unfold Binary64.floor in Hfl. rewrite Hx in Hfl.
    unfold Binary64.mathFloor. rewrite Hx.
    replace (E <? 0) with true by (symmetry; apply Z.ltb_lt; exact HE).
    cbv zeta in Hfl.
    replace (Z.max E 0) with 0 in Hfl by lia.
    replace (Z.max (- E) 0) with (- E) in Hfl by lia.
    rewrite Z.pow_0_r, Z.mul_1_r in Hfl. congruence.
Qed.

(** ** The raw rating *)

Lemma PN_500 : PN 500%float (500 * 2 ^ 44) (-44).
Proof. split; [reflexivity|]. split; [vm_compute; discriminate|reflexivity]. Qed.

Lemma val_500 : (500 == valQ (500 * 2 ^ 44) (-44))%Q.
Proof. reflexivity. Qed.

Lemma ratio_bounds (a b : Z) :
  0 <= a <= b -> 0 < b -> (0 <= inject_Z a / inject_Z b <= 1)%Q.
Proof.
  intros Ha Hb.
  assert (Hbq : (0 < inject_Z b)%Q)
    by (replace 0%Q with (inject_Z 0) by reflexivity; rewrite <- Zlt_Qlt; lia).
  assert (Haq : (0 <= inject_Z a)%Q)
    by (replace 0%Q with (inject_Z 0) by reflexivity; rewrite <- Zle_Qle; lia).
  assert (Hab : (inject_Z a <= inject_Z b)%Q) by (rewrite <- Zle_Qle; lia).
  split.
  - apply Qle_shift_div_l; [assumption|]. lra.
  - apply Qle_shift_div_r; [assumption|]. lra.
Qed.

Lemma Qabs_bound (x y : Q) : (Qabs x <= y)%Q -> (- y <= x <= y)%Q.
Proof. apply Qabs_Qle_condition. Qed.

Lemma pw_m53 : pw (-53) = (1 # 9007199254740992)%Q. Proof. reflexivity. Qed.
Lemma pw_m52 : pw (-52) = (1 # 4503599627370496)%Q. Proof. reflexivity. Qed.
Lemma pw_m44 : pw (-44) = (1 # 17592186044416)%Q. Proof. reflexivity. Qed.
Lemma pw_1 : pw 1 = 2%Q. Proof. reflexivity. Qed.
Lemma pw_2 : pw 2 = 4%Q. Proof. reflexivity. Qed.
Lemma pw_10 : pw 10 = 1024%Q. Proof. reflexivity. Qed.

(** The double that is floored, within [2^-41] of the exact value. *)
Lemma rating_close (a b c d : Z) :
  0 <= a <= b -> 0 < b < 2 ^ 53 -> 0 <= c <= d -> 0 < d < 2 ^ 53 ->
  exists t,
    Binary64.floor ((Binary64.ofZ a / Binary64.ofZ b + Binary64.ofZ c / Binary64.ofZ d) * 500)%float
    = Some (Qfloor t)
    /\ Binary64.mathFloor
         ((Binary64.ofZ a / Binary64.ofZ b + Binary64.ofZ c / Binary64.ofZ d) * 500)%float
       = Binary64.ofZ (Qfloor t)
    /\ (Qabs (t - 500 * (inject_Z a / inject_Z b + inject_Z c / inject_Z d))
        <= 1 # 2199023255552)%Q.
Proof.
  intros Ha Hb Hc Hd.
  pose proof (ratio_bounds a b Ha ltac:(lia)) as Hx.
  pose proof (ratio_bounds c d Hc ltac:(lia)) as Hy.
  set (x := (inject_Z a / inject_Z b)%Q) in *. set (y := (inject_Z c / inject_Z d)%Q) in *.
  assert (Hbq : (0 < inject_Z b)%Q)
    by (replace 0%Q with (inject_Z 0) by reflexivity; rewrite <- Zlt_Qlt; lia).
  assert (Hdq : (0 < inject_Z d)%Q)
    by (replace 0%Q with (inject_Z 0) by reflexivity; rewrite <- Zlt_Qlt; lia).
  destruct (div_Rnd (Binary64.ofZ a) (Binary64.ofZ b) (inject_Z a) (inject_Z b)) as [q1 H1];
    [apply ofZ_NN; lia|apply ofZ_NN; lia|assumption|]. fold x in H1.
  destruct (div_Rnd (Binary64.ofZ c) (Binary64.ofZ d) (inject_Z c) (inject_Z d)) as [q2 H2];
    [apply ofZ_NN; lia|apply ofZ_NN; lia|assumption|]. fold y in H2.
  pose proof (Rnd_err _ _ _ _ _ 1 H1 ltac:(rewrite pw_1; lra)) as E1.
  pose proof (Rnd_err _ _ _ _ _ 1 H2 ltac:(rewrite pw_1; lra)) as E2.
  replace (1 - 54) with (-53) in E1, E2 by lia. rewrite pw_m53 in E1, E2.
  apply Qabs_bound in E1, E2.
  destruct (add_Rnd (-105) 1 _ _ q1 q2 ltac:(lia) ltac:(lia) (Rnd_NN _ _ _ _ _ H1)
              (Rnd_NN _ _ _ _ _ H2)) as [s H3].
  pose proof (Rnd_err _ _ _ _ _ 2 H3 ltac:(rewrite pw_2; lra)) as E3.
  replace (2 - 54) with (-52) in E3 by lia. rewrite pw_m52 in E3.
  apply Qabs_bound in E3.
  destruct (mul_Rnd (-105) (1 + 2) _ 500%float s 500 _ _ PN_500 val_500
              ltac:(lia) ltac:(lia) (Rnd_NN _ _ _ _ _ H3)) as [t H4].
  pose proof (Rnd_err _ _ _ _ _ 10 H4 ltac:(rewrite pw_10; lra)) as E4.
  replace (10 - 54) with (-44) in E4 by lia. rewrite pw_m44 in E4.
  apply Qabs_bound in E4.
  exists t. split; [|split].
  - apply (floor_NN _ _ _ _ (Rnd_NN _ _ _ _ _ H4)).
  - apply (mathFloor_NN _ _ _ _ (Rnd_NN _ _ _ _ _ H4)). rewrite pw_52. lra.
  - apply Qabs_Qle_condition. lra.
Qed.

(** ** Two fractions that add up to 1 *)

Lemma pw_m54 : pw (-54) = (1 # 18014398509481984)%Q. Proof. reflexivity. Qed.
Lemma pw_m1 : pw (-1) = (1 # 2)%Q. Proof. reflexivity. Qed.
Lemma pw_0 : pw 0 = 1%Q. Proof. reflexivity. Qed.

Lemma inject_Z_pos (z : Z) : 0 < z -> (0 < inject_Z z)%Q.
Proof. intros H. replace 0%Q with (inject_Z 0) by reflexivity. now rewrite <- Zlt_Qlt. Qed.

(** From a bound on [N / D] in the rationals to one in the integers. *)
Lemma ratio_ge (N D : Z) (c : Q) (j k : Z) :
  0 < D -> 0 < k -> (c == inject_Z j / inject_Z k)%Q ->
  (c <= inject_Z N / inject_Z D)%Q -> j * D <= k * N.
Proof.
  intros HD Hk Hc H. pose proof (inject_Z_pos D HD) as Hd. pose proof (inject_Z_pos k Hk) as Hkq.
  rewrite Hc in H.
  apply (Qmult_le_compat_r _ _ (inject_Z D)) in H; [|lra].
  apply (Qmult_le_compat_r _ _ (inject_Z k)) in H; [|lra].
  setoid_replace (inject_Z j / inject_Z k * inject_Z D * inject_Z k)%Q
    with (inject_Z j * inject_Z D)%Q in H by (field; lra).
  setoid_replace (inject_Z N / inject_Z D * inject_Z D * inject_Z k)%Q
    with (inject_Z k * inject_Z N)%Q in H by (field; lra).
  rewrite <- !inject_Z_mult, <- Zle_Qle in H. exact H.
Qed.

Lemma ratio_le (N D : Z) (c : Q) (j k : Z) :
  0 < D -> 0 < k -> (c == inject_Z j / inject_Z k)%Q ->
  (inject_Z N / inject_Z D <= c)%Q -> k * N <= j * D.
Proof.
  intros HD Hk Hc H. pose proof (inject_Z_pos D HD) as Hd. pose proof (inject_Z_pos k Hk) as Hkq.
  rewrite Hc in H.
  apply (Qmult_le_compat_r _ _ (inject_Z D)) in H; [|lra].
  apply (Qmult_le_compat_r _ _ (inject_Z k)) in H; [|lra].
  setoid_replace (inject_Z j / inject_Z k * inject_Z D * inject_Z k)%Q
    with (inject_Z j * inject_Z D)%Q in H by (field; lra).
  setoid_replace (inject_Z N / inject_Z D * inject_Z D * inject_Z k)%Q
    with (inject_Z k * inject_Z N)%Q in H by (field; lra).
  rewrite <- !inject_Z_mult, <- Zle_Qle in H. exact H.
Qed.

(** The double of a sum that lies within [2^-54] of 1 is 1. *)
Lemma sum_is_one (lo hi : Z) (X Y : float) (fu fw : Q) :
  -1074 <= lo -> hi + 3 <= 971 ->
  NN lo hi X fu -> NN lo hi Y fw ->
  (1 - pw (-54) <= fu + fw <= 1 + pw (-54))%Q ->
  (X + Y)%float = 1%float.
Proof.
  intros Hlo Hhi HX HY Hsum. rewrite pw_m54 in Hsum.
  destruct (add_Rnd lo hi X Y fu fw Hlo Hhi HX HY) as [s Hs].
  destruct Hs as [(H0 & _)|(N & D & G & M & E & HPN & _ & HR & Hv & Hf)]; [lra|].
  apply Prim2SF_inj. destruct HPN as [HP HM]. rewrite HP.
  pose proof HR as (HD & [Hb1 Hb2] & Hcase).
  pose proof (inject_Z_pos D HD) as Hd.
  assert (Hgoal : M = 2 ^ 52 /\ E = -52).
  2:{ destruct Hgoal as [-> ->]. reflexivity. }
  destruct (Qlt_le_dec (fu + fw) 1) as [Hlt|Hge].
  - (* below 1: the grid is 2^-53 and the sum rounds up to 2^53 units *)
    assert (HG : G = -53).
    { apply (rounded_exponent N D G M E (fu + fw)%Q HR Hv).
      replace (52 + -53) with (-1) by lia. replace (53 + -53) with 0 by lia.
      rewrite pw_m1, pw_0. lra. }
    subst G. rewrite pw_m53 in Hv.
    assert (Hz : ((18014398509481983 # 2) <= inject_Z N / inject_Z D)%Q).
    { set (z := (inject_Z N / inject_Z D)%Q) in *. lra. }
    assert (HN : (2 ^ 54 - 1) * D <= 2 * N).
    { apply (ratio_ge N D (18014398509481983 # 2) (2 ^ 54 - 1) 2); try lia; [reflexivity|exact Hz]. }
    assert (HRle : rne_div N D <= 2 ^ 53) by (apply rne_div_le; lia).
    assert (HRge : 2 ^ 53 <= rne_div N D).
    { destruct (Z.eq_dec (2 * N) ((2 ^ 54 - 1) * D)) as [Heq|Hne].
      - rewrite (rne_div_tie N D (2 ^ 53 - 1)); [reflexivity|lia|].
        rewrite Heq. f_equal.
      - pose proof (rne_div_err N D HD) as He. apply Z.abs_le in He.
        assert ((2 ^ 54 - 2) * D < 2 * (rne_div N D * D)) by lia.
        change (2 ^ 54 - 2) with (2 * (2 ^ 53 - 1)) in H. nia. }
    destruct Hcase as [[HM' HE]|[_ [HM' HE]]]; [lia|]. split; [assumption|lia].
  - (* 1 or more: the grid is 2^-52 and the sum rounds down to 2^52 units *)
    assert (HG : G = -52).
    { apply (rounded_exponent N D G M E (fu + fw)%Q HR Hv).
      replace (52 + -52) with 0 by lia. replace (53 + -52) with 1 by lia.
      rewrite pw_0, pw_1. lra. }
    subst G. rewrite pw_m52 in Hv.
    assert (Hz : (inject_Z N / inject_Z D <= (18014398509481985 # 4))%Q).
    { set (z := (inject_Z N / inject_Z D)%Q) in *. lra. }
    assert (HN : 4 * N <= (2 ^ 54 + 1) * D).
    { apply (ratio_le N D (18014398509481985 # 4) (2 ^ 54 + 1) 4); try lia; [reflexivity|exact Hz]. }
    assert (HRge : 2 ^ 52 <= rne_div N D) by (apply rne_div_ge; lia).
    assert (HRle : rne_div N D <= 2 ^ 52).
    { pose proof (rne_div_err N D HD) as He. apply Z.abs_le in He.
      assert (4 * (rne_div N D * D) <= (2 ^ 54 + 3) * D) by lia.
      change (2 ^ 54 + 3) with (4 * 2 ^ 52 + 3) in H. nia. }
    destruct Hcase as [[HM' HE]|[HR' _]]; [|lia]. split; lia.
Qed.

Lemma Rnd_positive (lo hi : Z) (v : Q) (x : float) (f : Q) :
  Rnd lo hi v x f -> (0 < v)%Q ->
  exists N D G M E,
    RoundsZ N D G M E /\ (v == inject_Z N / inject_Z D * pw G)%Q /\ (f == valQ M E)%Q.
Proof.
  intros [(H0 & _)|(N & D & G & M & E & _ & _ & H1 & H2 & H3)] Hv; [lra|].
  exists N, D, G, M, E. auto.
Qed.

(** A value on the grid of a rounding is its own rounding. *)
Lemma rounded_fix (N D G M E : Z) (v : Q) (j : Z) :
  RoundsZ N D G M E -> (v == inject_Z N / inject_Z D * pw G)%Q ->
  (v == inject_Z j * pw G)%Q -> (valQ M E == v)%Q.
Proof.
  intros HR Hv Hj. apply Qle_antisym.
  - rewrite Hj. apply (rounded_le N D G M E v HR Hv). rewrite Hj. apply Qle_refl.
  - rewrite Hj. apply (rounded_ge N D G M E v HR Hv). rewrite Hj. apply Qle_refl.
Qed.

(** The doubles of two fractions that add up to 1 add up to 1 within
    [2^-54]. *)
Lemma halves_close (lo hi lo' hi' : Z) (u w : Q) (X Y : float) (fu fw : Q) :
  Rnd lo hi u X fu -> Rnd lo' hi' w Y fw ->
  (u + w == 1)%Q -> (0 <= w <= u)%Q ->
  (1 - pw (-54) <= fu + fw <= 1 + pw (-54))%Q.
Proof.
  intros Hu Hw Hsum [Hw0 Hwu]. rewrite pw_m54.
  assert (Hu1 : ((1 # 2) <= u <= 1)%Q) by lra.
  destruct (Rnd_positive _ _ _ _ _ Hu ltac:(lra)) as (N1 & D1 & G1 & M1 & E1 & HR1 & Hv1 & Hf1).
  destruct Hw as [(H0 & _ & Hfw)|(N2 & D2 & G2 & M2 & E2 & _ & _ & HR2 & Hv2 & Hf2)].
  - (* w = 0, u = 1 *)
    assert (HG : G1 = -52).
    { apply (rounded_exponent N1 D1 G1 M1 E1 u HR1 Hv1).
      replace (52 + -52) with 0 by lia. replace (53 + -52) with 1 by lia.
      rewrite pw_0, pw_1. lra. }
    subst G1.
    assert (Hfix : (valQ M1 E1 == u)%Q).
    { apply (rounded_fix N1 D1 (-52) M1 E1 u (2 ^ 52) HR1 Hv1).
      rewrite pw_m52. change (inject_Z (2 ^ 52)) with (4503599627370496 # 1)%Q. lra. }
    rewrite Hf1, Hfix, Hfw. lra.
  - assert (Hwpos : (0 < w)%Q).
    { destruct (rounded_binade N2 D2 G2 M2 E2 w HR2 Hv2) as [Hb _].
      pose proof (pw_pos (52 + G2)). lra. }
    assert (HG1 : G1 = -53).
    { apply (rounded_exponent N1 D1 G1 M1 E1 u HR1 Hv1).
      replace (52 + -53) with (-1) by lia. replace (53 + -53) with 0 by lia.
      rewrite pw_m1, pw_0. lra. }
    subst G1.
    pose proof (rounded_err N1 D1 (-53) M1 E1 u HR1 Hv1) as Herr.
    replace (-53 - 1) with (-54) in Herr by lia. rewrite pw_m54 in Herr.
    apply Qabs_bound in Herr.
    pose proof (rounded_val N1 D1 (-53) M1 E1 HR1) as Hval1. rewrite pw_m53 in Hval1.
    set (r1 := rne_div N1 D1) in *.
    rewrite <- Hf1 in Herr, Hval1.
    pose proof (rounded_exponent_le N2 D2 G2 M2 E2 w HR2 Hv2 0 ltac:(rewrite pw_0; lra)) as HG2.
    destruct (Z.eq_dec G2 (-53)) as [HG2'|HG2'].
    + (* w = u = 1/2 *)
      subst G2.
      destruct (rounded_binade N2 D2 (-53) M2 E2 w HR2 Hv2) as [Hb _].
      replace (52 + -53) with (-1) in Hb by lia. rewrite pw_m1 in Hb.
      assert (Hfix2 : (valQ M2 E2 == w)%Q).
      { apply (rounded_fix N2 D2 (-53) M2 E2 w (2 ^ 52) HR2 Hv2).
        rewrite pw_m53. change (inject_Z (2 ^ 52)) with (4503599627370496 # 1)%Q. lra. }
      assert (Hfix1 : (fu == u)%Q).
      { rewrite Hf1. apply (rounded_fix N1 D1 (-53) M1 E1 u (2 ^ 52) HR1 Hv1).
        rewrite pw_m53. change (inject_Z (2 ^ 52)) with (4503599627370496 # 1)%Q. lra. }
      rewrite Hf2, Hfix2, Hfix1. lra.
    + set (e := -54 - G2).
      assert (He : 0 <= e) by (subst e; lia).
      assert (Hgrid : (inject_Z (2 ^ e) * pw G2 == 1 # 18014398509481984)%Q).
      { rewrite pw_inject, <- pw_add by assumption. replace (e + G2) with (-54) by (subst e; lia).
        rewrite pw_m54. reflexivity. }
      assert (Hlo : (inject_Z ((2 ^ 54 - 2 * r1 - 1) * 2 ^ e) * pw G2 <= valQ M2 E2)%Q).
      { apply (rounded_ge N2 D2 G2 M2 E2 w HR2 Hv2).
        rewrite inject_Z_mult, <- Qmult_assoc, Hgrid.
        replace (2 ^ 54 - 2 * r1 - 1) with (2 ^ 54 + (- (2 * r1) + - (1))) by lia.
        rewrite !inject_Z_plus, !inject_Z_opp, inject_Z_mult.
        change (inject_Z (2 ^ 54)) with (18014398509481984 # 1)%Q.
        change (inject_Z 2) with 2%Q. change (inject_Z 1) with 1%Q.
        set (q := inject_Z r1) in *. clearbody q. clear - Herr Hval1 Hsum. lra. }
      assert (Hhi : (valQ M2 E2 <= inject_Z ((2 ^ 54 - 2 * r1 + 1) * 2 ^ e) * pw G2)%Q).
      { apply (rounded_le N2 D2 G2 M2 E2 w HR2 Hv2).
        rewrite inject_Z_mult, <- Qmult_assoc, Hgrid.
        replace (2 ^ 54 - 2 * r1 + 1) with (2 ^ 54 + (- (2 * r1) + 1)) by lia.
        rewrite !inject_Z_plus, !inject_Z_opp, inject_Z_mult.
        change (inject_Z (2 ^ 54)) with (18014398509481984 # 1)%Q.
        change (inject_Z 2) with 2%Q. change (inject_Z 1) with 1%Q.
        set (q := inject_Z r1) in *. clearbody q. clear - Herr Hval1 Hsum. lra. }
      rewrite <- Hf2 in Hlo, Hhi.
      rewrite inject_Z_mult, <- Qmult_assoc, Hgrid in Hlo, Hhi.
      replace (2 ^ 54 - 2 * r1 - 1) with (2 ^ 54 + (- (2 * r1) + - (1))) in Hlo by lia.
      replace (2 ^ 54 - 2 * r1 + 1) with (2 ^ 54 + (- (2 * r1) + 1)) in Hhi by lia.
      rewrite !inject_Z_plus, !inject_Z_opp, inject_Z_mult in Hlo, Hhi.
      change (inject_Z (2 ^ 54)) with (18014398509481984 # 1)%Q in Hlo, Hhi.
      change (inject_Z 2) with 2%Q in Hlo, Hhi. change (inject_Z 1) with 1%Q in Hlo, Hhi.
      change (inject_Z (- (1))) with (-1 # 1)%Q in Hlo.
      set (q := inject_Z r1) in *. clearbody q. lra.
Qed.

(** The two fractions of a pairing in which both sides rate alike: the sum
    that is multiplied by 500 is the double 1. *)
Lemma unit_sum (a b c d : Z) :
  0 <= a <= b -> 0 < b < 2 ^ 53 -> 0 <= c <= d -> 0 < d < 2 ^ 53 ->
  a * d + c * b = b * d ->
  (Binary64.ofZ a / Binary64.ofZ b + Binary64.ofZ c / Binary64.ofZ d)%float = 1%float.
Proof.
  intros Ha Hb Hc Hd Heq.
  pose proof (ratio_bounds a b Ha ltac:(lia)) as Hx.
  pose proof (ratio_bounds c d Hc ltac:(lia)) as Hy.
  pose proof (inject_Z_pos b ltac:(lia)) as Hbq. pose proof (inject_Z_pos d ltac:(lia)) as Hdq.
  assert (Hsum : (inject_Z a / inject_Z b + inject_Z c / inject_Z d == 1)%Q).
  { assert (H : (inject_Z a * inject_Z d + inject_Z c * inject_Z b
                 == inject_Z b * inject_Z d)%Q).
    { rewrite <- !inject_Z_mult, <- inject_Z_plus. now rewrite Heq. }
    setoid_replace (inject_Z a / inject_Z b + inject_Z c / inject_Z d)%Q
      with ((inject_Z a * inject_Z d + inject_Z c * inject_Z b)
            / (inject_Z b * inject_Z d))%Q by (field; lra).
    rewrite H. field. lra. }
  set (x := (inject_Z a / inject_Z b)%Q) in *. set (y := (inject_Z c / inject_Z d)%Q) in *.
  destruct (div_Rnd (Binary64.ofZ a) (Binary64.ofZ b) (inject_Z a) (inject_Z b)) as [q1 H1];
    [apply ofZ_NN; lia|apply ofZ_NN; lia|assumption|]. fold x in H1.
  destruct (div_Rnd (Binary64.ofZ c) (Binary64.ofZ d) (inject_Z c) (inject_Z d)) as [q2 H2];
    [apply ofZ_NN; lia|apply ofZ_NN; lia|assumption|]. fold y in H2.
  apply (sum_is_one (-105) 1 _ _ q1 q2); try lia;
    [apply (Rnd_NN _ _ _ _ _ H1)|apply (Rnd_NN _ _ _ _ _ H2)|].
  destruct (Qlt_le_dec x y) as [Hlt|Hge].
  - assert (H := halves_close _ _ _ _ y x _ _ q2 q1 H2 H1 ltac:(lra) ltac:(lra)). lra.
  - apply (halves_close _ _ _ _ x y _ _ q1 q2 H1 H2); lra.
Qed.

Lemma fractions_sum (a b c d : Z) :
  0 < b -> 0 < d ->
  (inject_Z a / inject_Z b + inject_Z c / inject_Z d
   == inject_Z (a * d + c * b) / inject_Z (b * d))%Q.
Proof.
  intros Hb Hd. pose proof (inject_Z_pos b Hb). pose proof (inject_Z_pos d Hd).
  rewrite inject_Z_plus, !inject_Z_mult. field. split; lra.
Qed.

(** Two fractions with denominators up to [2^24] that add up to more than 1
    add up to [1 + 2^-48] at least. *)
Lemma excess (a b c d : Z) :
  0 < b <= 2 ^ 24 -> 0 < d <= 2 ^ 24 -> b * d < a * d + c * b ->
  (1 + (1 # 281474976710656) <= inject_Z a / inject_Z b + inject_Z c / inject_Z d)%Q.
Proof.
  intros Hb Hd H. rewrite fractions_sum by lia.
  assert (Hbd : 0 < b * d <= 2 ^ 48) by (change (2 ^ 48) with (2 ^ 24 * 2 ^ 24); nia).
  pose proof (inject_Z_pos (b * d) ltac:(lia)) as Hq.
  apply Qle_shift_div_l; [assumption|].
  assert (H1 : (inject_Z (b * d) + 1 <= inject_Z (a * d + c * b))%Q).
  { change 1%Q with (inject_Z 1). rewrite <- inject_Z_plus, <- Zle_Qle. lia. }
  assert (H2 : (inject_Z (b * d) <= 281474976710656)%Q).
  { change (281474976710656)%Q with (inject_Z (2 ^ 48)). rewrite <- Zle_Qle. lia. }
  set (z := inject_Z (b * d)) in *. set (n := inject_Z (a * d + c * b)) in *.
  clearbody z n. lra.
Qed.

Lemma floor_bounds (t : Q) : (inject_Z (Qfloor t) <= t < inject_Z (Qfloor t) + 1)%Q.
Proof.
  split; [apply Qfloor_le|]. pose proof (Qlt_floor t) as H.
  rewrite inject_Z_plus in H. exact H.
Qed.

(** In binary64, for hit points between 0 and a maximum of [2^24] at most:
    both raw ratings are integers, they add up to 998, 999 or 1000, and when
    they are equal both are 500. *)
Lemma raw_ratings_binary64 (hp maxHp opHp opMaxHp : Z) :
  0 < maxHp <= 2 ^ 24 -> 0 < opMaxHp <= 2 ^ 24 ->
  0 <= hp <= maxHp -> 0 <= opHp <= opMaxHp ->
  exists r o,
    Binary64.mathFloor
      ((Binary64.ofZ hp / Binary64.ofZ maxHp
        + Binary64.ofZ (opMaxHp - opHp) / Binary64.ofZ opMaxHp) * 500)%float
    = Binary64.ofZ r
    /\ Binary64.mathFloor
         ((Binary64.ofZ opHp / Binary64.ofZ opMaxHp
           + Binary64.ofZ (maxHp - hp) / Binary64.ofZ maxHp) * 500)%float
       = Binary64.ofZ o
    /\ Binary64.rawRating hp maxHp opHp opMaxHp = Some r
    /\ Binary64.rawRating opHp opMaxHp hp maxHp = Some o
    /\ 998 <= r + o <= 1000
    /\ (r = o -> r = 500).
Proof.
  intros Hb Hd Ha Hc.
  assert (H24 : 2 ^ 24 < 2 ^ 53) by reflexivity.
  destruct (rating_close hp maxHp (opMaxHp - opHp) opMaxHp) as (t & Ht & Hmf & Et); try lia.
  destruct (rating_close opHp opMaxHp (maxHp - hp) maxHp) as (t' & Ht' & Hmf' & Et'); try lia.
  exists (Qfloor t), (Qfloor t'). unfold Binary64.rawRating. cbv zeta.
  split; [exact Hmf|]. split; [exact Hmf'|]. split; [exact Ht|]. split; [exact Ht'|].
  apply Qabs_bound in Et, Et'.
  pose proof (inject_Z_pos maxHp ltac:(lia)) as Hbq.
  pose proof (inject_Z_pos opMaxHp ltac:(lia)) as Hdq.
  set (X := (inject_Z hp / inject_Z maxHp
             + inject_Z (opMaxHp - opHp) / inject_Z opMaxHp)%Q) in *.
  set (X' := (inject_Z opHp / inject_Z opMaxHp
              + inject_Z (maxHp - hp) / inject_Z maxHp)%Q) in *.
  assert (HXX : (X + X' == 2)%Q).
  { subst X X'. unfold Z.sub. rewrite !inject_Z_plus, !inject_Z_opp. field. split; lra. }
  destruct (floor_bounds t) as [F1 F2]. destruct (floor_bounds t') as [F1' F2'].
  set (r := Qfloor t) in *. set (o := Qfloor t') in *.
  assert (Hsum : 998 <= r + o <= 1000).
  { assert (H1 : (inject_Z (r + o) < inject_Z 1001)%Q).
    { rewrite inject_Z_plus. change (inject_Z 1001) with 1001%Q.
      set (rq := inject_Z r) in *. set (oq := inject_Z o) in *. clearbody rq oq. lra. }
    assert (H2 : (inject_Z 997 < inject_Z (r + o))%Q).
    { rewrite inject_Z_plus. change (inject_Z 997) with 997%Q.
      set (rq := inject_Z r) in *. set (oq := inject_Z o) in *. clearbody rq oq. lra. }
    rewrite <- Zlt_Qlt in H1, H2. lia. }
  split; [exact Hsum|].
  intros Hro. destruct (Z.eq_dec r 500) as [|Hne]; [assumption|exfalso].
  assert (Hr : r = 499) by lia. assert (Ho : o = 499) by lia.
  rewrite Hr in F2. rewrite Ho in F2'.
  change (inject_Z 499 + 1)%Q with 500%Q in F2, F2'.
  destruct (Z.lt_trichotomy (hp * opMaxHp + (opMaxHp - opHp) * maxHp) (maxHp * opMaxHp))
    as [Hlt|[Heq|Hgt]].
  - (* the candidate is below 1, so the opponent is above *)
    assert (Hgt' : opMaxHp * maxHp < opHp * maxHp + (maxHp - hp) * opMaxHp) by lia.
    pose proof (excess opHp opMaxHp (maxHp - hp) maxHp Hd Hb Hgt') as He. fold X' in He.
    lra.
  - (* both sides sum to 1 exactly *)
    pose proof (unit_sum hp maxHp (opMaxHp - opHp) opMaxHp ltac:(lia) ltac:(lia)
                  ltac:(lia) ltac:(lia) Heq) as Hone.
    rewrite Hone in Ht.
    assert (H500 : Binary64.floor (1 * 500)%float = Some 500) by (vm_compute; reflexivity).
    rewrite H500 in Ht. injection Ht as Ht. lia.
  - pose proof (excess hp maxHp (opMaxHp - opHp) opMaxHp Hb Hd Hgt) as He. fold X in He.
    lra.
Qed.

(** ** Differences of integers *)

Lemma pow2_split (a b : Z) : 0 <= a -> 0 <= b -> 2 ^ (a + b) = 2 ^ a * 2 ^ b.
Proof. intros. apply Z.pow_add_r; assumption. Qed.

(** The double of an integer value [z] below [2^53], given as [p * 2^e]. *)
Lemma normalize_value (p : positive) (e z : Z) :
  1 <= z < 2 ^ 53 -> -1074 <= e <= 0 -> Z.pos p = z * 2 ^ (- e) ->
  exists M E,
    binary_normalize prec emax (Z.pos p) e false = S754_finite false (Z.to_pos M) E
    /\ 2 ^ 52 <= M < 2 ^ 53 /\ -52 <= E <= 0 /\ M = z * 2 ^ (- E).
Proof.
  intros Hz He Hp. cbn [binary_normalize]. unfold binary_round.
  destruct (Zdigits2_bounds (Z.pos p) ltac:(lia)) as [Hd0 [Hd1 Hd2]]. cbn [Zdigits2] in *.
  set (d := Z.pos (digits2_pos p)) in *.
  assert (Hpe : 0 < 2 ^ (- e)) by (apply Z.pow_pos_nonneg; lia).
  assert (Hhi : d + e <= 53).
  { destruct (Z.le_gt_cases (d + e) 53) as [H|H]; [assumption|exfalso].
    assert (H1 : 2 ^ (53 - e) <= 2 ^ (d - 1)) by (apply Z.pow_le_mono_r; lia).
    replace (53 - e) with (53 + - e) in H1 by lia.
    rewrite pow2_split in H1 by lia. nia. }
  assert (Hlo : 1 <= d + e).
  { destruct (Z.le_gt_cases 1 (d + e)) as [H|H]; [assumption|exfalso].
    assert (H1 : 2 ^ d <= 2 ^ (- e)) by (apply Z.pow_le_mono_r; lia). nia. }
  rewrite fexp_normal by lia.
  set (t := d + e - 53) in *.
  assert (Hval : forall M, M * 2 ^ (- e) = Z.pos p * 2 ^ (- t) -> M = z * 2 ^ (- t)).
  { intros M HM. rewrite Hp in HM. nia. }
  destruct (Z.le_gt_cases t e) as [Hte|Hte].
  - destruct (shl_align_down p e t Hte) as [Hm Hez].
    destruct (shl_align p e t) as [mz ez]. cbn [fst snd] in Hm, Hez. subst ez.
    assert (Hq : 0 < 2 ^ (e - t)) by (apply Z.pow_pos_nonneg; lia).
    assert (Hmz : 2 ^ 52 <= Z.pos mz < 2 ^ 53).
    { rewrite Hm. split.
      - replace (2 ^ 52) with (2 ^ (d - 1) * 2 ^ (e - t)).
        + apply Z.mul_le_mono_nonneg_r; lia.
        + rewrite <- pow2_split by lia. f_equal. lia.
      - replace (2 ^ 53) with (2 ^ d * 2 ^ (e - t)).
        + apply Z.mul_lt_mono_pos_r; lia.
        + rewrite <- pow2_split by lia. f_equal. lia. }
    assert (Hdig : Zdigits2 (Z.pos mz) = 53) by (apply digits2_unique; lia).
    destruct (round_aux_exact (Z.pos mz) t) as (M & E & H1 & H2 & H3 & H4 & H5);
      try rewrite Hdig; try lia.
    rewrite Hdig in H5. replace (53 - 53) with 0 in H5 by lia.
    rewrite Z.pow_0_r in H5.
    assert (HR : rne_div (Z.pos mz) 1 = Z.pos mz) by (apply rne_div_exact; lia).
    rewrite HR in H5.
    destruct H5 as [[HM HE]|[HM _]]; [|lia].
    exists M, E. split; [assumption|]. split; [assumption|]. split; [lia|].
    subst M E. replace (t + 0) with t by lia. apply Hval.
    rewrite Hm. rewrite <- Z.mul_assoc. f_equal.
    rewrite <- !pow2_split by lia. f_equal. lia.
  - rewrite shl_align_up by lia.
    assert (H52 : 2 ^ 52 <= Z.pos p).
    { assert (2 ^ 53 <= 2 ^ (d - 1)) by (apply Z.pow_le_mono_r; lia).
      assert (2 ^ 52 < 2 ^ 53) by reflexivity. lia. }
    destruct (round_aux_exact (Z.pos p) e H52) as (M & E & H1 & H2 & H3 & H4 & H5);
      cbn [Zdigits2]; fold d; try lia.
    cbn [Zdigits2] in H3, H4, H5. fold d in H3, H4, H5.
    assert (Hq : 0 < 2 ^ (d - 53)) by (apply Z.pow_pos_nonneg; lia).
    assert (Hdiv : Z.pos p = z * 2 ^ (- t) * 2 ^ (d - 53)).
    { rewrite Hp, <- Z.mul_assoc. f_equal. rewrite <- pow2_split by lia. f_equal. lia. }
    assert (HR : rne_div (Z.pos p) (2 ^ (d - 53)) = z * 2 ^ (- t))
      by (apply rne_div_exact; [exact Hq|exact Hdiv]).
    assert (Hquo : Z.pos p / 2 ^ (d - 53) = z * 2 ^ (- t)).
    { rewrite Hdiv. apply Z.div_mul. lia. }
    rewrite HR in H5. rewrite Hquo in H4.
    destruct H5 as [[HM HE]|[HM _]]; [|lia].
    exists M, E. split; [assumption|]. split; [assumption|]. split; [lia|].
    subst M E. f_equal. f_equal. lia.
Qed.

(** Two mantissas of 53 bits for one integer are the same. *)
Lemma binade_unique (z M E M' E' : Z) :
  0 < z -> E <= 0 -> E' <= 0 ->
  2 ^ 52 <= M < 2 ^ 53 -> 2 ^ 52 <= M' < 2 ^ 53 ->
  M = z * 2 ^ (- E) -> M' = z * 2 ^ (- E') -> M = M' /\ E = E'.
Proof.
  intros Hz HE HE' HM HM' HMz HMz'.
  assert (H2 : forall a b, 0 <= a < b -> 2 * 2 ^ a <= 2 ^ b).
  { intros a b Hab. replace b with (1 + a + (b - a - 1)) by lia.
    rewrite !pow2_split by lia. change (2 ^ 1) with 2.
    assert (0 < 2 ^ a) by (apply Z.pow_pos_nonneg; lia).
    assert (0 < 2 ^ (b - a - 1)) by (apply Z.pow_pos_nonneg; lia). nia. }
  destruct (Z.lt_trichotomy E E') as [H|[H|H]].
  - pose proof (H2 (- E') (- E) ltac:(lia)). nia.
  - subst E'. split; [congruence|reflexivity].
  - pose proof (H2 (- E) (- E') ltac:(lia)). nia.
Qed.

(** The difference of two integers below [2^53] is exact. *)
Lemma sub_ofZ (a b : Z) :
  0 <= b <= a -> a < 2 ^ 53 ->
  (Binary64.ofZ a - Binary64.ofZ b)%float = Binary64.ofZ (a - b).
Proof.
  intros Hb Ha. apply Prim2SF_inj. rewrite FloatAxioms.sub_spec.
  destruct (Z.eq_dec b 0) as [->|Hb0].
  - replace (a - 0) with a by lia.
    change (Prim2SF (Binary64.ofZ 0)) with (S754_zero false).
    destruct (Z.eq_dec a 0) as [->|Ha0]; [reflexivity|].
    destruct (ofZ_PN a ltac:(lia)) as (M & E & [HP _] & _). rewrite HP. reflexivity.
  - destruct (ofZ_PN a ltac:(lia)) as (Ma & Ea & [HPa HMa] & HEa & Hva).
    destruct (ofZ_PN b ltac:(lia)) as (Mb & Eb & [HPb HMb] & HEb & Hvb).
    rewrite HPa, HPb. unfold SF64sub, SFsub. cbn [cond_Zopp].
    set (ez := Z.min Ea Eb).
    destruct (shl_align_down (Z.to_pos Ma) Ea ez ltac:(lia)) as [Hsa _].
    destruct (shl_align_down (Z.to_pos Mb) Eb ez ltac:(lia)) as [Hsb _].
    rewrite Hsa, Hsb. rewrite !Z2Pos.id by lia.
    assert (Hpa : Ma * 2 ^ (Ea - ez) = a * 2 ^ (- ez)).
    { rewrite Hva, <- Z.mul_assoc. f_equal. rewrite <- pow2_split by lia. f_equal. lia. }
    assert (Hpb : Mb * 2 ^ (Eb - ez) = b * 2 ^ (- ez)).
    { rewrite Hvb, <- Z.mul_assoc. f_equal. rewrite <- pow2_split by lia. f_equal. lia. }
    rewrite Hpa, Hpb, <- Z.mul_sub_distr_r.
    destruct (Z.eq_dec a b) as [->|Hab].
    + rewrite Z.sub_diag. reflexivity.
    + assert (Hpe : 0 < 2 ^ (- ez)) by (apply Z.pow_pos_nonneg; lia).
      assert (Hpos : 0 < (a - b) * 2 ^ (- ez)) by nia.
      destruct ((a - b) * 2 ^ (- ez)) as [|p|p] eqn:Hp; try lia.
      destruct (normalize_value p ez (a - b) ltac:(lia) ltac:(lia) (eq_sym Hp))
        as (M & E & HN & HM & HE & HMv).
      rewrite HN.
      destruct (ofZ_PN (a - b) ltac:(lia)) as (M' & E' & [HP' HM'] & HE' & Hv').
      rewrite HP'.
      destruct (binade_unique (a - b) M E M' E') as [-> ->]; try assumption; try lia.
      reflexivity.
Qed.

(** ** The two raw ratings of an encounter *)

Section Encounter.

Import Orchestrator64.

Variable simulate : Resolver.
Variable scenario : Scenario.

(** C10, as the code has it.  The two raw ratings that a simulated encounter
    records are computed in binary64, where the two quotients and their sum
    are rounded before the floor.  For contestants with a maximum of hit
    points between 1 and [2^24] that end with hit points between 0 and their
    maximum, the two recorded raw ratings are integers that add up to 998,
    999 or 1000, and when they are equal both are 500. *)
Theorem raw_ratings_sum_binary64 (p o : Pokemon) (out : Outcome) (m : Match) :
  out = simulate p o (fst (shields scenario)) (snd (shields scenario))
          (Orchestrator.setEnergyAdvantage p (fst (energy scenario)))
          (Orchestrator.setEnergyAdvantage o (snd (energy scenario))) ->
  m = simulateMatch simulate scenario p o ->
  0 < statsHp p <= 2 ^ 24 -> 0 < statsHp o <= 2 ^ 24 ->
  0 <= hp0 out <= statsHp p -> 0 <= hp1 out <= statsHp o ->
  exists r r',
    rating m = Binary64.ofZ r
    /\ opRating m = Binary64.ofZ r'
    /\ Binary64.rawRating (hp0 out) (statsHp p) (hp1 out) (statsHp o) = Some r
    /\ Binary64.rawRating (hp1 out) (statsHp o) (hp0 out) (statsHp p) = Some r'
    /\ 998 <= r + r' <= 1000
    /\ (r = r' -> r = 500).
Proof.
  intros Hout Hm Hp Ho Hhp Hop.
  destruct (raw_ratings_binary64 (hp0 out) (statsHp p) (hp1 out) (statsHp o) Hp Ho Hhp Hop)
    as (r & r' & H1 & H2 & H3 & H4 & Hsum & Htie).
  exists r, r'.
  assert (Hr : rating m = Binary64.ofZ r /\ opRating m = Binary64.ofZ r').
  { rewrite Hm. unfold simulateMatch. cbv zeta. rewrite <- Hout.
    destruct (winMultipliers _ _). cbn [rating opRating].
    assert (H24 : 2 ^ 24 < 2 ^ 53) by reflexivity.
    rewrite !sub_ofZ by lia. split; assumption. }
  destruct Hr as [Hr Hr'].
  repeat split; try assumption; lia.
Qed.

End Encounter.

(** ** The simulation loop in binary64 *)

Section Loop64.

Import Orchestrator64.

Variable simulate : Resolver.
Variable scenario : Scenario.
Variables pokemonList targets : list Pokemon.

(** The loop over the targets: every target adds one record, and a pairing
    for which the reuse test finds nothing is simulated. *)
Lemma binary64_row (rankings : list RankObj) (i : nat) (p : Pokemon) :
  forall (l : list Pokemon) (k : nat) (st : Inner),
    exists new,
      accMatches (foldi (pairStep simulate scenario pokemonList targets rankings i p) l k st)
      = accMatches st ++ new
      /\ List.length new = List.length l
      /\ forall n o m,
           nth_error l n = Some o -> nth_error new n = Some m ->
           (if Orchestrator.symmetric scenario pokemonList targets
            then mirrored rankings (k + n) i else None) = None ->
           m = simulateMatch simulate scenario p o.
Proof.
  induction l as [|o l IH]; intros k st; cbn [foldi].
  - exists []. rewrite app_nil_r. repeat split; auto.
    intros [|n] o m H; discriminate H.
  - destruct (IH (S k) (pairStep simulate scenario pokemonList targets rankings i p st k o))
      as (new & Hacc & Hlen & Hnew).
    set (c := if Orchestrator.symmetric scenario pokemonList targets
              then mirrored rankings k i else None).
    assert (Hstep : exists m0,
               accMatches (pairStep simulate scenario pokemonList targets rankings i p st k o)
               = accMatches st ++ [m0]
               /\ (c = None -> m0 = simulateMatch simulate scenario p o)).
    { unfold pairStep. fold c.
      destruct c as [m0|].
      - eexists. split; [reflexivity|]. discriminate.
      - eexists. split; [reflexivity|]. reflexivity. }
    destruct Hstep as (m0 & Hm0 & Hfresh).
    exists (m0 :: new). split; [|split].
    + rewrite Hacc, Hm0, <- app_assoc. reflexivity.
    + cbn. rewrite Hlen. reflexivity.
    + intros [|n] o' m Ho Hm Hc; cbn in Ho, Hm.
      * injection Ho as <-. injection Hm as <-. apply Hfresh.
        unfold c. rewrite Nat.add_0_r in Hc. exact Hc.
      * apply (Hnew n o' m Ho Hm).
        replace (S k + n)%nat with (k + S n)%nat by lia. exact Hc.
Qed.

(** The loop over the candidates: after the candidates of [pre] there is one
    ranking for each, and every pairing in them that is not a reused one is
    the record of its own encounter. *)
Lemma binary64_table :
  forall (l pre : list Pokemon) (rankings : list RankObj) (b : nat),
    List.length rankings = List.length pre ->
    (forall i p r n o m,
       nth_error pre i = Some p -> nth_error rankings i = Some r ->
       nth_error targets n = Some o -> nth_error (matches r) n = Some m ->
       Pairings.reuses scenario pokemonList targets i n = false ->
       m = simulateMatch simulate scenario p o) ->
    forall i p r n o m,
      nth_error (pre ++ l) i = Some p ->
      nth_error (fst (foldi (candidateStep simulate scenario pokemonList targets) l
                        (List.length pre) (rankings, b))) i = Some r ->
      nth_error targets n = Some o -> nth_error (matches r) n = Some m ->
      Pairings.reuses scenario pokemonList targets i n = false ->
      m = simulateMatch simulate scenario p o.
Proof.
  induction l as [|p l IH]; intros pre rankings b Hlen Hinv; cbn [foldi].
  - rewrite app_nil_r. exact Hinv.
  - replace (pre ++ p :: l) with ((pre ++ [p]) ++ l) by (rewrite <- app_assoc; reflexivity).
    replace (S (List.length pre)) with (List.length (pre ++ [p]))
      by (rewrite length_app; cbn; lia).
    unfold candidateStep at 2.
    set (inner := foldi _ targets 0%nat _).
    apply IH.
    + rewrite !length_app. cbn. lia.
    + intros i q r n o m Hq Hr Ho Hm Hc.
      destruct (Nat.lt_ge_cases i (List.length pre)) as [Hlt|Hge].
      * rewrite nth_error_app1 in Hq by exact Hlt.
        rewrite nth_error_app1 in Hr by (rewrite Hlen; exact Hlt).
        exact (Hinv i q r n o m Hq Hr Ho Hm Hc).
      * assert (Hi : i = List.length pre).
        { assert (i < List.length (pre ++ [p]))%nat
            by (apply nth_error_Some; rewrite Hq; discriminate).
          rewrite length_app in H. cbn in H. lia. }
        subst i.
        rewrite nth_error_app2 in Hq by lia. rewrite Nat.sub_diag in Hq.
        cbn in Hq. injection Hq as <-.
        rewrite nth_error_app2 in Hr by lia. rewrite Hlen, Nat.sub_diag in Hr.
        cbn in Hr. injection Hr as <-. cbn [matches] in Hm.
        destruct (binary64_row rankings (List.length pre) p targets 0%nat
                    {| accMatches := []; accAvg := 0%float; accBattles := b |})
          as (new & Hacc & _ & Hnew).
        fold inner in Hacc. cbn [accMatches app] in Hacc.
        rewrite Hacc in Hm.
        apply (Hnew n o m Ho Hm). cbn [Nat.add].
        unfold Pairings.reuses in Hc.
        destruct (Orchestrator.symmetric scenario pokemonList targets); [|reflexivity].
        cbn [andb] in Hc. apply Nat.ltb_ge in Hc.
        unfold mirrored.
        replace (nth_error rankings n) with (@None RankObj); [reflexivity|].
        symmetry. apply nth_error_None. lia.
Qed.

(** C3.  The record of a simulated pairing holds, for the candidate,
    [Math.floor((healthRating + damageRating) * 500)] as the program
    computes it in binary64: its final hit points over its maximum, plus the
    opponent's lost hit points over the opponent's maximum, times 500, each
    operation rounded to the nearest double; and the same with the sides
    exchanged for the opponent. *)
Theorem raw_rating_formula_binary64 (i n : nat) (p o : Pokemon) (r : RankObj) (m : Match) :
  nth_error pokemonList i = Some p ->
  nth_error targets n = Some o ->
  Pairings.reuses scenario pokemonList targets i n = false ->
  nth_error (fst (simulateAll simulate scenario pokemonList targets)) i = Some r ->
  nth_error (matches r) n = Some m ->
  let out := simulate p o (fst (shields scenario)) (snd (shields scenario))
               (Orchestrator.setEnergyAdvantage p (fst (energy scenario)))
               (Orchestrator.setEnergyAdvantage o (snd (energy scenario))) in
  let healthRating := (Binary64.ofZ (hp0 out) / Binary64.ofZ (statsHp p))%float in
  let damageRating :=
    ((Binary64.ofZ (statsHp o) - Binary64.ofZ (hp1 out)) / Binary64.ofZ (statsHp o))%float in
  let opHealthRating := (Binary64.ofZ (hp1 out) / Binary64.ofZ (statsHp o))%float in
  let opDamageRating :=
    ((Binary64.ofZ (statsHp p) - Binary64.ofZ (hp0 out)) / Binary64.ofZ (statsHp p))%float in
  rating m = Binary64.mathFloor ((healthRating + damageRating) * 500)%float
  /\ opRating m = Binary64.mathFloor ((opHealthRating + opDamageRating) * 500)%float.
Proof.
  intros Hp Ho Hfresh Hr Hm. cbv zeta.
  assert (Hrec : m = simulateMatch simulate scenario p o).
  { apply (binary64_table pokemonList [] [] 0%nat eq_refl) with (i := i) (r := r) (n := n);
      try assumption.
    intros [|?] ? ? ? ? ? H; discriminate H. }
  rewrite Hrec. unfold simulateMatch.
  destruct (winMultipliers _ _). cbn [rating opRating].
  split; reflexivity.
Qed.

End Loop64.

Lemma raw_rating_formula_binary64_witness :
  exists r m,
    nth_error (fst (Orchestrator64.simulateAll faintResolver leads duo duo)) 0 = Some r
    /\ nth_error (Orchestrator64.matches r) 1 = Some m
    /\ Orchestrator64.rating m = 679%float /\ Orchestrator64.opRating m = 320%float.
Proof.
  destruct (nth_error (fst (Orchestrator64.simulateAll faintResolver leads duo duo)) 0)
    as [r|] eqn:Hr; [|vm_compute in Hr; discriminate].
  destruct (nth_error (Orchestrator64.matches r) 1) as [m|] eqn:Hm;
    [|vm_compute in Hr; injection Hr as <-; discriminate].
  exists r, m.
  destruct (raw_rating_formula_binary64 faintResolver leads duo duo 0 1
              (samplePokemon "c" 100 (Some 1%Q)) (samplePokemon "b" 120 (Some 1%Q)) r m
              eq_refl eq_refl eq_refl Hr Hm) as [H1 H2].
  repeat split; auto.
Defined.

Lemma raw_ratings_sum_binary64_witness :
  exists r r',
    Orchestrator64.rating
      (Orchestrator64.simulateMatch (tableResolver unevenTable) leads
         (samplePokemon "a" 150 (Some 1%Q)) (samplePokemon "d" 125 (Some 1%Q)))
    = Binary64.ofZ r
    /\ Orchestrator64.opRating
         (Orchestrator64.simulateMatch (tableResolver unevenTable) leads
            (samplePokemon "a" 150 (Some 1%Q)) (samplePokemon "d" 125 (Some 1%Q)))
       = Binary64.ofZ r'
    /\ r = 663 /\ r' = 335.
Proof.
  assert (Ha : 0 < 150 <= 2 ^ 24) by (change (2 ^ 24) with 16777216; lia).
  assert (Hd : 0 < 125 <= 2 ^ 24) by (change (2 ^ 24) with 16777216; lia).
  assert (Hhp : 0 <= 96 <= 150) by lia.
  assert (Hop : 0 <= 39 <= 125) by lia.
  destruct (raw_ratings_sum_binary64 (tableResolver unevenTable) leads
              (samplePokemon "a" 150 (Some 1%Q)) (samplePokemon "d" 125 (Some 1%Q))
              _ _ eq_refl eq_refl Ha Hd Hhp Hop)
    as (r & r' & H1 & H2 & H3 & H4 & _).
  exists r, r'. split; [exact H1|]. split; [exact H2|].
  vm_compute in H3, H4. injection H3 as <-. injection H4 as <-. split; reflexivity.
Defined.

(** ** The solver in binary64 *)

Section Solver64Facts.

Import Binary64 Orchestrator64 Solver64 Scoring64.

Variable pow : float -> float -> float.
Variables pokemonList targets : list Pokemon.
Variable scenario : Scenario.
Variable cupName : string.
Variable battleCP : Z.

Local Abbreviation weighPairing := (weighPairing pow pokemonList targets scenario cupName battleCP).
Local Abbreviation weighMatches := (weighMatches pow pokemonList targets scenario cupName battleCP).
Local Abbreviation candidatePass := (candidatePass pow pokemonList targets scenario cupName battleCP).
Local Abbreviation passLoop := (passLoop pow pokemonList targets scenario cupName battleCP).
Local Abbreviation weightPass := (weightPass pow pokemonList targets scenario cupName battleCP).
Local Abbreviation pairings := (pairings targets).
Local Abbreviation curvedRating := (curvedRating pow).
Local Abbreviation ratingWeight := (ratingWeight pow pokemonList targets scenario cupName battleCP).
Local Abbreviation countedWeight := (countedWeight pow pokemonList targets scenario cupName battleCP).
Local Abbreviation passScore := (passScore pow pokemonList targets scenario cupName battleCP).
Local Abbreviation afterPass := (afterPass pow pokemonList targets scenario cupName battleCP).
Local Abbreviation ready := (ready pokemonList targets).

(** The body of the loop over the matches. *)
Lemma weighPairing_binary64 (n : nat) (best : float) (p t : Pokemon) (sj : float) (m : Match) :
  snd (fst (weighPairing n best p t sj m))
  = (curvedRating m * ratingWeight n best p (t, sj, m))%float
  /\ snd (weighPairing n best p t sj m) = countedWeight n best p (t, sj, m).
Proof. split; reflexivity. Qed.

Lemma weighMatches_binary64 (n : nat) (best : float) (rankings : list RankObj) (i : nat)
    (p : Pokemon) :
  nth_error pokemonList i = Some p ->
  forall (ms : list Match) (j : nat) (l : list Pairing) (score weights : float),
    collect (imap (fun j m => t <- nth_error targets j ;;
                              s <- scoreAt rankings j n ;;
                              Some (t, s, m)) ms j) = Some l ->
    exists ms',
      weighMatches n best rankings i ms j score weights
      = Some (ms',
              fold_left PrimFloat.add
                (map (fun pr => curvedRating (snd pr) * ratingWeight n best p pr)%float l) score,
              fold_left PrimFloat.add (map (countedWeight n best p) l) weights).
Proof.
  intros Hp. induction ms as [|m ms IH]; intros j l score weights Hl.
  - simpl in Hl. injection Hl as <-. exists []. reflexivity.
  - cbn [imap] in Hl. apply collect_cons_inv in Hl.
    destruct Hl as (pr & l' & Hpr & Hl' & ->).
    destruct (nth_error targets j) as [t|] eqn:Ht; [|discriminate].
    destruct (scoreAt rankings j n) as [sj|] eqn:Hs; [|discriminate].
    simpl in Hpr. injection Hpr as <-.
    destruct (weighPairing_binary64 n best p t sj m) as [Hsc Hw].
    destruct (weighPairing n best p t sj m) as [[m' sc] w] eqn:Hwp.
    cbn [fst snd] in Hsc, Hw.
    destruct (IH (Datatypes.S j) l' (score + sc)%float (weights + w)%float Hl') as (ms' & Hrest).
    exists (m' :: ms').
    cbn [Solver64.weighMatches]. rewrite Hs, Ht, Hp. cbn [obind]. rewrite Hwp.
    rewrite Hrest. cbn [obind map fold_left snd]. rewrite Hsc, Hw. reflexivity.
Qed.

(** The loop over the matches reads the rankings through [scoreAt] alone. *)
Lemma weighMatches_ext64 (n : nat) (best : float) (rs rs' : list RankObj) (i : nat) :
  (forall j, scoreAt rs j n = scoreAt rs' j n) ->
  forall (ms : list Match) (j : nat) (score weights : float),
    weighMatches n best rs i ms j score weights = weighMatches n best rs' i ms j score weights.
Proof.
  intros Hext. induction ms as [|m ms IH]; intros j score weights;
    cbn [Solver64.weighMatches]; auto.
  rewrite Hext. destruct (scoreAt rs' j n) as [sj|]; cbn [obind]; auto.
  destruct (nth_error targets j) as [t|]; cbn [obind]; auto.
  destruct (nth_error pokemonList i) as [p|]; cbn [obind]; auto.
  destruct (weighPairing n best p t sj m) as [[m' sc] w].
  now rewrite IH.
Qed.

Lemma afterPass_scoreAt64 (n : nat) (best : float) (rankings : list RankObj) (i : nat)
    (r r' : RankObj) :
  (n < List.length (scores r))%nat ->
  afterPass n best rankings i r = Some r' ->
  nth n (scores r') nan = nth n (scores r) nan.
Proof.
  intros Hn. unfold Scoring64.afterPass.
  destruct (weighMatches n best rankings i (matches r) 0%nat 0%float 0%float)
    as [[[ms s] w]|]; simpl; [|discriminate].
  intros H. injection H as <-. simpl. now apply app_nth1.
Qed.

Lemma scoreAt_app64 (n : nat) (done prefix suffix : list RankObj) :
  Forall2 (fun r r' => nth n (scores r') nan = nth n (scores r) nan) prefix done ->
  forall j, scoreAt (done ++ suffix) j n = scoreAt (prefix ++ suffix) j n.
Proof.
  induction 1 as [|r r' prefix done Hr Hrest IH]; intros j; simpl; auto.
  destruct j; simpl.
  - unfold scoreAt. simpl. now rewrite Hr.
  - unfold scoreAt in *. simpl. apply IH.
Qed.

Lemma passLoop_collect64 (n : nat) (best : float) (rankings : list RankObj) :
  (forall r, In r rankings -> (n < List.length (scores r))%nat) ->
  forall (suffix prefix done : list RankObj),
    rankings = prefix ++ suffix ->
    Forall2 (fun r r' => nth n (scores r') nan = nth n (scores r) nan) prefix done ->
    passLoop n best (seq (List.length prefix) (List.length suffix)) (done ++ suffix)
    = (rest <- collect (imap (afterPass n best rankings) suffix (List.length prefix)) ;;
       Some (done ++ rest)).
Proof.
  intros Hscores. induction suffix as [|r suffix IH]; intros prefix done Hlist Hdone.
  - simpl. reflexivity.
  - assert (Hlen : List.length done = List.length prefix)
      by (symmetry; eapply Forall2_length; eassumption).
    cbn [List.length seq Solver64.passLoop imap collect].
    assert (Hstep : candidatePass n best (done ++ r :: suffix) (List.length prefix)
                    = (r' <- afterPass n best rankings (List.length prefix) r ;;
                       Some ((done ++ [r']) ++ suffix))).
    { unfold Solver64.candidatePass. rewrite <- Hlen.
      rewrite nth_error_app2, Nat.sub_diag by lia. simpl.
      rewrite (weighMatches_ext64 n best (done ++ r :: suffix) rankings (List.length done)).
      2:{ intros j. rewrite Hlist. now apply scoreAt_app64. }
      unfold Scoring64.afterPass.
      destruct (weighMatches n best rankings (List.length done) (matches r) 0%nat 0%float 0%float)
        as [[[ms s] w]|]; simpl; [|reflexivity].
      now rewrite replaceAt_middle, <- app_assoc. }
    rewrite Hstep.
    destruct (afterPass n best rankings (List.length prefix) r) as [r'|] eqn:Hr'; simpl;
      [|reflexivity].
    specialize (IH (prefix ++ [r]) (done ++ [r'])).
    rewrite length_app in IH. simpl in IH.
    replace (List.length prefix + 1)%nat with (Datatypes.S (List.length prefix)) in IH by lia.
    rewrite IH.
    + destruct (collect _) as [rest|]; simpl; auto. now rewrite <- app_assoc.
    + now rewrite <- app_assoc.
    + apply Forall2_app; auto. constructor; [|constructor].
      eapply afterPass_scoreAt64; [|eassumption].
      apply Hscores. rewrite Hlist. apply in_or_app. right. now left.
Qed.

(** One pass, candidate by candidate. *)
Lemma weightPass_collect64 (n : nat) (rankings : list RankObj) :
  (forall r, In r rankings -> (n < List.length (scores r))%nat) ->
  weightPass n rankings
  = collect (imap (afterPass n (bestScore n rankings) rankings) rankings 0).
Proof.
  intros Hscores. unfold Solver64.weightPass.
  pose proof (passLoop_collect64 n (bestScore n rankings) rankings Hscores rankings [] []
                eq_refl (Forall2_nil _)) as H.
  cbn [List.length app] in H. rewrite H. destruct (collect _); reflexivity.
Qed.

Lemma ready_pairings (n : nat) (rankings : list RankObj) (r : RankObj) :
  ready n rankings = true -> In r rankings ->
  exists l, pairings n rankings (matches r) = Some l.
Proof.
  unfold Scoring64.ready. intros H Hr.
  apply andb_true_iff in H. destruct H as [_ Hall].
  rewrite forallb_forall in Hall. specialize (Hall r Hr).
  apply andb_true_iff in Hall. destruct Hall as [Hall Hrk].
  apply andb_true_iff in Hall. destruct Hall as [_ Htg].
  apply Nat.leb_le in Hrk, Htg.
  destruct (collect_imap (fun j m => t <- nth_error targets j ;;
                                     s <- scoreAt rankings j n ;;
                                     Some (t, s, m)) (matches r) 0%nat)
    as (l & Hl & _).
  - intros j m Hm. cbn [Nat.add].
    assert (Hj : (j < List.length (matches r))%nat) by (apply nth_error_Some; congruence).
    destruct (nth_error targets j) as [t|] eqn:Ht.
    2:{ apply nth_error_None in Ht. lia. }
    unfold scoreAt.
    destruct (nth_error rankings j) as [rj|] eqn:Hrj.
    2:{ apply nth_error_None in Hrj. lia. }
    cbn [obind]. discriminate.
  - exists l. exact Hl.
Qed.

Lemma afterPass_binary64 (n : nat) (best : float) (rankings : list RankObj) (i : nat)
    (r : RankObj) (p : Pokemon) (l : list Pairing) :
  nth_error pokemonList i = Some p ->
  pairings n rankings (matches r) = Some l ->
  exists r', afterPass n best rankings i r = Some r'
             /\ scores r' = scores r ++ [passScore n best p l]
             /\ rankSpeciesId r' = rankSpeciesId r
             /\ rankRating r' = rankRating r.
Proof.
  intros Hp Hl.
  destruct (weighMatches_binary64 n best rankings i p Hp (matches r) 0%nat l 0%float 0%float Hl)
    as (ms & Hw).
  unfold Scoring64.afterPass. rewrite Hw. cbn [obind]. eexists. split; [reflexivity|].
  cbn [scores rankSpeciesId rankRating]. repeat split.
Qed.

(** A whole pass: with a contestant for every ranking, a score of the pass
    in every ranking and, for every match, a target and a ranking at its
    index, the pass returns, and pushes for every candidate the score
    [passScore] of its pairings. *)
Lemma weightPass_binary64 (n : nat) (rankings : list RankObj) :
  ready n rankings = true ->
  exists rankings',
    weightPass n rankings = Some rankings'
    /\ List.length rankings' = List.length rankings
    /\ forall i r, nth_error rankings i = Some r ->
         exists p l r',
           nth_error pokemonList i = Some p
           /\ pairings n rankings (matches r) = Some l
           /\ nth_error rankings' i = Some r'
           /\ scores r' = scores r ++ [passScore n (bestScore n rankings) p l]
           /\ rankSpeciesId r' = rankSpeciesId r
           /\ rankRating r' = rankRating r.
Proof.
  intros Hready.
  assert (Hscores : forall r, In r rankings -> (n < List.length (scores r))%nat).
  { intros r Hr. unfold Scoring64.ready in Hready.
    apply andb_true_iff in Hready. destruct Hready as [_ Hall].
    rewrite forallb_forall in Hall. specialize (Hall r Hr).
    apply andb_true_iff in Hall. destruct Hall as [Hall _].
    apply andb_true_iff in Hall. destruct Hall as [Hn _].
    now apply Nat.ltb_lt. }
  assert (Hlen : (List.length rankings <= List.length pokemonList)%nat).
  { unfold Scoring64.ready in Hready.
    apply andb_true_iff in Hready. destruct Hready as [H _]. now apply Nat.leb_le. }
  set (best := bestScore n rankings).
  rewrite (weightPass_collect64 n rankings Hscores). fold best.
  assert (Hval : forall i r, nth_error rankings i = Some r ->
            exists p l, nth_error pokemonList i = Some p
                        /\ pairings n rankings (matches r) = Some l
                        /\ exists r', afterPass n best rankings i r = Some r'
                             /\ scores r' = scores r ++ [passScore n best p l]
                             /\ rankSpeciesId r' = rankSpeciesId r
                             /\ rankRating r' = rankRating r).
  { intros i r Hr.
    assert (Hi : (i < List.length rankings)%nat) by (apply nth_error_Some; congruence).
    destruct (nth_error pokemonList i) as [p|] eqn:Hp.
    2:{ apply nth_error_None in Hp. lia. }
    destruct (ready_pairings n rankings r Hready (nth_error_In _ _ Hr)) as (l & Hl).
    exists p, l. repeat split; auto.
    apply (afterPass_binary64 n best rankings i r p l Hp Hl). }
  destruct (collect_imap (afterPass n best rankings) rankings 0) as (ys & Hys & Hlen' & Hnth).
  { intros i r Hr. destruct (Hval i r Hr) as (p & l & _ & _ & r' & Hr' & _). simpl. congruence. }
  exists ys. repeat split; auto.
  intros i r Hr.
  destruct (Hnth i r Hr) as (y & Hy & Hy'). simpl in Hy.
  destruct (Hval i r Hr) as (p & l & Hp & Hl & r' & Hr' & Hsc).
  exists p, l, y. assert (y = r') by congruence. subst y.
  split; [exact Hp|]. split; [exact Hl|]. split; [exact Hy'|]. exact Hsc.
Qed.

(** X1, the subject of C1 as the code has it.  A pass of the solver pushes
    for every candidate [floor(sum(rating * w) / sum(w'))] over its pairings,
    in binary64: the two sums are taken from 0 in the order of the pairings
    and every operation rounds; the denominator is replaced by 1 when it is
    0.  [rating] is the adjusted rating after the soft cap and the harsh
    curve; [w] is [max(0, score/bestScore - (0.1 + 0.06 n))^1.65] when the
    pool size equals the target size (else 1), 0 for a self-match, times the
    target's weight modifier, times the penalty
    [1 + (500 - rating)^2 / 20000] in the [switches] scenario for a rating
    under 500; [w'] is [w], or 0 when the score read for the target is under
    the cutoff fraction of the best score.  A pairing under the cutoff leaves
    the denominator only. *)
Theorem pass_score_binary64 (n : nat) (rankings : list RankObj) :
  ready n rankings = true ->
  exists rankings',
    weightPass n rankings = Some rankings'
    /\ List.length rankings' = List.length rankings
    /\ forall i r, nth_error rankings i = Some r ->
         exists p l r',
           nth_error pokemonList i = Some p
           /\ pairings n rankings (matches r) = Some l
           /\ nth_error rankings' i = Some r'
           /\ scores r'
              = scores r
                ++ [mathFloor
                      (fsum (map (fun pr => curvedRating (snd pr)
                                            * ratingWeight n (bestScore n rankings) p pr)%float l)
                       / jsOrF (fsum (map (countedWeight n (bestScore n rankings) p) l)) 1)%float].
Proof.
  intros Hready.
  destruct (weightPass_binary64 n rankings Hready) as (rankings' & Hpass & Hlen & Hall).
  exists rankings'. split; [exact Hpass|]. split; [exact Hlen|].
  intros i r Hr.
  destruct (Hall i r Hr) as (p & l & r' & Hp & Hl & Hr' & Hsc & _).
  exists p, l, r'. split; [exact Hp|]. split; [exact Hl|]. split; [exact Hr'|].
  rewrite Hsc. reflexivity.
Qed.

End Solver64Facts.

(** ** Self-pairings in binary64 *)

Lemma mul_zero_l (x y : float) :
  Binary64.isZero x = true -> Binary64.isFinite y = true -> Binary64.isZero (x * y) = true.
Proof.
  unfold Binary64.isZero, Binary64.isFinite. rewrite FloatAxioms.mul_spec.
  destruct (Prim2SF x); try discriminate. destruct (Prim2SF y); try discriminate; reflexivity.
Qed.

Lemma mul_zero_r (x y : float) :
  Binary64.isFinite x = true -> Binary64.isZero y = true -> Binary64.isZero (x * y) = true.
Proof.
  unfold Binary64.isZero, Binary64.isFinite. rewrite FloatAxioms.mul_spec.
  destruct (Prim2SF x); try discriminate; destruct (Prim2SF y); try discriminate; reflexivity.
Qed.

(** A sum of two numbers that are not below zero is not below zero. *)
Lemma add_notBelowZero (x y : float) :
  Binary64.notBelowZero x = true -> Binary64.notBelowZero y = true ->
  Binary64.notBelowZero (x + y) = true.
Proof.
  unfold Binary64.notBelowZero. rewrite FloatAxioms.add_spec.
  destruct (Prim2SF x) as [sx|sx| |sx mx ex]; destruct (Prim2SF y) as [sy|sy| |sy my ey];
    try reflexivity; try (destruct sx; [discriminate|]); try (destruct sy; [discriminate|]);
    intros _ _; try reflexivity.
  unfold SF64add, SFadd. cbn [cond_Zopp Z.add].
  cbn [binary_normalize]. unfold binary_round.
  destruct (shl_align _ _ _) as [mz ez].
  unfold binary_round_aux.
  destruct (shr_fexp prec emax (Z.pos mz) ez loc_Exact) as [mrs e'].
  destruct (shr_fexp prec emax _ e' loc_Exact) as [mrs' e''].
  destruct (shr_m mrs'); try reflexivity.
  destruct (e'' <=? emax - prec); reflexivity.
Qed.

(** Adding a zero to a number that is not below zero leaves it. *)
Lemma add_zero_r (x z : float) :
  Binary64.notBelowZero x = true -> Binary64.isZero z = true -> (x + z)%float = x.
Proof.
  unfold Binary64.notBelowZero, Binary64.isZero. intros Hx Hz. apply Prim2SF_inj.
  rewrite FloatAxioms.add_spec.
  destruct (Prim2SF x) as [sx|sx| |sx mx ex]; destruct (Prim2SF z) as [sz|sz| |sz mz ez];
    try discriminate; try reflexivity.
  destruct sx; [discriminate|]. destruct sz; reflexivity.
Qed.

(** A sum taken from left to right does not change when zeros are left out
    of it, as long as no term is below zero. *)
Lemma fold_left_add_skip {A : Type} (g : A -> float) (keep : A -> bool) (l : list A) :
  forall acc,
    Binary64.notBelowZero acc = true ->
    (forall x, In x l -> Binary64.notBelowZero (g x) = true) ->
    (forall x, In x l -> keep x = false -> Binary64.isZero (g x) = true) ->
    fold_left PrimFloat.add (map g (filter keep l)) acc = fold_left PrimFloat.add (map g l) acc.
Proof.
  induction l as [|x l IH]; intros acc Hacc Hnn Hz; [reflexivity|].
  cbn [filter map fold_left].
  destruct (keep x) eqn:Hk; cbn [map fold_left].
  - apply IH.
    + apply add_notBelowZero; [assumption|]. apply Hnn. now left.
    + intros y Hy. apply Hnn. now right.
    + intros y Hy. apply Hz. now right.
  - rewrite (add_zero_r acc (g x) Hacc (Hz x (or_introl eq_refl) Hk)).
    apply IH; [assumption| |].
    + intros y Hy. apply Hnn. now right.
    + intros y Hy. apply Hz. now right.
Qed.

Lemma Forall2_nth_left {A B : Type} (P : A -> B -> Prop) (l : list A) (l' : list B) :
  Forall2 P l l' ->
  forall i x, nth_error l i = Some x -> exists y, nth_error l' i = Some y /\ P x y.
Proof.
  induction 1 as [|a b l l' Hab _ IH]; intros [|i] x Hx; try discriminate.
  - injection Hx as <-. exists b. split; [reflexivity|assumption].
  - apply (IH i x Hx).
Qed.

Section Self64.

Import Binary64 Orchestrator64 Solver64 Scoring64.

Variable simulate : Resolver.
Variable pow : float -> float -> float.
Variables pokemonList targets : list Pokemon.
Variable scenario : Scenario.
Variable cupName : string.
Variable battleCP : Z.

Local Abbreviation weighPairing := (weighPairing pow pokemonList targets scenario cupName battleCP).
Local Abbreviation weightPass := (weightPass pow pokemonList targets scenario cupName battleCP).
Local Abbreviation pairings := (pairings targets).
Local Abbreviation curvedRating := (curvedRating pow).
Local Abbreviation switchPenalty := (switchPenalty pow).
Local Abbreviation ratingWeight := (ratingWeight pow pokemonList targets scenario cupName battleCP).
Local Abbreviation countedWeight := (countedWeight pow pokemonList targets scenario cupName battleCP).
Local Abbreviation passScore := (passScore pow pokemonList targets scenario cupName battleCP).
Local Abbreviation plain := (plain pow pokemonList targets scenario cupName battleCP).
Local Abbreviation ready := (ready pokemonList targets).

(** The loop over the targets adds to [avg] the adjusted rating of every
    record it pushes, but for a self-pairing. *)
Lemma binary64_row_avg (rankings : list RankObj) (i : nat) (p : Pokemon) :
  forall (l : list Pokemon) (k : nat) (st : Inner),
    exists new,
      accMatches (foldi (pairStep simulate scenario pokemonList targets rankings i p) l k st)
      = accMatches st ++ new
      /\ List.length new = List.length l
      /\ accAvg (foldi (pairStep simulate scenario pokemonList targets rankings i p) l k st)
         = fold_left PrimFloat.add (firstRatings p l new) (accAvg st).
Proof.
  induction l as [|o l IH]; intros k st; cbn [foldi].
  - exists []. rewrite app_nil_r. repeat split; auto.
  - destruct (IH (S k) (pairStep simulate scenario pokemonList targets rankings i p st k o))
      as (new & Hacc & Hlen & Havg).
    assert (Hstep : exists m0,
               accMatches (pairStep simulate scenario pokemonList targets rankings i p st k o)
               = accMatches st ++ [m0]
               /\ accAvg (pairStep simulate scenario pokemonList targets rankings i p st k o)
                  = if Pairings.isMirror p o then accAvg st
                    else (accAvg st + adjRating m0)%float).
    { unfold pairStep, Pairings.isMirror.
      destruct (if Orchestrator.symmetric scenario pokemonList targets
                then mirrored rankings k i else None) as [m0|];
        eexists; (split; [reflexivity|]); reflexivity. }
    destruct Hstep as (m0 & Hm0 & Ha0).
    exists (m0 :: new). split; [|split].
    + rewrite Hacc, Hm0, <- app_assoc. reflexivity.
    + cbn. rewrite Hlen. reflexivity.
    + rewrite Havg, Ha0. unfold firstRatings. cbn [combine filter fst snd].
      destruct (Pairings.isMirror p o); reflexivity.
Qed.

(** The loop over the candidates: each gets its record, with one match for
    each target and the first average of its pairings. *)
Lemma binary64_first_average :
  forall (l pre : list Pokemon) (rankings : list RankObj) (b : nat),
    Forall2 (fun p r => List.length (matches r) = List.length targets
                        /\ rankRating r = firstAverage p targets (matches r)
                        /\ scores r = [rankRating r]) pre rankings ->
    Forall2 (fun p r => List.length (matches r) = List.length targets
                        /\ rankRating r = firstAverage p targets (matches r)
                        /\ scores r = [rankRating r]) (pre ++ l)
      (fst (foldi (candidateStep simulate scenario pokemonList targets) l
              (List.length pre) (rankings, b))).
Proof.
  induction l as [|p l IH]; intros pre rankings b Hinv; cbn [foldi].
  - rewrite app_nil_r. exact Hinv.
  - replace (pre ++ p :: l) with ((pre ++ [p]) ++ l) by (rewrite <- app_assoc; reflexivity).
    replace (S (List.length pre)) with (List.length (pre ++ [p]))
      by (rewrite length_app; cbn; lia).
    unfold candidateStep at 2.
    destruct (binary64_row_avg rankings (List.length pre) p targets 0%nat
                {| accMatches := []; accAvg := 0%float; accBattles := b |})
      as (new & Hacc & Hlen & Havg).
    set (inner := foldi _ targets 0%nat _) in *.
    apply IH. apply Forall2_app; [exact Hinv|].
    constructor; [|constructor]. cbn [matches rankRating scores].
    cbn [accMatches accAvg app] in Hacc, Havg.
    split; [rewrite Hacc; exact Hlen|]. split; [|reflexivity].
    unfold firstAverage, fsum. rewrite Havg, Hacc. reflexivity.
Qed.

(** The weight of a self-pairing is a zero, when what multiplies it is
    finite. *)
Lemma ratingWeight_self (n : nat) (best : float) (p t : Pokemon) (sj : float) (m : Match) :
  Pairings.isMirror p t = true ->
  (forall wm, weightModifier t = Some wm -> isFinite (ofQ wm) = true) ->
  isFinite (switchPenalty m) = true ->
  isZero (ratingWeight n best p (t, sj, m)) = true.
Proof.
  intros Hid Hwm Hpen. unfold Scoring64.ratingWeight. rewrite Hid.
  assert (H2 : isZero (match weightModifier t with
                       | Some wm => (0 * ofQ wm)%float
                       | None => if String.eqb cupName "all" && (battleCP =? 1500)
                                 then 0%float else 0%float
                       end) = true).
  { destruct (weightModifier t) as [wm|] eqn:Ewm.
    - apply mul_zero_l; [reflexivity|]. now apply Hwm.
    - destruct (String.eqb cupName "all" && (battleCP =? 1500)); reflexivity. }
  cbv zeta.
  destruct (String.eqb (slug scenario) "switches" && (curvedRating m <? 500)%float).
  - apply mul_zero_l; assumption.
  - exact H2.
Qed.

Lemma plain_self (n : nat) (best : float) (p t : Pokemon) (sj : float) (m : Match) :
  plain n best p (t, sj, m) = true -> Pairings.isMirror p t = true ->
  isZero (curvedRating m * ratingWeight n best p (t, sj, m))%float = true
  /\ isZero (countedWeight n best p (t, sj, m)) = true.
Proof.
  unfold Scoring64.plain. intros H Hid. rewrite Hid in H. cbn [negb orb] in H.
  apply andb_true_iff in H. destruct H as [_ H].
  apply andb_true_iff in H. destruct H as [H Hpen].
  apply andb_true_iff in H. destruct H as [Hadj Hwm].
  assert (Hw : isZero (ratingWeight n best p (t, sj, m)) = true).
  { apply ratingWeight_self; [assumption| |assumption].
    intros wm Ewm. rewrite Ewm in Hwm. exact Hwm. }
  split.
  - apply mul_zero_r; assumption.
  - unfold Scoring64.countedWeight. destruct (below n best sj); [reflexivity|exact Hw].
Qed.

(** The score of the pairings is the score of those that are not
    self-pairings. *)
Lemma passScore_withoutSelf64 (n : nat) (best : float) (p : Pokemon) (l : list Pairing) :
  forallb (plain n best p) l = true ->
  passScore n best p l = passScore n best p (withoutSelf p l).
Proof.
  intros Hall. rewrite forallb_forall in Hall.
  unfold Scoring64.passScore, withoutSelf, fsum.
  rewrite (fold_left_add_skip
             (fun pr => (curvedRating (snd pr) * ratingWeight n best p pr)%float)
             (fun pr => negb (Pairings.isMirror p (fst (fst pr)))) l).
  rewrite (fold_left_add_skip (countedWeight n best p)
             (fun pr => negb (Pairings.isMirror p (fst (fst pr)))) l).
  - reflexivity.
  - reflexivity.
  - intros [[t sj] m] Hin. specialize (Hall _ Hin). unfold Scoring64.plain in Hall.
    apply andb_true_iff in Hall. destruct Hall as [Hall _].
    apply andb_true_iff in Hall. destruct Hall as [_ Hw]. exact Hw.
  - intros [[t sj] m] Hin Hk. cbn [fst] in Hk. apply negb_false_iff in Hk.
    apply (plain_self n best p t sj m (Hall _ Hin) Hk).
  - reflexivity.
  - intros [[t sj] m] Hin. specialize (Hall _ Hin). unfold Scoring64.plain in Hall.
    apply andb_true_iff in Hall. destruct Hall as [Hall _].
    apply andb_true_iff in Hall. destruct Hall as [Hsc _]. exact Hsc.
  - intros [[t sj] m] Hin Hk. cbn [fst] in Hk. apply negb_false_iff in Hk.
    apply (plain_self n best p t sj m (Hall _ Hin) Hk).
Qed.

(** X3, the subject of C5, in binary64.  Every candidate has its record,
    with one match for each target, a self-pairing among them.  The average
    before the solver is taken over the pairings that are not self-pairings,
    and divided by the number of targets less one.  In a pass, the loop body
    gives a self-pairing a weight and a share of the numerator that are
    zeros, as long as the numbers that multiply the weight 0 (the target's
    weight modifier, the curved rating, the penalty of the [switches]
    scenario) are finite; and when moreover no share and no weight of a
    pairing is below zero, the score that the pass pushes is the score of the
    candidate's pairings without the self-pairings. *)
Theorem self_pairings_binary64 :
  (forall i p, nth_error pokemonList i = Some p ->
     exists r,
       nth_error (fst (simulateAll simulate scenario pokemonList targets)) i = Some r
       /\ List.length (matches r) = List.length targets
       /\ rankRating r
          = mathFloor (fsum (map (fun om => adjRating (snd om))
                               (filter (fun om => negb (Pairings.isMirror p (fst om)))
                                  (combine targets (matches r))))
                       / ofZ (jsOrZ (Z.of_nat (List.length targets) - 1) 1))%float
       /\ scores r = [rankRating r])
  /\ (forall n best p t sj m,
        speciesId t = speciesId p ->
        (forall wm, weightModifier t = Some wm -> isFinite (ofQ wm) = true) ->
        isFinite (curvedRating m) = true ->
        isFinite (switchPenalty m) = true ->
        isZero (snd (fst (weighPairing n best p t sj m))) = true
        /\ isZero (snd (weighPairing n best p t sj m)) = true)
  /\ (forall n rankings,
        ready n rankings = true ->
        (forall i r p l,
           nth_error rankings i = Some r -> nth_error pokemonList i = Some p ->
           pairings n rankings (matches r) = Some l ->
           forallb (plain n (bestScore n rankings) p) l = true) ->
        exists rankings',
          weightPass n rankings = Some rankings'
          /\ forall i r, nth_error rankings i = Some r ->
               exists p l r',
                 nth_error pokemonList i = Some p
                 /\ pairings n rankings (matches r) = Some l
                 /\ nth_error rankings' i = Some r'
                 /\ scores r'
                    = scores r ++ [passScore n (bestScore n rankings) p (withoutSelf p l)]).
Proof.
  split; [|split].
  - intros i p Hp.
    pose proof (binary64_first_average pokemonList [] [] 0%nat (Forall2_nil _)) as Hall.
    cbn [app List.length] in Hall.
    fold (simulateAll simulate scenario pokemonList targets) in Hall.
    destruct (Forall2_nth_left _ _ _ Hall i p Hp) as (r & Hr & Hlen & Havg & Hsc).
    exists r. repeat split; assumption.
  - intros n best p t sj m Hid Hwm Hadj Hpen.
    assert (Hmirror : Pairings.isMirror p t = true).
    { unfold Pairings.isMirror. rewrite Hid. apply String.eqb_refl. }
    pose proof (ratingWeight_self n best p t sj m Hmirror Hwm Hpen) as Hw.
    split.
    + apply (mul_zero_r (curvedRating m) (ratingWeight n best p (t, sj, m)) Hadj Hw).
    + change (isZero (countedWeight n best p (t, sj, m)) = true).
      unfold Scoring64.countedWeight. destruct (below n best sj); [reflexivity|exact Hw].
  - intros n rankings Hready Hplain.
    destruct (weightPass_binary64 pow pokemonList targets scenario cupName battleCP
                n rankings Hready) as (rankings' & Hpass & _ & Hall).
    exists rankings'. split; [exact Hpass|].
    intros i r Hr.
    destruct (Hall i r Hr) as (p & l & r' & Hp & Hl & Hr' & Hsc & _).
    exists p, l, r'. split; [exact Hp|]. split; [exact Hl|]. split; [exact Hr'|].
    rewrite Hsc. f_equal. f_equal.
    apply passScore_withoutSelf64. exact (Hplain i r p l Hr Hp Hl).
Qed.

End Self64.

Lemma pass_score_binary64_witness :
  exists rankings',
    Solver64.weightPass samplePow64 weightedPool weightedTargets closers "championship" 1500
      0 weightedRankings = Some rankings'
    /\ map Orchestrator64.scores rankings'
       = [[300; 300]; [300; 300]; [600; 299]]%float.
Proof.
  destruct (pass_score_binary64 samplePow64 weightedPool weightedTargets closers
              "championship" 1500 0 weightedRankings eq_refl)
    as (rankings' & Hpass & _).
  exists rankings'. split; [exact Hpass|].
  vm_compute in Hpass. injection Hpass as <-. reflexivity.
Defined.

Lemma self_pairings_binary64_witness :
  (exists r,
     nth_error weightedRankings 0 = Some r
     /\ List.length (Orchestrator64.matches r) = 2%nat
     /\ Orchestrator64.rankRating r = 300%float)
  /\ (exists rankings',
        Solver64.weightPass samplePow64 weightedPool weightedTargets closers "championship" 1500
          0 weightedRankings = Some rankings'
        /\ map Orchestrator64.scores rankings'
           = [[300; 300]; [300; 300]; [600; 299]]%float).
Proof.
  destruct (self_pairings_binary64 (tableResolver tenFifty) samplePow64 weightedPool
              weightedTargets closers "championship" 1500) as (Hfirst & _ & Hpass).
  split.
  - destruct (Hfirst 0%nat (samplePokemon "x" 100 (Some (4 # 10))) eq_refl)
      as (r & Hr & Hlen & Havg & _).
    exists r. split; [exact Hr|]. split; [exact Hlen|].
    rewrite Havg. vm_compute in Hr. injection Hr as <-. vm_compute. reflexivity.
  - destruct (Hpass 0%nat weightedRankings eq_refl) as (rankings' & Hw & _).
    + intros [|[|[|[|i]]]] r p l Hr Hp Hl; vm_compute in Hp; try discriminate Hp;
        injection Hp as <-; vm_compute in Hr; injection Hr as <-;
        vm_compute in Hl; injection Hl as <-; vm_compute; reflexivity.
    + exists rankings'. split; [exact Hw|].
      vm_compute in Hw. injection Hw as <-. reflexivity.
Defined.

(** The cutoff of the fifth pass, as the program has it. *)
Lemma cutoff_fifth_pass : Solver64.cutoff 4 = 0.33999999999999997%float.
Proof. reflexivity. Qed.
